(** * Stream cleanup demos of the Koa patch for issue 1834

    Two demo servers and the vendoring script are embedded here:

    - [Replace]: the sequential stream replacement demo
      ([testBuggyBehavior], [testFixedBehavior]), where a stream assigned
      as body is displaced by a second one;
    - [Pipe]: the pipeline demo ([simulateOriginalBehavior],
      [simulateFixedBehavior]), where a stream is forwarded to a mock
      response with [Stream.pipeline];
    - [Vendor]: the recursive copy of the vendoring script
      ([copyRecursive]), over a file system kept as a finite map.

    Both demo servers are event driven.  Closures are defunctionalised: every
    listener, timer callback and promise resolver of the source is a
    constructor, and the global [testResults] object, the event emitters
    and the timer queue are threaded through an explicit state. *)

From stdpp Require Import base list strings pretty gmap.
From Stdlib Require Import ZArith.

Open Scope Z_scope.

(* ===================================================================== *)
(** * The stream replacement demo                                         *)
(* ===================================================================== *)

Module Replace.

(** ** Data *)

(** The two entries of [testResults]. *)
Inductive variant := Buggy | Fixed.

(** One entry of [testResults].  The counters are JavaScript numbers that
    only ever hold small non-negative integers; they are kept as [Z]. *)
Record counters := Counters {
  unhandledErrors : Z;
  streamsDestroyed : Z;
  testComplete : bool
}.

Record test_results := TestResults {
  buggy : counters;
  fixed : counters
}.

Definition fresh_counters : counters := Counters 0 0 false.

Definition entry (v : variant) (r : test_results) : counters :=
  match v with Buggy => buggy r | Fixed => fixed r end.

Definition set_entry (v : variant) (c : counters) (r : test_results) : test_results :=
  match v with
  | Buggy => TestResults c (fixed r)
  | Fixed => TestResults (buggy r) c
  end.

(** [new Error(msg)]. *)
Record error := Error { message : string }.

(** [haystack.includes(needle)]. *)
Fixpoint includes (haystack needle : string) : bool :=
  String.prefix needle haystack ||
  match haystack with
  | EmptyString => false
  | String _ rest => includes rest needle
  end.

(** Listeners registered on streams.  [CloseCounter v k] is the closure
    [() => { testResults.<v>.streamsDestroyed++; console.log(...) }] put on
    ['close'] of stream [k]; [ErrorNoop] is the handler that the cleanup
    installs with [original.once('error', ...)]: it only logs. *)
Inductive close_listener := CloseCounter (v : variant) (k : nat).
Inductive error_listener := ErrorNoop.

(** A registration remembers whether it was made with [once]. *)
Record registration (L : Type) := Registration {
  handler : L;
  is_once : bool
}.
Arguments Registration {L} _ _.
Arguments handler {L} _.
Arguments is_once {L} _.

(** A [Readable]: an event emitter with a [pipe] method and a [destroyed]
    flag. *)
Record stream := Stream {
  on_error : list (registration error_listener);
  on_close : list (registration close_listener);
  destroyed : bool
}.

(** Heap objects: streams, and plain objects that have no [pipe]. *)
Inductive object := OStream (s : stream) | OPlain.

(** Values that can be held by the [body] variable.  Objects are
    references into the heap, so two streams with the same contents are
    still two values. *)
Inductive value := VUndefined | VNull | VText (s : string) | VRef (id : nat).

#[global] Instance value_eq_dec : EqDecision value.
Proof. solve_decision. Defined.

(** The closure [errorHandler] of one [testBuggyBehavior] call. *)
Inductive process_listener := ErrorHandler (closure : nat).

#[global] Instance process_listener_eq_dec : EqDecision process_listener.
Proof. solve_decision. Defined.

(** Timer callbacks. *)
Inductive callback :=
  | EmitError (id : nat) (name : string)
      (* createFailingStream: stream.emit('error', new Error(...)) *)
  | RemoveErrorHandler (closure : nat)
      (* process.removeListener('uncaughtException', errorHandler) *)
  | Resolve (v : variant).
      (* resolve({ ... }) of the returned promise *)

Record timer := Timer { due : nat; callback_of : callback }.

(** The object a test promise resolves with. *)
Record result := Result {
  res_unhandledErrors : Z;
  res_streamsDestroyed : Z;
  success : bool;
  res_message : string
}.

(** Console lines, one constructor per [console.log] site that the
    modelled paths reach. *)
Inductive log_line :=
  | LogTesting (v : variant)
  | LogDestroyed (v : variant) (k : nat)
  | LogSetBody (v : variant) (k : nat)
  | LogUnhandled (msg : string)
  | LogCleaningUp
  | LogErrorCaught.

(** Ghost record of what happened to streams, in program order.
    [Destroy id n] notes that [destroy] was called on [id] while [n]
    ['error'] listeners were attached to it. *)
Inductive event :=
  | Attach (id : nat)
  | Destroy (id : nat) (observers : nat)
  | Closed (id : nat)
  | Delivered (id : nat)
  | Thrown (id : nat).

#[global] Instance event_eq_dec : EqDecision event.
Proof. solve_decision. Defined.

Record state := State {
  heap : list object;
  testResults : test_results;
  ticks : list nat;
  timers : list timer;
  now : nat;
  listeners : list (registration process_listener);
  next_closure : nat;
  fatal : option error;
  console : list log_line;
  trace : list event;
  resolved : list result
}.

Definition initial : state :=
  State [] (TestResults fresh_counters fresh_counters) [] [] 0 [] 0 None [] [] [].

(** Field updates. *)
Definition with_heap (h : list object) (w : state) : state :=
  State h (testResults w) (ticks w) (timers w) (now w) (listeners w)
        (next_closure w) (fatal w) (console w) (trace w) (resolved w).
Definition with_results (r : test_results) (w : state) : state :=
  State (heap w) r (ticks w) (timers w) (now w) (listeners w)
        (next_closure w) (fatal w) (console w) (trace w) (resolved w).
Definition with_ticks (q : list nat) (w : state) : state :=
  State (heap w) (testResults w) q (timers w) (now w) (listeners w)
        (next_closure w) (fatal w) (console w) (trace w) (resolved w).
Definition with_timers (ts : list timer) (w : state) : state :=
  State (heap w) (testResults w) (ticks w) ts (now w) (listeners w)
        (next_closure w) (fatal w) (console w) (trace w) (resolved w).
Definition with_now (t : nat) (w : state) : state :=
  State (heap w) (testResults w) (ticks w) (timers w) t (listeners w)
        (next_closure w) (fatal w) (console w) (trace w) (resolved w).
Definition with_listeners (ls : list (registration process_listener)) (w : state) : state :=
  State (heap w) (testResults w) (ticks w) (timers w) (now w) ls
        (next_closure w) (fatal w) (console w) (trace w) (resolved w).
Definition with_next_closure (n : nat) (w : state) : state :=
  State (heap w) (testResults w) (ticks w) (timers w) (now w) (listeners w)
        n (fatal w) (console w) (trace w) (resolved w).
Definition with_fatal (e : option error) (w : state) : state :=
  State (heap w) (testResults w) (ticks w) (timers w) (now w) (listeners w)
        (next_closure w) e (console w) (trace w) (resolved w).
Definition log (l : log_line) (w : state) : state :=
  State (heap w) (testResults w) (ticks w) (timers w) (now w) (listeners w)
        (next_closure w) (fatal w) (console w ++ [l]) (trace w) (resolved w).
Definition record (e : event) (w : state) : state :=
  State (heap w) (testResults w) (ticks w) (timers w) (now w) (listeners w)
        (next_closure w) (fatal w) (console w) (trace w ++ [e]) (resolved w).
Definition with_resolved (rs : list result) (w : state) : state :=
  State (heap w) (testResults w) (ticks w) (timers w) (now w) (listeners w)
        (next_closure w) (fatal w) (console w) (trace w) rs.

(** ** The runtime: emitters, the process, timers *)

Definition stream_at (w : state) (id : nat) : option stream :=
  match heap w !! id with
  | Some (OStream s) => Some s
  | _ => None
  end.

Definition put_stream (id : nat) (s : stream) (w : state) : state :=
  with_heap (<[id := OStream s]> (heap w)) w.

(** [new Readable({ read() {} })]: a fresh stream without listeners. *)
Definition new_readable (w : state) : nat * state :=
  (length (heap w), with_heap (heap w ++ [OStream (Stream [] [] false)]) w).

(** [setTimeout(cb, delay)]. *)
Definition setTimeout (cb : callback) (delay : nat) (w : state) : state :=
  with_timers (timers w ++ [Timer (now w + delay) cb]) w.

(** [stream.on('close', l)] and [stream.once('error', l)]. *)
Definition on_close_add (id : nat) (l : close_listener) (w : state) : state :=
  match stream_at w id with
  | Some s =>
      put_stream id (Stream (on_error s) (on_close s ++ [Registration l false]) (destroyed s)) w
  | None => w
  end.

Definition once_error (id : nat) (l : error_listener) (w : state) : state :=
  match stream_at w id with
  | Some s =>
      record (Attach id)
        (put_stream id (Stream (on_error s ++ [Registration l true]) (on_close s) (destroyed s)) w)
  | None => w
  end.

(** [destroy(stream)] of the [destroy] package calls [stream.destroy()]:
    a stream that is already destroyed is left alone, otherwise it is
    flagged and its ['close'] event is queued with [process.nextTick]. *)
Definition destroy (id : nat) (w : state) : state :=
  match stream_at w id with
  | Some s =>
      let w1 := record (Destroy id (length (on_error s))) w in
      if destroyed s then w1
      else with_ticks (ticks w1 ++ [id])
             (put_stream id (Stream (on_error s) (on_close s) true) w1)
  | None => w
  end.

(** Listeners that were registered with [once] are dropped when the event
    fires. *)
Definition survivors {L} (rs : list (registration L)) : list (registration L) :=
  filter (λ r, is_once r = false) rs.

Definition bump_destroyed (c : counters) : counters :=
  Counters (unhandledErrors c) (streamsDestroyed c + 1) (testComplete c).

Definition run_close_listener (w : state) (r : registration close_listener) : state :=
  match handler r with
  | CloseCounter v k =>
      log (LogDestroyed v k)
        (with_results (set_entry v (bump_destroyed (entry v (testResults w))) (testResults w)) w)
  end.

Definition run_error_listener (w : state) (r : registration error_listener) : state :=
  match handler r with
  | ErrorNoop => log LogErrorCaught w
  end.

(** [stream.emit('close')]. *)
Definition emit_close (w : state) (id : nat) : state :=
  match stream_at w id with
  | Some s =>
      let w1 := record (Closed id)
                  (put_stream id (Stream (on_error s) (survivors (on_close s)) (destroyed s)) w) in
      foldl run_close_listener w1 (on_close s)
  | None => w
  end.

(** The body of [errorHandler]. *)
Definition run_process_listener (e : error) (w : state) (r : registration process_listener) : state :=
  match handler r with
  | ErrorHandler _ =>
      if includes (message e) "Stream 1 failed" then
        let c := buggy (testResults w) in
        let w1 := with_results
                    (set_entry Buggy (Counters (unhandledErrors c + 1) (streamsDestroyed c) (testComplete c))
                       (testResults w)) w in
        let w2 := log (LogUnhandled (message e)) w1 in
        let c2 := buggy (testResults w2) in
        with_results
          (set_entry Buggy (Counters (unhandledErrors c2) (streamsDestroyed c2) true) (testResults w2)) w2
      else w
  end.

(** An exception that escapes a timer callback: the process emits
    ['uncaughtException']; without a listener it terminates. *)
Definition uncaught (e : error) (w : state) : state :=
  match listeners w with
  | [] => with_fatal (Some e) w
  | ls => foldl (run_process_listener e) (with_listeners (survivors ls) w) ls
  end.

(** [stream.emit('error', e)]: with no ['error'] listener the emitter
    throws [e]. *)
Definition emit_error (id : nat) (e : error) (w : state) : state :=
  match stream_at w id with
  | Some s =>
      match on_error s with
      | [] => uncaught e (record (Thrown id) w)
      | ls =>
          let w1 := record (Delivered id)
                      (put_stream id (Stream (survivors ls) (on_close s) (destroyed s)) w) in
          foldl run_error_listener w1 ls
      end
  | None => w
  end.

(** [process.removeListener('uncaughtException', errorHandler)]. *)
Definition remove_listener (l : process_listener) (w : state) : state :=
  with_listeners (filter (λ r, handler r ≠ l) (listeners w)) w.

(** The object passed to [resolve]. *)
Definition resolve_value (v : variant) (w : state) : result :=
  match v with
  | Buggy =>
      Result (unhandledErrors (buggy (testResults w)))
             (streamsDestroyed (buggy (testResults w)))
             false
             (if bool_decide (unhandledErrors (buggy (testResults w)) > 0)
              then "Unhandled error detected from replaced stream!"
              else "Waiting for error...")
  | Fixed =>
      Result (unhandledErrors (fixed (testResults w)))
             (streamsDestroyed (fixed (testResults w)))
             true
             "No unhandled errors! Old stream properly cleaned up."
  end.

Definition run_callback (cb : callback) (w : state) : state :=
  match cb with
  | EmitError id name => emit_error id (Error ("Stream " +:+ name +:+ " failed")) w
  | RemoveErrorHandler c => remove_listener (ErrorHandler c) w
  | Resolve v => with_resolved (resolved w ++ [resolve_value v w]) w
  end.

(** The [process.nextTick] queue is emptied after the running code
    returns. *)
Definition drain_ticks (w : state) : state :=
  foldl emit_close (with_ticks [] w) (ticks w).

(** Timers run in order of expiry, and in creation order among equals. *)
Fixpoint insert_by_due (t : timer) (ts : list timer) : list timer :=
  match ts with
  | [] => [t]
  | u :: rest => if bool_decide (due u ≤ due t)%nat then u :: insert_by_due t rest
                 else t :: ts
  end.

Definition by_due (ts : list timer) : list timer :=
  foldl (λ acc t, insert_by_due t acc) [] ts.

(** A terminated process runs nothing further. *)
Fixpoint run_timers (ts : list timer) (w : state) : state :=
  match ts with
  | [] => w
  | t :: rest =>
      match fatal w with
      | Some _ => w
      | None => run_timers rest (drain_ticks (run_callback (callback_of t) w))
      end
  end.

(** Let the event loop run up to time [t]. *)
Definition run_until (t : nat) (w : state) : state :=
  let ready := by_due (filter (λ u, (due u ≤ t)%nat) (timers w)) in
  let later := filter (λ u, ¬ (due u ≤ t)%nat) (timers w) in
  with_now t (run_timers ready (drain_ticks (with_timers later w))).

(** ** The program *)

(** [createFailingStream(name)]: a stream that emits an error 100 ms
    after its creation. *)
Definition createFailingStream (name : string) (w : state) : nat * state :=
  let '(id, w1) := new_readable w in
  (id, setTimeout (EmitError id name) 100 w1).

(** JavaScript truthiness of a body value. *)
Definition is_truthy (v : value) : bool :=
  match v with
  | VUndefined | VNull => false
  | VText s => negb (bool_decide (s = ""))
  | VRef _ => true
  end.

(** [typeof v.pipe === 'function']. *)
Definition has_pipe (w : state) (v : value) : bool :=
  match v with
  | VRef id => match stream_at w id with Some _ => true | None => false end
  | _ => false
  end.

(** The cleanup of a displaced stream, the body of
    [if (shouldDestroyOriginal) { ... }]: log, install the error handler,
    then destroy. *)
Definition retire (id : nat) (w : state) : state :=
  destroy id (once_error id ErrorNoop (log LogCleaningUp w)).

(** The replacement step of [testFixedBehavior]:
    [const original = body; body = val; if (original !== body) { ... }].
    It returns the new content of [body]. *)
Definition assign_fixed (val : value) (body : value) (w : state) : value * state :=
  let original := body in
  let body := val in
  if bool_decide (original ≠ body) then
    let shouldDestroyOriginal := is_truthy original && has_pipe w original in
    match original with
    | VRef id => if shouldDestroyOriginal then (body, retire id w) else (body, w)
    | _ => (body, w)
    end
  else (body, w).

(** The replacement step of [testBuggyBehavior]: [body = val], nothing
    else. *)
Definition assign_buggy (val : value) (body : value) (w : state) : value * state :=
  (val, w).

Definition reset (v : variant) (w : state) : state :=
  with_results (set_entry v fresh_counters (testResults w)) w.

(** [process.once('uncaughtException', errorHandler)] with a new closure. *)
Definition once_uncaught (w : state) : nat * state :=
  let c := next_closure w in
  (c, with_next_closure (S c)
        (with_listeners (listeners w ++ [Registration (ErrorHandler c) true]) w)).

Definition testBuggyBehavior (w : state) : state :=
  let w := reset Buggy (log (LogTesting Buggy) w) in
  let '(stream1, w) := createFailingStream "1" w in
  let '(stream2, w) := createFailingStream "2" w in
  let w := on_close_add stream1 (CloseCounter Buggy 1) w in
  let w := on_close_add stream2 (CloseCounter Buggy 2) w in
  let body := VRef stream1 in
  let w := log (LogSetBody Buggy 1) w in
  let '(body, w) := assign_buggy (VRef stream2) body w in
  let w := log (LogSetBody Buggy 2) w in
  let '(errorHandler, w) := once_uncaught w in
  let w := setTimeout (RemoveErrorHandler errorHandler) 500 w in
  setTimeout (Resolve Buggy) 300 w.

Definition testFixedBehavior (w : state) : state :=
  let w := reset Fixed (log (LogTesting Fixed) w) in
  let '(stream1, w) := createFailingStream "1" w in
  let '(stream2, w) := createFailingStream "2" w in
  let w := on_close_add stream1 (CloseCounter Fixed 1) w in
  let w := on_close_add stream2 (CloseCounter Fixed 2) w in
  let body := VRef stream1 in
  let w := log (LogSetBody Fixed 1) w in
  let '(body, w) := assign_fixed (VRef stream2) body w in
  let w := log (LogSetBody Fixed 2) w in
  setTimeout (Resolve Fixed) 300 w.

(** ** Sequences of operations on one body *)

(** What can happen to a body and its streams after an assignment: a
    further assignment through the cleanup path, the pending
    [nextTick] work, or an error raised by some stream. *)
Inductive op :=
  | Assign (v : value)
  | NextTick
  | Raise (id : nat) (e : error).

Definition step (bw : value * state) (o : op) : value * state :=
  match o with
  | Assign v => assign_fixed v bw.1 bw.2
  | NextTick => (bw.1, drain_ticks bw.2)
  | Raise id e => (bw.1, emit_error id e bw.2)
  end.

Definition exec (os : list op) (bw : value * state) : value * state :=
  foldl step bw os.

Definition assign_all (vs : list value) (bw : value * state) : value * state :=
  exec (Assign <$> vs) bw.

(** ** Observations *)

Definition error_observers (w : state) (id : nat) : nat :=
  match stream_at w id with
  | Some s => length (on_error s)
  | None => 0
  end.

Definition is_destroyed (w : state) (id : nat) : bool :=
  match stream_at w id with
  | Some s => destroyed s
  | None => false
  end.

Definition is_destroy_of (id : nat) (e : event) : bool :=
  match e with Destroy i _ => bool_decide (i = id) | _ => false end.

Definition is_closed_of (id : nat) (e : event) : bool :=
  match e with Closed i => bool_decide (i = id) | _ => false end.

Definition is_attach_of (id : nat) (e : event) : bool :=
  match e with Attach i => bool_decide (i = id) | _ => false end.

Definition count_where {A} (p : A → bool) (l : list A) : nat :=
  length (List.filter p l).

(** How often [id] was retired, had an observer attached, was closed. *)
Definition retirements (w : state) (id : nat) : nat := count_where (is_destroy_of id) (trace w).
Definition attachments (w : state) (id : nat) : nat := count_where (is_attach_of id) (trace w).
Definition closings (w : state) (id : nat) : nat := count_where (is_closed_of id) (trace w).

(** All retire invocations, in order. *)
Definition retired_ids (tr : list event) : list nat :=
  omap (λ e, match e with Destroy i _ => Some i | _ => None end) tr.

(** Every [destroy] call comes directly after an [Attach] of the same
    stream and finds at least one ['error'] listener in place. *)
Definition cancel_is_observed (tr : list event) : Prop :=
  ∀ i id n, tr !! i = Some (Destroy id n) →
    (1 ≤ n)%nat ∧ ∃ j, i = S j ∧ tr !! j = Some (Attach id).

(** [raises id o]: the operation is an error raised by stream [id]. *)
Definition raises (id : nat) (o : op) : bool :=
  match o with
  | Raise i _ => bool_decide (i = id)
  | _ => false
  end.

Definition quiet (id : nat) (os : list op) : bool :=
  forallb (λ o, negb (raises id o)) os.

(** The stream, if any, that assigning [v] over [body] displaces:
    [body] is a stream and [v] is not the very same value. *)
Definition displaces (like : value → bool) (body v : value) : option nat :=
  match body with
  | VRef id => if bool_decide (body ≠ v) && like body then Some id else None
  | _ => None
  end.

(** The streams displaced by a sequence of assignments, in order. *)
Fixpoint displaced (like : value → bool) (body : value) (vs : list value) : list nat :=
  match vs with
  | [] => []
  | v :: rest =>
      match displaces like body v with
      | Some id => id :: displaced like v rest
      | None => displaced like v rest
      end
  end.

Definition occurrences (id : nat) (l : list nat) : nat :=
  length (filter (λ i, i = id) l).

(** A state in which no stream has been destroyed and nothing is
    pending or recorded yet. *)
Definition pristine (w : state) : bool :=
  bool_decide (ticks w = []) && bool_decide (trace w = []) &&
  forallb (λ o, match o with OStream s => negb (destroyed s) | OPlain => true end) (heap w).

(** What cleanup depends on in a stream: its error listeners and its
    [destroyed] flag. *)
Definition view (w : state) (id : nat) : option (list (registration error_listener) * bool) :=
  (λ s, (on_error s, destroyed s)) <$> stream_at w id.

(** Two failing streams, as [testFixedBehavior] creates them. *)
Definition two_streams : state :=
  (createFailingStream "2" (createFailingStream "1" initial).2).2.

(** A single stream without listeners. *)
Definition one_stream : state := (new_readable initial).2.

(** A server at rest: no timer or [nextTick] work is pending, no
    ['uncaughtException'] listener is installed and the process runs. *)
Definition idle (w : state) : bool :=
  match timers w, ticks w, listeners w, fatal w with
  | [], [], [], None => true
  | _, _, _, _ => false
  end.

End Replace.

(* ===================================================================== *)
(** * The pipeline demo                                                   *)
(* ===================================================================== *)

Module Pipe.

(** ** Data *)

(** One entry of [testResults]; the objects returned by the two
    operations have the same fields.  The counters are JavaScript numbers
    holding integers; they are kept as [Z]. *)
Record stats := Stats {
  success : bool;
  error : option string;
  activeConnections : Z;
  streamsCreated : Z;
  activeStreams : Z
}.

Record test_results := TestResults {
  original : stats;
  patched : stats
}.

Definition chunk := string.

(** The life of one [pipeline(nodeReadable, mockRes, cb)] call.  While it
    is [Draining], chunks go from the source to [mockRes].  It is
    [Closing] once [mockRes] has been destroyed: [pipeline] destroys
    [nodeReadable], whose [_destroy] has to wait for the read that is
    pending on the web stream, and the callback has not run yet.  The
    other three phases are final: the callback has run. *)
Inductive phase := Draining | Closing | Completed | Errored | Aborted.

#[global] Instance phase_eq_dec : EqDecision phase.
Proof. solve_decision. Defined.

(** The [err] argument that [pipeline] hands to its callback: the error
    of the source, or the premature close of the destination. *)
Inductive failure := SourceFailure (msg : string) | PrematureClose.

(** The [TypeError] that [controller.enqueue] and [controller.close] throw
    when the web stream of session [i] is closed, errored or cancelled.
    It is thrown inside the callback of [setInterval], where nothing
    catches it. *)
Inductive exception := InvalidState (i : nat).

#[global] Instance exception_eq_dec : EqDecision exception.
Proof. solve_decision. Defined.

(** One call of [simulateFixedBehavior]: the pipeline, what [mockRes]
    has accepted, and whether its 2000 ms disconnect timer is still
    pending. *)
Record session := Session {
  phase_of : phase;
  written : list chunk;
  disconnect_pending : bool
}.

(** Console lines.  The lines printed by the pipeline callback and by
    the disconnect timer carry the index of their session. *)
Inductive log_line :=
  | LogTestingOriginal
  | LogTestingFixed
  | LogInitialOriginal (connections streams created : Z)
  | LogInitialFixed (connections streams created : Z)
  | LogOriginalDisconnected
  | LogOriginalAfterDisconnect (connections streams : Z)
  | LogFixedDisconnected (i : nat)
  | LogCancelled (i : nat)
  | LogErrorAbortDetected (i : nat)
  | LogAfterCleanup (i : nat) (connections streams : Z)
  | LogCleanedUp (i : nat).

#[global] Instance log_line_eq_dec : EqDecision log_line.
Proof. solve_decision. Defined.

(** [fatal] is the first exception that nothing caught: the script has
    no ['uncaughtException'] listener, so it ends the process. *)
Record state := State {
  testResults : test_results;
  sessions : list session;
  original_timers : nat;
  console : list log_line;
  fatal : option exception
}.

Definition initial : state :=
  State (TestResults (Stats false None 0 0 0) (Stats false None 0 0 0)) [] 0 [] None.

Definition log (l : log_line) (w : state) : state :=
  State (testResults w) (sessions w) (original_timers w) (console w ++ [l]) (fatal w).

Definition with_original (s : stats) (w : state) : state :=
  State (TestResults s (patched (testResults w))) (sessions w) (original_timers w) (console w)
        (fatal w).

Definition with_patched (s : stats) (w : state) : state :=
  State (TestResults (original (testResults w)) s) (sessions w) (original_timers w) (console w)
        (fatal w).

Definition with_sessions (ss : list session) (w : state) : state :=
  State (testResults w) ss (original_timers w) (console w) (fatal w).

Definition with_original_timers (n : nat) (w : state) : state :=
  State (testResults w) (sessions w) n (console w) (fatal w).

(** An exception that nothing catches; the first one is kept. *)
Definition throw (x : exception) (w : state) : state :=
  match fatal w with
  | Some _ => w
  | None => State (testResults w) (sessions w) (original_timers w) (console w) (Some x)
  end.

(** ** The two operations *)

(** [simulateOriginalBehavior()]: the three counters go up, a timer is
    set that takes [activeConnections] down again after 2000 ms, and the
    counters are returned with [success: false]. *)
Definition simulateOriginalBehavior (w : state) : stats * state :=
  let w := log LogTestingOriginal w in
  let o := original (testResults w) in
  let w := with_original
             (Stats (success o) (error o) (activeConnections o + 1)
                    (streamsCreated o + 1) (activeStreams o + 1)) w in
  let w := with_original_timers (S (original_timers w)) w in
  let o := original (testResults w) in
  let w := log (LogInitialOriginal (activeConnections o) (activeStreams o) (streamsCreated o)) w in
  (Stats false
         (Some "Stream continues after client disconnect with .pipe(), causing memory leak")
         (activeConnections o) (streamsCreated o) (activeStreams o),
   w).

(** The timer of [simulateOriginalBehavior]: only [activeConnections]
    is decremented. *)
Definition original_disconnect (w : state) : state :=
  let w := log LogOriginalDisconnected w in
  let o := original (testResults w) in
  let w := with_original
             (Stats (success o) (error o) (activeConnections o - 1)
                    (streamsCreated o) (activeStreams o)) w in
  let o := original (testResults w) in
  log (LogOriginalAfterDisconnect (activeConnections o) (activeStreams o)) w.

(** The callback given to [pipeline] by session [i]. *)
Definition pipeline_callback (i : nat) (err : option failure) (w : state) : state :=
  let w := match err with
           | Some _ => log (LogErrorAbortDetected i) w
           | None => w
           end in
  let p := patched (testResults w) in
  let w := with_patched
             (Stats (success p) (error p) (activeConnections p - 1)
                    (streamsCreated p) (activeStreams p - 1)) w in
  let p := patched (testResults w) in
  let w := log (LogAfterCleanup i (activeConnections p) (activeStreams p)) w in
  log (LogCleanedUp i) w.

(** [simulateFixedBehavior()]: the three counters go up, the stream is
    piped into [mockRes] with [pipeline], a timer is set that destroys
    [mockRes] after 2000 ms, and the counters are returned with
    [success: true]. *)
Definition simulateFixedBehavior (w : state) : stats * state :=
  let w := log LogTestingFixed w in
  let p := patched (testResults w) in
  let w := with_patched
             (Stats (success p) (error p) (activeConnections p + 1)
                    (streamsCreated p + 1) (activeStreams p + 1)) w in
  let w := with_sessions (sessions w ++ [Session Draining [] true]) w in
  let p := patched (testResults w) in
  let w := log (LogInitialFixed (activeConnections p) (activeStreams p) (streamsCreated p)) w in
  (Stats true None (activeConnections p) (streamsCreated p) (activeStreams p), w).

(** ** The pipeline *)

Definition phase_at (w : state) (i : nat) : option phase :=
  phase_of <$> sessions w !! i.

(** [pipeline] calls its callback once, when both streams are through:
    without an error when the source has ended and the destination has
    taken everything, with the error of the source when the source fails,
    and with a premature-close error when the destination was destroyed
    first.  After that the session is over. *)
Definition finish (i : nat) (p : phase) (err : option failure) (w : state) : state :=
  match sessions w !! i with
  | Some s =>
      match phase_of s with
      | Draining | Closing =>
          pipeline_callback i err
            (with_sessions (<[i := Session p (written s) (disconnect_pending s)]> (sessions w)) w)
      | _ => w
      end
  | None => w
  end.

(** [mockRes.write(chunk, encoding, callback)] accepts every chunk. *)
Definition write (i : nat) (c : chunk) (w : state) : state :=
  match sessions w !! i with
  | Some s =>
      match phase_of s with
      | Draining =>
          with_sessions (<[i := Session Draining (written s ++ [c]) (disconnect_pending s)]> (sessions w)) w
      | _ => w
      end
  | None => w
  end.

(** The timer of session [i]: [mockRes.destroy()].  The pipeline of a
    draining session starts to close; its callback does not run here. *)
Definition fixed_disconnect (i : nat) (w : state) : state :=
  match sessions w !! i with
  | Some s =>
      if disconnect_pending s then
        let w := log (LogFixedDisconnected i) w in
        let p := match phase_of s with Draining => Closing | p => p end in
        with_sessions (<[i := Session p (written s) false]> (sessions w)) w
      else w
  | None => w
  end.

(** [controller.enqueue(chunk)] on the web stream of session [i].  While
    the pipeline drains, the chunk is read and written to [mockRes].
    While it closes, the chunk settles the pending read: the chunk is
    dropped, the web stream is cancelled ([cancel()] only prints a line,
    the interval goes on), and the callback runs with the premature
    close.  When the stream is closed, errored or cancelled, [enqueue]
    throws. *)
Definition enqueue (i : nat) (c : chunk) (w : state) : state :=
  match phase_at w i with
  | Some Draining => write i c w
  | Some Closing => finish i Aborted (Some PrematureClose) (log (LogCancelled i) w)
  | Some _ => throw (InvalidState i) w
  | None => w
  end.

(** [controller.close()] on the web stream of session [i]. *)
Definition close (i : nat) (w : state) : state :=
  match phase_at w i with
  | Some Draining => finish i Completed None w
  | Some Closing => finish i Aborted (Some PrematureClose) w
  | Some _ => throw (InvalidState i) w
  | None => w
  end.

(** [controller.error(e)] on the web stream of session [i]; it does
    nothing when the stream is no longer readable. *)
Definition fail (i : nat) (msg : string) (w : state) : state :=
  match phase_at w i with
  | Some Draining => finish i Errored (Some (SourceFailure msg)) w
  | Some Closing => finish i Aborted (Some PrematureClose) w
  | _ => w
  end.

(** What can happen to the server. *)
Inductive event :=
  | CallOriginal
  | CallFixed
  | OriginalDisconnect
  | FixedDisconnect (i : nat)
  | SourceChunk (i : nat) (c : chunk)
  | SourceEnd (i : nat)
  | SourceError (i : nat) (msg : string).

(** What an event does to the running server. *)
Definition handle (w : state) (e : event) : state :=
  match e with
  | CallOriginal => (simulateOriginalBehavior w).2
  | CallFixed => (simulateFixedBehavior w).2
  | OriginalDisconnect =>
      match original_timers w with
      | O => w
      | S n => original_disconnect (with_original_timers n w)
      end
  | FixedDisconnect i => fixed_disconnect i w
  | SourceChunk i c => enqueue i c w
  | SourceEnd i => close i w
  | SourceError i msg => fail i msg w
  end.

Definition run (es : list event) (w : state) : state := foldl handle w es.

(** The process itself takes no event once an exception has ended it.
    [run] goes on regardless; what holds after every [run] holds in
    particular for the events that the process took. *)
Definition step (w : state) (e : event) : state :=
  match fatal w with
  | Some _ => w
  | None => handle w e
  end.

Definition live (es : list event) (w : state) : state := foldl step w es.

(** ** Observations *)

(** What [mockRes] of session [i] has accepted so far. *)
Definition written_at (w : state) (i : nat) : option (list chunk) :=
  written <$> sessions w !! i.

Definition is_report (i : nat) (l : log_line) : bool :=
  match l with LogErrorAbortDetected j => bool_decide (j = i) | _ => false end.

Definition is_cleanup (i : nat) (l : log_line) : bool :=
  match l with LogCleanedUp j => bool_decide (j = i) | _ => false end.

(** How often the callback of session [i] took its error branch, and how
    often it ran its cleanup. *)
Definition reports (w : state) (i : nat) : nat := length (List.filter (is_report i) (console w)).
Definition cleanups (w : state) (i : nat) : nat := length (List.filter (is_cleanup i) (console w)).

(** What the console must show for session [i], given its phase: no
    line while it drains or closes, one cleanup once it is over, and one
    report if it ended with an error or an abort. *)
Definition counts_ok (w : state) (i : nat) : Prop :=
  match sessions w !! i with
  | None => reports w i = 0%nat ∧ cleanups w i = 0%nat
  | Some s =>
      match phase_of s with
      | Draining | Closing => reports w i = 0%nat ∧ cleanups w i = 0%nat
      | Completed => reports w i = 0%nat ∧ cleanups w i = 1%nat
      | Errored | Aborted => reports w i = 1%nat ∧ cleanups w i = 1%nat
      end
  end.

(** A draining session still has its disconnect timer. *)
Definition timer_ok (w : state) (i : nat) : Prop :=
  ∀ s, sessions w !! i = Some s → phase_of s = Draining → disconnect_pending s = true.

Definition consistent (w : state) : Prop := ∀ i, counts_ok w i ∧ timer_ok w i.

(** The error argument that goes with a final phase. *)
Definition ending (p : phase) (err : option failure) : Prop :=
  match p with
  | Draining | Closing => False
  | Completed => err = None
  | Errored | Aborted => is_Some err
  end.

(** A pipeline is open until its callback has run. *)
Definition is_open (s : session) : bool :=
  match phase_of s with Draining | Closing => true | _ => false end.

Definition open_sessions (w : state) : nat :=
  length (List.filter is_open (sessions w)).

(** The ways an event changes the session it belongs to, with the lines it
    prints first and the error argument of the callback if the callback
    runs: a chunk is written; the destination is destroyed; or the
    pipeline is through and its callback runs, after the web stream was
    cancelled if that is how it ended. *)
Inductive change (i : nat) (s : session) :
    session → list log_line → option (option failure) → Prop :=
  | change_write c :
      phase_of s = Draining →
      change i s (Session Draining (written s ++ [c]) (disconnect_pending s)) [] None
  | change_disconnect :
      disconnect_pending s = true →
      change i s (Session (match phase_of s with Draining => Closing | p => p end)
                          (written s) false)
        [LogFixedDisconnected i] None
  | change_finish p err ls :
      is_open s = true → ending p err → ls = [] ∨ ls = [LogCancelled i] →
      change i s (Session p (written s) (disconnect_pending s)) ls (Some err).

Definition apply_change (i : nat) (s' : session) (ls : list log_line)
    (cb : option (option failure)) (w : state) : state :=
  let w1 := with_sessions (<[i := s']> (sessions w)) (foldl (λ w l, log l w) w ls) in
  match cb with
  | Some err => pipeline_callback i err w1
  | None => w1
  end.

(** Does the event come from the source of session [i]? *)
Definition is_source_event (i : nat) (e : event) : bool :=
  match e with
  | SourceChunk j _ | SourceEnd j | SourceError j _ => bool_decide (j = i)
  | _ => false
  end.

Definition is_call_original (e : event) : bool :=
  match e with CallOriginal => true | _ => false end.

Definition calls_original (es : list event) : nat :=
  length (List.filter is_call_original es).

(** ** The mock source *)

(** [createMockFetchResponse()]: the [start] function of the
    [ReadableStream] keeps a counter and an interval that fires every
    100 ms.  [count] and [interval_set] are the variables [count] and
    [interval] of [start]; [stream_closed] notes that [controller.close()]
    was called. *)
Record mock := Mock {
  count : nat;
  interval_set : bool;
  stream_closed : bool
}.

(** What one firing of the interval asks of the controller. *)
Inductive action := Enqueue (c : chunk) | Close.

(** The text [`data chunk ${count}\n`]. *)
Definition data_chunk (count : nat) : chunk :=
  "data chunk " +:+ pretty count +:+ String (Ascii.ascii_of_nat 10) "".

Definition mock_start : mock := Mock 0 true false.

(** The callback of [setInterval]: a chunk while [count < 100],
    otherwise [clearInterval] and [controller.close()]. *)
Definition interval_tick (m : mock) : list action * mock :=
  if interval_set m then
    if bool_decide (count m < 100)%nat
    then ([Enqueue (data_chunk (count m))], Mock (S (count m)) true (stream_closed m))
    else ([Close], Mock (count m) false true)
  else ([], m).

(** [n] periods of 100 ms. *)
Fixpoint mock_run (n : nat) (m : mock) : list action * mock :=
  match n with
  | O => ([], m)
  | S k =>
      let '(first, m1) := interval_tick m in
      let '(rest, m2) := mock_run k m1 in
      (first ++ rest, m2)
  end.

(** What the pipeline of session [i] sees of an action of its source. *)
Definition source_event (i : nat) (a : action) : event :=
  match a with
  | Enqueue c => SourceChunk i c
  | Close => SourceEnd i
  end.

(** ** The request handler *)

(** What the middleware puts in [ctx.body]: the object returned by a
    simulation, or the demo page (a constant text, not spelled out
    here). *)
Inductive body := Json (result : stats) | Html.

(** [app.use(async (ctx) => { ... })], by [ctx.path]. *)
Definition serve (path : string) (w : state) : body * state :=
  if bool_decide (path = "/test-original") then
    let '(result, w) := simulateOriginalBehavior w in (Json result, w)
  else if bool_decide (path = "/test-fixed") then
    let '(result, w) := simulateFixedBehavior w in (Json result, w)
  else (Html, w).

Definition is_original_event (e : event) : bool :=
  match e with CallOriginal | OriginalDisconnect => true | _ => false end.

(** The counters of the patched entry follow the pipelines: one more for
    each call, one less each time a callback runs. *)
Definition tracked (w : state) : Prop :=
  activeStreams (patched (testResults w)) = Z.of_nat (open_sessions w) ∧
  activeConnections (patched (testResults w)) = Z.of_nat (open_sessions w) ∧
  streamsCreated (patched (testResults w)) = Z.of_nat (length (sessions w)).

End Pipe.

(* ===================================================================== *)
(** * The vendoring script                                                *)
(* ===================================================================== *)

Module Vendor.
Local Open Scope nat_scope.

(** The vendoring script copies directory trees with [copyRecursive].  The
    file system is a finite map from paths to entries; the root directory
    is the entry at the empty path.  Only regular files and directories
    are modelled (no links, no permissions).  The order in which
    [readdirSync] lists a directory is the platform's: it is a parameter,
    [order], and everything is stated for every order.  The recursion of
    [copyRecursive] is bounded by [fuel]. *)

(** A path is the list of its components below the root; [path.join(p, name)]
    is [p ++ [name]]. *)
Notation path := (list string).

(** What [fs.statSync] finds at a path: a regular file with its content,
    or a directory. *)
Inductive entry := File (data : string) | Dir.

#[global] Instance entry_eq_dec : EqDecision entry.
Proof. solve_decision. Defined.

(** The file system: the entry found at each path. *)
Notation fs := (gmap path entry).

(** How a call ends: normally, or with an exception, in both cases with
    the file system as it is at that point.  [OutOfFuel] is not an outcome
    of the program: the bound on the recursion depth was too small. *)
Inductive outcome := Done (m : fs) | Threw (m : fs) | OutOfFuel.

(** [strip p q] is the rest of [q] below [p], if [q] is at or below [p]. *)
Fixpoint strip (p q : path) : option path :=
  match p, q with
  | [], _ => Some q
  | a :: p', b :: q' => if decide (a = b) then strip p' q' else None
  | _ :: _, [] => None
  end.

(** Is there a directory at [p]? *)
Definition is_dir (m : fs) (p : path) : bool :=
  match m !! p with Some Dir => true | _ => false end.

(** [fs.existsSync(p)]. *)
Definition existsSync (p : path) (m : fs) : bool :=
  match m !! p with Some _ => true | None => false end.

(** [fs.mkdirSync(p, { recursive: true })]: walk down from the root,
    create what is missing, fail on a regular file. *)
Fixpoint mkdir_from (base rest : path) (m : fs) : outcome :=
  match rest with
  | [] => Done m
  | name :: rest' =>
      let p := base ++ [name] in
      match m !! p with
      | Some (File _) => Threw m
      | Some Dir => mkdir_from p rest' m
      | None => mkdir_from p rest' (<[p := Dir]> m)
      end
  end.

Definition mkdirSync (p : path) (m : fs) : outcome :=
  if is_dir m [] then mkdir_from [] p m else Threw m.

(** The name of [q] in [p], if [q] is directly below [p]. *)
Definition child_of (p q : path) : option string :=
  match strip p q with
  | Some [name] => Some name
  | _ => None
  end.

(** The names of the entries directly below [p]. *)
Definition children (p : path) (m : fs) : list string :=
  omap (child_of p) (map_to_list m).*1.

(** [fs.copyFileSync(src, dest)]: [src] must be a regular file, [dest] must
    not be a directory and must lie in an existing directory; an existing
    file is overwritten. *)
Definition copyFileSync (src dest : path) (m : fs) : outcome :=
  match m !! src with
  | Some (File d) =>
      match m !! dest with
      | Some Dir => Threw m
      | _ => if is_dir m (removelast dest) then Done (<[dest := File d]> m) else Threw m
      end
  | _ => Threw m
  end.

(** ** The copy *)

Section platform.

(** For each directory and state of the file system, the names that the
    platform lists first, in this order. *)
Context (order : path → fs → list string).

(** The names in [p], each once: those that [order] puts first, then the
    others. *)
Definition listing (p : path) (m : fs) : list string :=
  let names := children p m in
  let first := filter (λ n, n ∈ names) (remove_dups (order p m)) in
  first ++ filter (λ n, n ∉ first) names.

(** [fs.readdirSync(p)]: the names in directory [p]; it throws when [p]
    is not a directory. *)
Definition readdirSync (p : path) (m : fs) : option (list string) :=
  match m !! p with
  | Some Dir => Some (listing p m)
  | _ => None
  end.

(** [copyRecursive(src, dest)]: a directory is created at [dest] unless
    something exists there, and its entries are copied one by one; anything
    else is copied with [copyFileSync].  [statSync] throws when [src] does
    not exist. *)
Fixpoint copyRecursive (fuel : nat) (src dest : path) (m : fs) : outcome :=
  match fuel with
  | O => OutOfFuel
  | S fuel =>
      match m !! src with
      | None => Threw m
      | Some Dir =>
          match (if existsSync dest m then Done m else mkdirSync dest m) with
          | Done m1 =>
              match readdirSync src m1 with
              | None => Threw m1
              | Some entries =>
                  foldl (λ acc entry,
                           match acc with
                           | Done m' => copyRecursive fuel (src ++ [entry]) (dest ++ [entry]) m'
                           | stopped => stopped
                           end)
                    (Done m1) entries
              end
          | stopped => stopped
          end
      | Some (File _) => copyFileSync src dest m
      end
  end.

(** One turn of the loop [for (const entry of entries)]; an exception
    ends the loop. *)
Definition copy_entry (fuel : nat) (src dest : path) (acc : outcome) (entry : string) : outcome :=
  match acc with
  | Done m' => copyRecursive fuel (src ++ [entry]) (dest ++ [entry]) m'
  | stopped => stopped
  end.

End platform.

(** ** Conditions on a call [copyRecursive(src, dest)] *)

(** Neither path is at or below the other. *)
Fixpoint diverge (p q : path) : bool :=
  match p, q with
  | a :: p', b :: q' => if decide (a = b) then diverge p' q' else true
  | _, _ => false
  end.

(** The directories a path goes through, the root first. *)
Fixpoint ancestors (p : path) : list path :=
  match p with
  | [] => []
  | a :: p' => [] :: (cons a <$> ancestors p')
  end.

(** Every directory on the way to [p] exists. *)
Definition reachable (p : path) (m : fs) : bool :=
  forallb (is_dir m) (ancestors p).

(** The entries at or below [src] form a tree of depth less than [fuel]:
    each one below [src] lies in a directory. *)
Definition tree_under (fuel : nat) (src : path) (m : fs) : bool :=
  forallb (λ q, match strip src q with
                | Some r =>
                    bool_decide (length r < fuel)
                    && match r with [] => true | _ => is_dir m (removelast q) end
                | None => true
                end)
    (map_to_list m).*1.

(** No regular file of [src] meets a directory at the same place below
    [dest], and no directory of [src] meets a regular file. *)
Definition same_kind (a b : entry) : bool :=
  match a, b with
  | File _, File _ | Dir, Dir => true
  | _, _ => false
  end.

Definition compatible (src dest : path) (m : fs) : bool :=
  forallb (λ q, match strip src q with
                | Some r => match m !! q, m !! (dest ++ r) with
                            | Some a, Some b => same_kind a b
                            | _, _ => true
                            end
                | None => true
                end)
    (map_to_list m).*1.

(** What is found at [q] after [src] was copied onto [dest]. *)
Definition overlay (src dest : path) (m : fs) (q : path) : option entry :=
  match strip dest q with
  | Some r => match m !! (src ++ r) with
              | Some x => Some x
              | None => m !! q
              end
  | None => m !! q
  end.

(** The conditions as facts about every path. *)
Definition ready (fuel : nat) (src dest : path) (m : fs) : Prop :=
  diverge src dest = true ∧
  (∀ r, is_Some (m !! (src ++ r)) → length r < fuel) ∧
  (∀ r n, is_Some (m !! (src ++ r ++ [n])) → m !! (src ++ r) = Some Dir) ∧
  (∀ a, a ∈ ancestors dest → m !! a = Some Dir) ∧
  (∀ r a b, m !! (src ++ r) = Some a → m !! (dest ++ r) = Some b → same_kind a b = true).

(** The state of the loop over the entries of [src] once the names in
    [copied] have been dealt with. *)
Definition copied_so_far (src dest : path) (m : fs) (copied : list string) (mi : fs) : Prop :=
  ∀ q, mi !! q = match strip dest q with
                 | Some [] => Some Dir
                 | Some (n :: _) => if decide (n ∈ copied) then overlay src dest m q else m !! q
                 | None => m !! q
                 end.

(** Nothing is lost between [m] and [m']: what is not at or below [dest]
    is as it was, and an entry at or below [dest] is still there and still
    of its kind (a regular file may have new content). *)
Definition preserved (dest : path) (m m' : fs) : Prop :=
  ∀ q x, m !! q = Some x →
    match strip dest q with
    | None => m' !! q = Some x
    | Some _ => ∃ y, m' !! q = Some y ∧ same_kind x y = true
    end.

(** Did the call return normally? *)
Definition returned (o : outcome) : bool :=
  match o with
  | Done _ => true
  | _ => false
  end.

(** Did the call end at all, normally or not, within the bound? *)
Definition finished (o : outcome) : bool :=
  match o with
  | OutOfFuel => false
  | _ => true
  end.

(** The file system an outcome leaves behind. *)
Definition left_by (o : outcome) : option fs :=
  match o with
  | Done m | Threw m => Some m
  | OutOfFuel => None
  end.

(** An example: directory [a] with a file and a subdirectory, directory
    [b] with two files. *)
Definition ex : fs :=
  list_to_map [([], Dir); (["a"], Dir); (["a"; "x"], File "1"); (["a"; "d"], Dir);
               (["a"; "d"; "y"], File "2"); (["b"], Dir); (["b"; "x"], File "old");
               (["b"; "z"], File "keep")].

(** The same, with a regular file in [b] where [a] has a directory. *)
Definition ex_clash : fs := <[["b"; "d"] := File "in the way"]> ex.

(** The same, with a directory [p] that holds another version of [x]. *)
Definition ex_patch : fs := <[["p"; "x"] := File "patched"]> (<[["p"] := Dir]> ex).

(** A platform that lists [d] before [x]. *)
Definition ex_order : path → fs → list string := λ _ _, ["d"; "x"].

End Vendor.

(* ===================================================================== *)
(** * Facts about the stream replacement demo                             *)
(* ===================================================================== *)

Module ReplaceFacts.
Import Replace.

(** ** Heap lemmas *)

Lemma stream_at_lt w id s : stream_at w id = Some s → (id < length (heap w))%nat.
Proof.
  unfold stream_at. destruct (heap w !! id) as [o|] eqn:E; [|done].
  intros _. by eapply lookup_lt_Some.
Qed.

Lemma stream_at_put_eq w id s s0 :
  stream_at w id = Some s0 → stream_at (put_stream id s w) id = Some s.
Proof.
  intros H. unfold stream_at, put_stream. cbn.
  rewrite list_lookup_insert_eq; [done|]. by eapply stream_at_lt.
Qed.

Lemma stream_at_put_ne w id j s :
  id ≠ j → stream_at (put_stream id s w) j = stream_at w j.
Proof.
  intros H. unfold stream_at, put_stream. cbn.
  by rewrite list_lookup_insert_ne.
Qed.

(** ** What [retire] does *)

Lemma retire_unfold w id s :
  stream_at w id = Some s →
  let s1 := Stream (on_error s ++ [Registration ErrorNoop true]) (on_close s) (destroyed s) in
  let w1 := record (Attach id) (put_stream id s1 (log LogCleaningUp w)) in
  let w2 := record (Destroy id (S (length (on_error s)))) w1 in
  retire id w =
    if destroyed s then w2
    else with_ticks (ticks w ++ [id]) (put_stream id (Stream (on_error s1) (on_close s1) true) w2).
Proof.
  intros H s1 w1 w2. unfold retire, once_error.
  assert (Hl : stream_at (log LogCleaningUp w) id = Some s) by done.
  rewrite Hl. fold s1. fold w1.
  unfold destroy.
  assert (H1 : stream_at w1 id = Some s1).
  { unfold w1. change (stream_at (put_stream id s1 (log LogCleaningUp w)) id = Some s1).
    by eapply stream_at_put_eq. }
  rewrite H1. cbn [on_error s1].
  rewrite length_app. cbn [length]. rewrite Nat.add_1_r. fold w2.
  subst w2 w1 s1. destruct (destroyed s) eqn:D; cbn; rewrite ?D; done.
Qed.

Lemma retire_trace w id s :
  stream_at w id = Some s →
  trace (retire id w) = trace w ++ [Attach id; Destroy id (S (length (on_error s)))].
Proof.
  intros H. rewrite (retire_unfold _ _ _ H).
  destruct (destroyed s); cbn; by rewrite <- app_assoc.
Qed.

Lemma retire_stream_at_eq w id s :
  stream_at w id = Some s →
  stream_at (retire id w) id
  = Some (Stream (on_error s ++ [Registration ErrorNoop true]) (on_close s) true).
Proof.
  intros H. rewrite (retire_unfold _ _ _ H).
  assert (Hl : stream_at (log LogCleaningUp w) id = Some s) by done.
  pose proof (stream_at_put_eq _ _
    (Stream (on_error s ++ [Registration ErrorNoop true]) (on_close s) (destroyed s)) _ Hl) as H1.
  destruct (destroyed s) eqn:D.
  - exact H1.
  - unfold stream_at in *. cbn in *.
    rewrite list_lookup_insert_eq; [done|].
    rewrite length_insert. destruct (heap w !! id) eqn:E; [|done]. by eapply lookup_lt_Some.
Qed.

Lemma retire_stream_at_ne w id j :
  id ≠ j → stream_at (retire id w) j = stream_at w j.
Proof.
  intros Hne. unfold retire, once_error, destroy.
  change (stream_at (log LogCleaningUp w) id) with (stream_at w id).
  destruct (stream_at w id) as [s|] eqn:H.
  - set (s1 := Stream _ _ _).
    assert (H1 : stream_at (record (Attach id) (put_stream id s1 (log LogCleaningUp w))) id = Some s1).
    { change (stream_at (put_stream id s1 (log LogCleaningUp w)) id = Some s1).
      by eapply stream_at_put_eq. }
    rewrite H1. destruct (destroyed s1).
    + unfold stream_at. cbn. by rewrite list_lookup_insert_ne.
    + unfold stream_at. cbn. by rewrite !list_lookup_insert_ne.
  - change (stream_at (log LogCleaningUp w) id) with (stream_at w id). by rewrite H.
Qed.

Lemma retire_ticks w id s :
  stream_at w id = Some s →
  ticks (retire id w) = if destroyed s then ticks w else ticks w ++ [id].
Proof.
  intros H. rewrite (retire_unfold _ _ _ H). by destruct (destroyed s).
Qed.

Lemma retire_has_pipe w id s v :
  stream_at w id = Some s → has_pipe (retire id w) v = has_pipe w v.
Proof.
  intros H. destruct v as [| | |j]; try done. cbn.
  destruct (decide (id = j)) as [->|Hne].
  - by rewrite (retire_stream_at_eq _ _ _ H), H.
  - by rewrite retire_stream_at_ne.
Qed.

(** ** Listener runs leave streams alone *)

Lemma run_error_listeners_frame ls w :
  let w' := foldl run_error_listener w ls in
  heap w' = heap w ∧ trace w' = trace w ∧ ticks w' = ticks w ∧ fatal w' = fatal w ∧
  listeners w' = listeners w ∧ testResults w' = testResults w ∧ timers w' = timers w ∧
  resolved w' = resolved w ∧
  console w' = console w ++ replicate (length ls) LogErrorCaught.
Proof.
  revert w. induction ls as [|[[] o] ls IH]; intros w; cbn.
  - by rewrite app_nil_r.
  - destruct (IH (log LogErrorCaught w)) as (?&?&?&?&?&?&?&?&Hc).
    repeat split; try done. cbn in Hc. rewrite Hc. cbn. by rewrite <- app_assoc.
Qed.

Lemma run_close_listeners_frame ls w :
  let w' := foldl run_close_listener w ls in
  heap w' = heap w ∧ trace w' = trace w ∧ ticks w' = ticks w ∧ fatal w' = fatal w ∧
  listeners w' = listeners w ∧ timers w' = timers w ∧ resolved w' = resolved w.
Proof.
  revert w. induction ls as [|[[v k] o] ls IH]; intros w; cbn; [done|].
  destruct (IH (run_close_listener w (Registration (CloseCounter v k) o))) as (?&?&?&?&?&?&?).
  done.
Qed.

Lemma run_process_listeners_frame e ls w :
  let w' := foldl (run_process_listener e) w ls in
  heap w' = heap w ∧ trace w' = trace w ∧ ticks w' = ticks w ∧ fatal w' = fatal w ∧
  listeners w' = listeners w ∧ timers w' = timers w ∧ resolved w' = resolved w.
Proof.
  revert w. induction ls as [|[[c] o] ls IH]; intros w; cbn [foldl]; [done|].
  set (w1 := run_process_listener e w (Registration (ErrorHandler c) o)).
  destruct (IH w1) as (?&?&?&?&?&?&?).
  assert (heap w1 = heap w ∧ trace w1 = trace w ∧ ticks w1 = ticks w ∧ fatal w1 = fatal w ∧
          listeners w1 = listeners w ∧ timers w1 = timers w ∧ resolved w1 = resolved w)
    as (?&?&?&?&?&?&?).
  { unfold w1, run_process_listener. cbn. by destruct (includes _ _). }
  cbv zeta. repeat split; congruence.
Qed.

(** ** Emitting events *)

Lemma view_heap w w' id : heap w' = heap w → view w' id = view w id.
Proof. unfold view, stream_at. by intros ->. Qed.

Lemma error_observers_view w w' id : view w' id = view w id → error_observers w' id = error_observers w id.
Proof.
  unfold view, error_observers.
  destruct (stream_at w' id), (stream_at w id); cbn; intros H; try done;
  injection H as H1 H2; congruence.
Qed.

Lemma is_destroyed_view w w' id : view w' id = view w id → is_destroyed w' id = is_destroyed w id.
Proof.
  unfold view, is_destroyed.
  destruct (stream_at w' id), (stream_at w id); cbn; intros H; try done;
  injection H as H1 H2; congruence.
Qed.

Lemma has_pipe_view w w' id : view w' id = view w id → has_pipe w' (VRef id) = has_pipe w (VRef id).
Proof.
  unfold view. cbn.
  destruct (stream_at w' id), (stream_at w id); cbn; intros H; try done;
  injection H as H1 H2; congruence.
Qed.

Lemma emit_close_none w id : stream_at w id = None → emit_close w id = w.
Proof. unfold emit_close. by intros ->. Qed.

Lemma emit_close_some w id s :
  stream_at w id = Some s →
  let w' := emit_close w id in
  trace w' = trace w ++ [Closed id] ∧ ticks w' = ticks w ∧ fatal w' = fatal w ∧
  listeners w' = listeners w ∧
  heap w' = <[id := OStream (Stream (on_error s) (survivors (on_close s)) (destroyed s))]> (heap w).
Proof.
  intros H. unfold emit_close. rewrite H. cbv zeta.
  set (w1 := record _ _).
  destruct (run_close_listeners_frame (on_close s) w1) as (Hh&Ht&Hq&Hf&Hl&_).
  rewrite Hh, Ht, Hq, Hf, Hl. done.
Qed.

Lemma emit_close_view w id j : view (emit_close w id) j = view w j.
Proof.
  destruct (stream_at w id) as [s|] eqn:H.
  - destruct (emit_close_some _ _ _ H) as (_&_&_&_&Hh).
    unfold view, stream_at. rewrite Hh.
    destruct (decide (id = j)) as [->|Hne].
    + rewrite list_lookup_insert_eq by (by eapply stream_at_lt).
      unfold stream_at in H. destruct (heap w !! j) as [[]|]; by simplify_eq.
    + by rewrite list_lookup_insert_ne.
  - by rewrite emit_close_none.
Qed.

Lemma emit_close_trace w id :
  trace (emit_close w id) = trace w ++ (if has_pipe w (VRef id) then [Closed id] else []).
Proof.
  cbn. destruct (stream_at w id) as [s|] eqn:H.
  - by destruct (emit_close_some _ _ _ H) as (?&_).
  - rewrite emit_close_none by done. by rewrite app_nil_r.
Qed.

Lemma closes_view q : ∀ w j, view (foldl emit_close w q) j = view w j.
Proof.
  induction q as [|i q IH]; intros w j; cbn; [done|].
  by rewrite IH, emit_close_view.
Qed.

Lemma closes_trace q : ∀ w,
  trace (foldl emit_close w q)
  = trace w ++ (Closed <$> filter (λ i, has_pipe w (VRef i) = true) q).
Proof.
  induction q as [|i q IH]; intros w; cbn [foldl].
  - by rewrite app_nil_r.
  - rewrite IH, emit_close_trace, <- app_assoc. f_equal.
    rewrite filter_cons.
    assert (Hq : filter (λ i0, has_pipe (emit_close w i) (VRef i0) = true) q
                 = filter (λ i0, has_pipe w (VRef i0) = true) q).
    { apply list_filter_iff. intros k.
      by rewrite (has_pipe_view _ _ _ (emit_close_view w i k)). }
    rewrite Hq. destruct (has_pipe w (VRef i)) eqn:E.
    + rewrite decide_True by done. done.
    + rewrite decide_False by done. done.
Qed.

Lemma drain_ticks_view w j : view (drain_ticks w) j = view w j.
Proof. unfold drain_ticks. by rewrite closes_view. Qed.

Lemma drain_ticks_trace w :
  trace (drain_ticks w)
  = trace w ++ (Closed <$> filter (λ i, has_pipe w (VRef i) = true) (ticks w)).
Proof. unfold drain_ticks. by rewrite closes_trace. Qed.

Lemma uncaught_frame e w :
  heap (uncaught e w) = heap w ∧ trace (uncaught e w) = trace w ∧ ticks (uncaught e w) = ticks w.
Proof.
  unfold uncaught. destruct (listeners w) as [|r ls] eqn:E; [done|].
  destruct (run_process_listeners_frame e (r :: ls) (with_listeners (survivors (r :: ls)) w))
    as (?&?&?&_).
  done.
Qed.

(** An error on a stream that has a listener is delivered there and goes
    no further. *)
Lemma emit_error_observed w id e s :
  stream_at w id = Some s → on_error s ≠ [] →
  let w' := emit_error id e w in
  trace w' = trace w ++ [Delivered id] ∧ fatal w' = fatal w ∧
  testResults w' = testResults w ∧ listeners w' = listeners w ∧ ticks w' = ticks w ∧
  console w' = console w ++ replicate (length (on_error s)) LogErrorCaught ∧
  heap w' = <[id := OStream (Stream (survivors (on_error s)) (on_close s) (destroyed s))]> (heap w).
Proof.
  intros H Hne. unfold emit_error. rewrite H.
  destruct (on_error s) as [|r ls] eqn:E; [done|]. cbv zeta.
  set (w1 := record _ _).
  destruct (run_error_listeners_frame (r :: ls) w1) as (Hh&Ht&Hq&Hf&Hl&Hr&_&_&Hc).
  rewrite Hh, Ht, Hq, Hf, Hl, Hr, Hc. done.
Qed.

Lemma emit_error_thrown w id e s :
  stream_at w id = Some s → on_error s = [] →
  emit_error id e w = uncaught e (record (Thrown id) w).
Proof. intros H E. unfold emit_error. by rewrite H, E. Qed.

Lemma emit_error_view w id e j : id ≠ j → view (emit_error id e w) j = view w j.
Proof.
  intros Hne. destruct (stream_at w id) as [s|] eqn:H.
  - destruct (on_error s) as [|r ls] eqn:E.
    + rewrite (emit_error_thrown _ _ _ _ H E). apply view_heap.
      by destruct (uncaught_frame e (record (Thrown id) w)) as (->&_).
    + destruct (emit_error_observed w id e s H) as (_&_&_&_&_&_&Hh); [by rewrite E|].
      unfold view, stream_at. rewrite Hh. by rewrite list_lookup_insert_ne.
  - unfold emit_error. by rewrite H.
Qed.

Lemma emit_error_trace w id e :
  ∃ ext, trace (emit_error id e w) = trace w ++ ext ∧
         (ext = [] ∨ ext = [Delivered id] ∨ ext = [Thrown id]).
Proof.
  destruct (stream_at w id) as [s|] eqn:H.
  - destruct (on_error s) as [|r ls] eqn:E.
    + rewrite (emit_error_thrown _ _ _ _ H E).
      destruct (uncaught_frame e (record (Thrown id) w)) as (_&->&_).
      exists [Thrown id]. auto.
    + destruct (emit_error_observed w id e s H) as (?&_); [by rewrite E|].
      exists [Delivered id]. auto.
  - exists []. unfold emit_error. rewrite H, app_nil_r. auto.
Qed.

(** ** Traces in which every cancel is observed *)

(** Membership in an explicit list, by cases. *)
Ltac elem_inv :=
  repeat match goal with
         | H : _ ∈ [] |- _ => by inversion H
         | H : _ ∈ _ :: _ |- _ => inversion H; clear H; subst
         end; try done.

Lemma cancel_is_observed_app a b :
  cancel_is_observed a → cancel_is_observed b → cancel_is_observed (a ++ b).
Proof.
  intros Ha Hb i id n H.
  apply lookup_app_Some in H as [H|[Hle H]].
  - destruct (Ha _ _ _ H) as (Hn&j&->&Hj). split; [done|].
    exists j. split; [done|]. by apply lookup_app_l_Some.
  - destruct (Hb _ _ _ H) as (Hn&j&Hi&Hj). split; [done|].
    exists (length a + j)%nat. split; [lia|].
    rewrite lookup_app_r by lia. by replace (length a + j - length a)%nat with j by lia.
Qed.

Lemma cancel_is_observed_pair id n : cancel_is_observed [Attach id; Destroy id (S n)].
Proof.
  intros [|[|i]] id' n' Hi; cbn in Hi; simplify_eq.
  split; [lia|]. by exists 0%nat.
Qed.

Lemma cancel_is_observed_benign l :
  (∀ id n, Destroy id n ∉ l) → cancel_is_observed l.
Proof.
  intros H i id n Hi. exfalso. eapply H. by eapply list_elem_of_lookup_2.
Qed.

Lemma assign_fixed_spec val body w :
  assign_fixed val body w
  = (val, match displaces (has_pipe w) body val with
          | Some id => retire id w
          | None => w
          end).
Proof.
  unfold assign_fixed, displaces. destruct body as [| | |id]; try by case_bool_decide.
  cbn [is_truthy andb]. case_bool_decide; cbn [andb]; [|done].
  by destruct (has_pipe w (VRef id)).
Qed.

Lemma displaces_stream w body val id :
  displaces (has_pipe w) body val = Some id →
  body = VRef id ∧ body ≠ val ∧ ∃ s, stream_at w id = Some s.
Proof.
  unfold displaces. destruct body as [| | |j]; try done.
  case_bool_decide; cbn [andb]; [|done].
  cbn. destruct (stream_at w j) as [s|] eqn:E; [|done].
  intros Hd; simplify_eq. eauto.
Qed.

Lemma step_trace bw o :
  ∃ ext, trace (step bw o).2 = trace bw.2 ++ ext ∧ cancel_is_observed ext.
Proof.
  destruct bw as [body w]. destruct o as [v| |id e]; cbn [step fst snd].
  - rewrite assign_fixed_spec. cbn [snd].
    destruct (displaces (has_pipe w) body v) as [id|] eqn:E.
    + apply displaces_stream in E as (_&_&s&Hs).
      rewrite (retire_trace _ _ _ Hs). eexists. split; [done|].
      apply cancel_is_observed_pair.
    + exists []. rewrite app_nil_r. split; [done|]. by intros [|?] ???.
  - rewrite drain_ticks_trace. eexists. split; [done|].
    apply cancel_is_observed_benign. intros id n H.
    apply list_elem_of_fmap in H as (?&?&?). done.
  - destruct (emit_error_trace w id e) as (ext&->&Hext). exists ext. split; [done|].
    apply cancel_is_observed_benign. intros i n H.
    destruct Hext as [-> | [-> | ->]]; elem_inv.
Qed.

Lemma exec_trace os : ∀ bw,
  ∃ ext, trace (exec os bw).2 = trace bw.2 ++ ext ∧ cancel_is_observed ext.
Proof.
  induction os as [|o os IH]; intros bw; cbn.
  - exists []. rewrite app_nil_r. split; [done|]. by intros [|?] ???.
  - destruct (step_trace bw o) as (e1&H1&C1).
    destruct (IH (step bw o)) as (e2&H2&C2).
    exists (e1 ++ e2). unfold exec in H2. rewrite H2, H1, <- app_assoc. split; [done|].
    by apply cancel_is_observed_app.
Qed.

(** C2: whatever sequence of assignments, close events and stream errors
    is run, the calls it adds to the record are such that every [destroy]
    of a stream comes directly after the attachment of the error handler
    to that same stream, and at the moment of the [destroy] call the
    stream has at least one ['error'] listener.  Retiring a stream adds
    exactly these two calls, in this order. *)
Theorem retire_observes_before_cancel
    (os : list op) (bw : value * state) (id : nat) (w : state) :
  (∃ ext, trace (exec os bw).2 = trace bw.2 ++ ext ∧ cancel_is_observed ext) ∧
  (has_pipe w (VRef id) = true →
   trace (retire id w) = trace w ++ [Attach id; Destroy id (S (error_observers w id))]).
Proof.
  split; [apply exec_trace|].
  cbn. unfold error_observers. destruct (stream_at w id) as [s|] eqn:Hs; [|done].
  intros _. by apply retire_trace.
Qed.

Lemma retire_observes_before_cancel_witness :
  (∃ ext, trace (exec [Assign (VRef 0); Assign (VRef 1)] (VUndefined, two_streams)).2
          = trace (VUndefined, two_streams).2 ++ ext ∧ cancel_is_observed ext) ∧
  trace (retire 0 two_streams) = trace two_streams ++ [Attach 0; Destroy 0 1].
Proof.
  destruct (retire_observes_before_cancel
              [Assign (VRef 0); Assign (VRef 1)] (VUndefined, two_streams) 0 two_streams)
    as [H1 H2].
  split; [exact H1|]. apply H2. reflexivity.
Defined.

(** C4: assigning the value that [body] already holds changes nothing:
    the stream is neither given an error handler nor destroyed, and no
    close is queued. *)
Theorem assign_same_keeps_source (v : value) (w : state) :
  assign_fixed v v w = (v, w).
Proof.
  unfold assign_fixed. by rewrite bool_decide_eq_false_2 by (intros H; by apply H).
Qed.

(** Identity, not contents, decides: a second stream with the very same
    contents displaces the first. *)
Lemma assign_equal_contents_displaces w a b s :
  a ≠ b → stream_at w a = Some s → stream_at w b = Some s →
  assign_fixed (VRef b) (VRef a) w = (VRef b, retire a w).
Proof.
  intros Hne Ha Hb. rewrite assign_fixed_spec. unfold displaces.
  rewrite bool_decide_eq_true_2 by congruence. cbn. by rewrite Ha.
Qed.

(** ** Errors of displaced streams *)

Lemma retire_observers w id s a :
  stream_at w id = Some s →
  error_observers (retire id w) a
  = if bool_decide (id = a) then S (error_observers w a) else error_observers w a.
Proof.
  intros H. unfold error_observers. case_bool_decide as E.
  - subst a. rewrite (retire_stream_at_eq _ _ _ H), H. cbn.
    rewrite length_app. cbn. lia.
  - by rewrite retire_stream_at_ne.
Qed.

Lemma step_observers_mono bw o a :
  raises a o = false →
  (error_observers bw.2 a ≤ error_observers (step bw o).2 a)%nat.
Proof.
  destruct bw as [body w]. destruct o as [v| |id e]; cbn [step fst snd raises]; intros Hq.
  - rewrite assign_fixed_spec. cbn [snd].
    destruct (displaces (has_pipe w) body v) as [id|] eqn:E; [|done].
    apply displaces_stream in E as (_&_&s&Hs).
    rewrite (retire_observers _ _ _ _ Hs). case_bool_decide; lia.
  - by rewrite (error_observers_view _ _ _ (drain_ticks_view w a)).
  - apply bool_decide_eq_false in Hq.
    by rewrite (error_observers_view _ _ _ (emit_error_view w id e a Hq)).
Qed.

Lemma exec_observers_mono os a : ∀ bw,
  quiet a os = true →
  (error_observers bw.2 a ≤ error_observers (exec os bw).2 a)%nat.
Proof.
  induction os as [|o os IH]; intros bw Hq; cbn in *; [done|].
  apply andb_true_iff in Hq as [Ho Hq]. apply negb_true_iff in Ho.
  etrans; [by apply step_observers_mono|]. by apply IH.
Qed.

Lemma emit_error_absorbed w a e :
  (1 ≤ error_observers w a)%nat →
  let w' := emit_error a e w in
  trace w' = trace w ++ [Delivered a] ∧ fatal w' = fatal w ∧
  testResults w' = testResults w ∧ listeners w' = listeners w.
Proof.
  unfold error_observers. destruct (stream_at w a) as [s|] eqn:H; [|cbn; lia].
  intros Hn. destruct (emit_error_observed w a e s H) as (?&?&?&?&_); [|done].
  intros E. rewrite E in Hn. cbn in Hn. lia.
Qed.

(** C1 (as amended): once a stream has been displaced through the cleanup
    path of [testFixedBehavior], an error it raises later is delivered to
    the handler the cleanup installed and goes no further: nothing is
    thrown, the process keeps its state, no ['uncaughtException'] listener
    runs and the counters of [testResults] stay as they were.  This holds
    whatever assignments, close events and errors of other streams happen
    in between. *)
Theorem displaced_stream_error_is_absorbed
    (w : state) (a : nat) (val : value) (os : list op) (e : error) :
  has_pipe w (VRef a) = true → val ≠ VRef a → quiet a os = true →
  let w1 := (exec os (assign_fixed val (VRef a) w)).2 in
  let w2 := emit_error a e w1 in
  trace w2 = trace w1 ++ [Delivered a] ∧ fatal w2 = fatal w1 ∧
  testResults w2 = testResults w1 ∧ listeners w2 = listeners w1.
Proof.
  intros Hp Hne Hq w1 w2. apply emit_error_absorbed.
  etrans; [|by apply exec_observers_mono].
  rewrite assign_fixed_spec. unfold displaces.
  rewrite bool_decide_eq_true_2 by congruence. rewrite Hp. cbn [andb snd].
  cbn in Hp. destruct (stream_at w a) as [s|] eqn:Hs; [|done].
  rewrite (retire_observers _ _ _ _ Hs), bool_decide_eq_true_2 by done. lia.
Qed.

Lemma displaced_stream_error_is_absorbed_witness :
  let w1 := (exec [NextTick] (assign_fixed (VRef 1) (VRef 0) two_streams)).2 in
  let w2 := emit_error 0 (Error "Stream 1 failed") w1 in
  trace w2 = trace w1 ++ [Delivered 0%nat] ∧ fatal w2 = fatal w1 ∧
  testResults w2 = testResults w1 ∧ listeners w2 = listeners w1.
Proof.
  apply (displaced_stream_error_is_absorbed two_streams 0 (VRef 1) [NextTick]
           (Error "Stream 1 failed")).
  - reflexivity.
  - discriminate.
  - reflexivity.
Defined.

(** In [testBuggyBehavior] the first stream is displaced without cleanup:
    its error, 100 ms later, finds no listener and is thrown, reaches the
    ['uncaughtException'] handler and is counted as unhandled. *)
Lemma buggy_replacement_error_escapes :
  let w := run_until 300 (testBuggyBehavior initial) in
  trace w = [Thrown 0%nat; Thrown 1%nat] ∧
  unhandledErrors (buggy (testResults w)) = 1 ∧
  console w = [LogTesting Buggy; LogSetBody Buggy 1; LogSetBody Buggy 2;
               LogUnhandled "Stream 1 failed"].
Proof. vm_compute. done. Qed.

(** The same scenario through [testFixedBehavior]: the first stream is
    retired, closed once, and its error is absorbed. *)
Lemma fixed_replacement_run :
  let w := run_until 300 (testFixedBehavior initial) in
  trace w = [Attach 0%nat; Destroy 0%nat 1%nat; Closed 0%nat; Delivered 0%nat; Thrown 1%nat] ∧
  unhandledErrors (fixed (testResults w)) = 0 ∧
  streamsDestroyed (fixed (testResults w)) = 1.
Proof. vm_compute. done. Qed.

(** ** Retiring a stream again *)

Lemma count_where_app {A} (p : A → bool) (l1 l2 : list A) :
  count_where p (l1 ++ l2) = (count_where p l1 + count_where p l2)%nat.
Proof. unfold count_where. by rewrite List.filter_app, length_app. Qed.

Lemma retire_counts w id s :
  stream_at w id = Some s →
  attachments (retire id w) id = S (attachments w id) ∧
  retirements (retire id w) id = S (retirements w id) ∧
  closings (retire id w) id = closings w id.
Proof.
  intros H. unfold attachments, retirements, closings.
  rewrite (retire_trace _ _ _ H), !count_where_app.
  unfold count_where. cbn. rewrite !bool_decide_eq_true_2 by done.
  cbn. lia.
Qed.

(** C5 (as amended): retiring a stream that has already been retired is
    not a no-op.  The second call attaches one more error handler and
    calls [destroy] once more; only the stream's own [destroyed] flag
    makes that second [destroy] ineffective, so that no second close is
    queued and the stream closes at most once. *)
Theorem retire_again_attaches_again (w : state) (id : nat) :
  has_pipe w (VRef id) = true →
  let w1 := retire id w in
  let w2 := retire id w1 in
  error_observers w2 id = S (error_observers w1 id) ∧
  attachments w2 id = S (attachments w1 id) ∧
  retirements w2 id = S (retirements w1 id) ∧
  ticks w2 = ticks w1 ∧
  is_destroyed w1 id = true ∧ is_destroyed w2 id = true.
Proof.
  cbn. destruct (stream_at w id) as [s|] eqn:Hs; [|done]. intros _.
  pose proof (retire_stream_at_eq _ _ _ Hs) as H1.
  pose proof (retire_stream_at_eq _ _ _ H1) as H2.
  destruct (retire_counts _ _ _ H1) as (Ha&Hr&_).
  rewrite (retire_observers _ _ _ _ H1), bool_decide_eq_true_2 by done.
  rewrite (retire_ticks _ _ _ H1). unfold is_destroyed. rewrite H1, H2. done.
Qed.

Lemma retire_again_attaches_again_witness :
  let w1 := retire 0 one_stream in
  let w2 := retire 0 w1 in
  error_observers w2 0 = S (error_observers w1 0) ∧
  attachments w2 0 = S (attachments w1 0) ∧
  retirements w2 0 = S (retirements w1 0) ∧
  ticks w2 = ticks w1 ∧
  is_destroyed w1 0 = true ∧ is_destroyed w2 0 = true.
Proof. apply (retire_again_attaches_again one_stream 0). reflexivity. Defined.

(** Assigning stream 0, stream 1, stream 0 and stream 1 again retires
    stream 0 twice: two handlers are attached to it and [destroy] is
    called on it twice, so the second retirement differs from doing
    nothing. *)
Lemma second_retire_is_not_a_noop :
  let w := (assign_all [VRef 0; VRef 1; VRef 0; VRef 1] (VUndefined, two_streams)).2 in
  error_observers w 0 = 2%nat ∧ attachments w 0 = 2%nat ∧ retirements w 0 = 2%nat ∧
  retire 0 (retire 0 one_stream) ≠ retire 0 one_stream.
Proof. vm_compute. repeat split; try done. Qed.

(** ** Sequences of assignments *)

Lemma displaced_ext like like' vs : ∀ body,
  (∀ v, like v = like' v) → displaced like body vs = displaced like' body vs.
Proof.
  induction vs as [|v vs IH]; intros body H; cbn; [done|].
  assert (E : displaces like body v = displaces like' body v).
  { unfold displaces. destruct body; try done. by rewrite H. }
  rewrite E, (IH v H). done.
Qed.

Lemma occurrences_app id l1 l2 :
  occurrences id (l1 ++ l2) = (occurrences id l1 + occurrences id l2)%nat.
Proof. unfold occurrences. by rewrite filter_app, length_app. Qed.

Lemma occurrences_singleton id j :
  occurrences id [j] = if bool_decide (j = id) then 1%nat else 0%nat.
Proof.
  unfold occurrences. rewrite filter_cons, filter_nil.
  case_bool_decide; [by rewrite decide_True|by rewrite decide_False].
Qed.

Lemma retired_ids_app a b : retired_ids (a ++ b) = retired_ids a ++ retired_ids b.
Proof. unfold retired_ids. apply omap_app. Qed.

Lemma retire_is_destroyed w id s j :
  stream_at w id = Some s →
  is_destroyed (retire id w) j = bool_decide (id = j) || is_destroyed w j.
Proof.
  intros H. unfold is_destroyed. case_bool_decide as E.
  - subst j. by rewrite (retire_stream_at_eq _ _ _ H).
  - by rewrite retire_stream_at_ne.
Qed.

Lemma retire_occurrences w id s j :
  stream_at w id = Some s →
  occurrences j (ticks (retire id w))
  = (occurrences j (ticks w)
     + if negb (is_destroyed w id) && bool_decide (id = j) then 1 else 0)%nat.
Proof.
  intros H. rewrite (retire_ticks _ _ _ H). unfold is_destroyed. rewrite H.
  destruct (destroyed s); cbn [negb andb]; [lia|].
  by rewrite occurrences_app, occurrences_singleton.
Qed.

Lemma assign_all_cons v vs bw :
  assign_all (v :: vs) bw = assign_all vs (assign_fixed v bw.1 bw.2).
Proof. done. Qed.

(** What a sequence of assignments does to the streams. *)
Lemma assign_all_cleanup vs : ∀ body w,
  let D := displaced (has_pipe w) body vs in
  let w' := (assign_all vs (body, w)).2 in
  retired_ids (trace w') = retired_ids (trace w) ++ D ∧
  (∀ v, has_pipe w' v = has_pipe w v) ∧
  (∀ j, is_destroyed w' j = is_destroyed w j || bool_decide (j ∈ D)) ∧
  (∀ j, occurrences j (ticks w')
        = (occurrences j (ticks w)
           + if negb (is_destroyed w j) && bool_decide (j ∈ D) then 1 else 0)%nat) ∧
  (∀ j, closings w' j = closings w j).
Proof.
  induction vs as [|v vs IH]; intros body w; cbv zeta.
  - cbn. rewrite app_nil_r. repeat split; try done.
    + intros j. rewrite bool_decide_eq_false_2 by (by intros ?%elem_of_nil).
      by rewrite orb_false_r.
    + intros j. rewrite bool_decide_eq_false_2 by (by intros ?%elem_of_nil).
      rewrite andb_false_r. lia.
  - rewrite assign_all_cons. cbn [fst snd displaced]. rewrite assign_fixed_spec.
    destruct (displaces (has_pipe w) body v) as [id|] eqn:E.
    + apply displaces_stream in E as (_&_&s&Hs).
      destruct (IH v (retire id w)) as (Ht&Hp&Hd&Ho&Hc).
      rewrite (displaced_ext _ (has_pipe w)) in Ht, Hd, Ho
        by (intros; by eapply retire_has_pipe).
      set (D := displaced (has_pipe w) v vs) in *.
      repeat split.
      * rewrite Ht, (retire_trace _ _ _ Hs), retired_ids_app. cbn.
        by rewrite <- app_assoc.
      * intros x. by rewrite Hp, (retire_has_pipe _ _ _ _ Hs).
      * intros j. rewrite Hd, (retire_is_destroyed _ _ _ _ Hs).
        destruct (decide (id = j)) as [->|Hne].
        -- rewrite (bool_decide_eq_true_2 (j = j)) by done.
           rewrite (bool_decide_eq_true_2 (j ∈ j :: D)) by (rewrite elem_of_cons; by left).
           by rewrite orb_true_r.
        -- rewrite (bool_decide_eq_false_2 (id = j)) by done. cbn [orb]. f_equal.
           apply bool_decide_ext. rewrite elem_of_cons. intuition congruence.
      * intros j. rewrite Ho, (retire_occurrences _ _ _ _ Hs),
          (retire_is_destroyed _ _ _ _ Hs).
        destruct (decide (id = j)) as [->|Hne].
        -- rewrite (bool_decide_eq_true_2 (j = j)) by done. cbn [orb negb andb].
           rewrite (bool_decide_eq_true_2 (j ∈ j :: D)) by (rewrite elem_of_cons; by left).
           rewrite !andb_true_r. lia.
        -- rewrite (bool_decide_eq_false_2 (id = j)) by done. cbn [orb].
           rewrite andb_false_r, Nat.add_0_r.
           rewrite (bool_decide_ext (j ∈ id :: D) (j ∈ D)); [done|].
           rewrite elem_of_cons. intuition congruence.
      * intros j. rewrite Hc. by destruct (retire_counts _ _ _ Hs) as (_&_&?);
          unfold closings in *; rewrite (retire_trace _ _ _ Hs), count_where_app;
          cbn; lia.
    + apply IH.
Qed.

Lemma pristine_spec w :
  pristine w = true →
  ticks w = [] ∧ trace w = [] ∧ ∀ j, is_destroyed w j = false.
Proof.
  unfold pristine. intros H.
  apply andb_true_iff in H as [H Hh]. apply andb_true_iff in H as [Hq Ht].
  apply bool_decide_eq_true in Hq, Ht. repeat split; try done.
  intros j. unfold is_destroyed, stream_at.
  destruct (heap w !! j) as [[s|]|] eqn:E; try done.
  rewrite forallb_forall in Hh.
  apply list_elem_of_lookup_2, list_elem_of_In, Hh in E.
  by apply negb_true_iff in E.
Qed.

Lemma count_closed_fmap id l :
  count_where (is_closed_of id) (Closed <$> l) = occurrences id l.
Proof.
  unfold count_where, occurrences. induction l as [|i l IH]; [done|].
  cbn [fmap list_fmap List.filter is_closed_of]. rewrite filter_cons.
  case_bool_decide; [rewrite decide_True by done|rewrite decide_False by done];
    cbn; by rewrite IH.
Qed.

Lemma occurrences_filter (P : nat → Prop) `{∀ i, Decision (P i)} id l :
  P id → occurrences id (filter P l) = occurrences id l.
Proof.
  intros HP. unfold occurrences. induction l as [|i l IH]; [done|].
  rewrite !filter_cons. destruct (decide (P i)) as [Hi|Hi].
  - rewrite filter_cons. destruct (decide (i = id)); cbn; by rewrite IH.
  - rewrite decide_False by congruence. done.
Qed.

Lemma drain_ticks_closings w id :
  has_pipe w (VRef id) = true →
  closings (drain_ticks w) id = (closings w id + occurrences id (ticks w))%nat.
Proof.
  intros Hp. unfold closings. rewrite drain_ticks_trace, count_where_app.
  by rewrite count_closed_fmap, occurrences_filter.
Qed.

Lemma drain_ticks_retired w : retired_ids (trace (drain_ticks w)) = retired_ids (trace w).
Proof.
  rewrite drain_ticks_trace, retired_ids_app.
  assert (E : ∀ l, retired_ids (Closed <$> l) = []) by (by induction l).
  by rewrite E, app_nil_r.
Qed.

(** C3 (as amended): start from an empty body and streams that have not
    been destroyed, assign any sequence of values, and let the queued
    close events run.  The retire block has then run once for each
    assignment that displaced a stream by a different value, in that
    order; a stream that was displaced at least once is destroyed and has
    closed exactly once, however often it was retired; and a stream that
    was never displaced, such as the one still assigned at the end, is
    neither destroyed nor closed. *)
Theorem displaced_streams_close_once (vs : list value) (w : state) :
  pristine w = true →
  let D := displaced (has_pipe w) VUndefined vs in
  let w' := drain_ticks (assign_all vs (VUndefined, w)).2 in
  retired_ids (trace w') = D ∧
  ∀ id, has_pipe w (VRef id) = true →
        is_destroyed w' id = bool_decide (id ∈ D) ∧
        closings w' id = if bool_decide (id ∈ D) then 1%nat else 0%nat.
Proof.
  intros Hw D w'. apply pristine_spec in Hw as (Hq&Ht&Hd).
  destruct (assign_all_cleanup vs VUndefined w) as (Hr&Hp&Hdd&Ho&Hc).
  fold D in Hr, Hdd, Ho. split.
  - unfold w'. rewrite drain_ticks_retired, Hr, Ht. done.
  - intros id Hid. split.
    + unfold w'. rewrite (is_destroyed_view _ _ _ (drain_ticks_view _ id)).
      by rewrite Hdd, Hd.
    + unfold w'. rewrite drain_ticks_closings by (by rewrite Hp).
      rewrite Hc, Ho, Hd, Hq. unfold closings. rewrite Ht. cbn.
      by destruct (bool_decide (id ∈ D)).
Qed.

Lemma displaced_streams_close_once_witness :
  let vs := [VRef 0; VRef 1; VRef 0] in
  let D := displaced (has_pipe two_streams) VUndefined vs in
  let w' := drain_ticks (assign_all vs (VUndefined, two_streams)).2 in
  retired_ids (trace w') = D ∧
  ∀ id, has_pipe two_streams (VRef id) = true →
        is_destroyed w' id = bool_decide (id ∈ D) ∧
        closings w' id = if bool_decide (id ∈ D) then 1%nat else 0%nat.
Proof.
  apply (displaced_streams_close_once [VRef 0; VRef 1; VRef 0] two_streams).
  reflexivity.
Defined.

(** [testFixedBehavior] assigns two streams and retires one: the second
    stream, still assigned when the function returns, is never destroyed
    and never closes, and [streamsDestroyed] stays at 1.  This is so
    right after the call and its queued close events, and still so when
    the event loop has run to 300 ms. *)
Lemma fixed_run_leaves_current_stream :
  let w0 := drain_ticks (testFixedBehavior initial) in
  let w := run_until 300 (testFixedBehavior initial) in
  (fatal w0 = None ∧ retired_ids (trace w0) = [0%nat] ∧
   has_pipe w0 (VRef 1) = true ∧ is_destroyed w0 1 = false ∧ closings w0 1 = 0%nat) ∧
  (retired_ids (trace w) = [0%nat] ∧
   has_pipe w (VRef 1) = true ∧ is_destroyed w 1 = false ∧ closings w 1 = 0%nat ∧
   streamsDestroyed (fixed (testResults w)) = 1).
Proof. vm_compute. done. Qed.

End ReplaceFacts.

(* ===================================================================== *)
(** * Facts about the pipeline demo                                       *)
(* ===================================================================== *)

Module PipeFacts.
Import Pipe.

(** ** The callback *)

Lemma pipeline_callback_console i err w :
  console (pipeline_callback i err w)
  = console w
    ++ (match err with Some _ => [LogErrorAbortDetected i] | None => [] end)
    ++ [LogAfterCleanup i (activeConnections (patched (testResults w)) - 1)
                          (activeStreams (patched (testResults w)) - 1);
        LogCleanedUp i].
Proof. destruct err; cbn; by rewrite <- !app_assoc. Qed.

Lemma pipeline_callback_frame i err w :
  sessions (pipeline_callback i err w) = sessions w ∧
  original_timers (pipeline_callback i err w) = original_timers w ∧
  original (testResults (pipeline_callback i err w)) = original (testResults w) ∧
  fatal (pipeline_callback i err w) = fatal w.
Proof. by destruct err. Qed.

Lemma pipeline_callback_counts i err w j :
  reports (pipeline_callback i err w) j
  = (reports w j + if bool_decide (i = j) && bool_decide (is_Some err) then 1 else 0)%nat ∧
  cleanups (pipeline_callback i err w) j
  = (cleanups w j + if bool_decide (i = j) then 1 else 0)%nat.
Proof.
  unfold reports, cleanups. rewrite pipeline_callback_console, !List.filter_app, !length_app.
  destruct err as [f|]; cbn; case_bool_decide; cbn; try lia.
  all: try (rewrite bool_decide_eq_true_2 by eauto; cbn; lia).
Qed.

Lemma pipeline_callback_results i err w :
  testResults (pipeline_callback i err w)
  = TestResults (original (testResults w))
      (Stats (success (patched (testResults w))) (error (patched (testResults w)))
             (activeConnections (patched (testResults w)) - 1)
             (streamsCreated (patched (testResults w)))
             (activeStreams (patched (testResults w)) - 1)).
Proof. by destruct err. Qed.

(** ** What an event does *)

Lemma logs_frame (ls : list log_line) : ∀ w,
  testResults (foldl (λ w l, log l w) w ls) = testResults w ∧
  sessions (foldl (λ w l, log l w) w ls) = sessions w ∧
  original_timers (foldl (λ w l, log l w) w ls) = original_timers w ∧
  fatal (foldl (λ w l, log l w) w ls) = fatal w ∧
  console (foldl (λ w l, log l w) w ls) = console w ++ ls.
Proof.
  induction ls as [|l ls IH]; intros w; cbn [foldl].
  - by rewrite app_nil_r.
  - destruct (IH (log l w)) as (->&->&->&->&->). cbn. by rewrite <- app_assoc.
Qed.

Lemma finish_change i p err w s :
  sessions w !! i = Some s → is_open s = true →
  finish i p err w = apply_change i (Session p (written s) (disconnect_pending s)) [] (Some err) w.
Proof.
  intros Hs Ho. unfold finish, apply_change. rewrite Hs. unfold is_open in Ho.
  by destruct (phase_of s).
Qed.

Lemma finish_closed i p err w :
  (∀ s, sessions w !! i = Some s → is_open s = false) → finish i p err w = w.
Proof.
  intros H. unfold finish. destruct (sessions w !! i) as [s|] eqn:Hs; [|done].
  specialize (H s eq_refl). unfold is_open in H. by destruct (phase_of s).
Qed.

Lemma phase_at_Some w i p :
  phase_at w i = Some p ↔ ∃ s, sessions w !! i = Some s ∧ phase_of s = p.
Proof.
  unfold phase_at. destruct (sessions w !! i) as [s|]; cbn.
  - split; [intros [= <-]; by exists s|by intros (?&[= <-]&<-)].
  - split; [done|by intros (?&?&_)].
Qed.

(** Every event that is not a request or the timer of the original path
    leaves the server as it is, or throws, or changes one session. *)
Lemma handle_cases w e :
  match e with
  | CallOriginal | CallFixed | OriginalDisconnect => True
  | FixedDisconnect i | SourceChunk i _ | SourceEnd i | SourceError i _ =>
      handle w e = w ∨ handle w e = throw (InvalidState i) w ∨
      ∃ s s' ls cb, sessions w !! i = Some s ∧ change i s s' ls cb ∧
                    (cb = None ∨ is_source_event i e = true) ∧
                    handle w e = apply_change i s' ls cb w
  end.
Proof.
  destruct e as [| | |i|i c|i|i msg]; try done; cbn [handle].
  - unfold fixed_disconnect. destruct (sessions w !! i) as [s|] eqn:Hs; [|by left].
    destruct (disconnect_pending s) eqn:Hd; [|by left].
    right. right. exists s. do 3 eexists. split; [done|]. split; [by constructor|].
    split; [by left|done].
  - unfold enqueue. destruct (phase_at w i) as [p|] eqn:Hp; [|by left].
    apply phase_at_Some in Hp as (s&Hs&Hp).
    destruct p; try (right; by left).
    + right. right. exists s. do 3 eexists. split; [done|].
      split; [by apply (change_write i s c)|]. split; [by left|].
      unfold write. by rewrite Hs, Hp.
    + right. right. exists s. do 3 eexists. split; [done|].
      split; [apply (change_finish i s Aborted (Some PrematureClose) [LogCancelled i]);
              [unfold is_open; by rewrite Hp|cbn; eauto|by right]|].
      split; [right; cbn; by rewrite bool_decide_eq_true_2|].
      unfold finish, apply_change. cbn [sessions log foldl]. by rewrite Hs, Hp.
  - unfold close. destruct (phase_at w i) as [p|] eqn:Hp; [|by left].
    apply phase_at_Some in Hp as (s&Hs&Hp).
    assert (Ho : p = Draining ∨ p = Closing → is_open s = true)
      by (unfold is_open; rewrite Hp; by intros [->| ->]).
    destruct p; try (right; by left).
    + right. right. exists s. do 3 eexists. split; [done|].
      split; [apply (change_finish i s Completed None []); [auto|done|by left]|].
      split; [right; cbn; by rewrite bool_decide_eq_true_2|]. apply finish_change; auto.
    + right. right. exists s. do 3 eexists. split; [done|].
      split; [apply (change_finish i s Aborted (Some PrematureClose) []);
              [auto|cbn; eauto|by left]|].
      split; [right; cbn; by rewrite bool_decide_eq_true_2|]. apply finish_change; auto.
  - unfold fail. destruct (phase_at w i) as [p|] eqn:Hp; [|by left].
    apply phase_at_Some in Hp as (s&Hs&Hp).
    assert (Ho : p = Draining ∨ p = Closing → is_open s = true)
      by (unfold is_open; rewrite Hp; by intros [->| ->]).
    destruct p; try by left.
    + right. right. exists s. do 3 eexists. split; [done|].
      split; [apply (change_finish i s Errored (Some (SourceFailure msg)) []);
              [auto|cbn; eauto|by left]|].
      split; [right; cbn; by rewrite bool_decide_eq_true_2|]. apply finish_change; auto.
    + right. right. exists s. do 3 eexists. split; [done|].
      split; [apply (change_finish i s Aborted (Some PrematureClose) []);
              [auto|cbn; eauto|by left]|].
      split; [right; cbn; by rewrite bool_decide_eq_true_2|]. apply finish_change; auto.
Qed.

Lemma throw_frame x w :
  testResults (throw x w) = testResults w ∧ sessions (throw x w) = sessions w ∧
  original_timers (throw x w) = original_timers w ∧ console (throw x w) = console w.
Proof. unfold throw. by destruct (fatal w). Qed.

Lemma apply_change_frame i s' ls cb w :
  sessions (apply_change i s' ls cb w) = <[i := s']> (sessions w) ∧
  original_timers (apply_change i s' ls cb w) = original_timers w ∧
  original (testResults (apply_change i s' ls cb w)) = original (testResults w) ∧
  fatal (apply_change i s' ls cb w) = fatal w.
Proof.
  unfold apply_change. destruct (logs_frame ls w) as (Hr&Hs&Ht&Hf&_).
  destruct cb as [err|].
  - destruct (pipeline_callback_frame i err
      (with_sessions (<[i:=s']> (sessions w)) (foldl (λ w l, log l w) w ls))) as (->&->&->&->).
    cbn. by rewrite Hr, Ht, Hf.
  - cbn. by rewrite Hr, Ht, Hf.
Qed.

Lemma apply_change_patched i s' ls cb w :
  patched (testResults (apply_change i s' ls cb w))
  = match cb with
    | Some _ =>
        Stats (success (patched (testResults w))) (error (patched (testResults w)))
              (activeConnections (patched (testResults w)) - 1)
              (streamsCreated (patched (testResults w)))
              (activeStreams (patched (testResults w)) - 1)
    | None => patched (testResults w)
    end.
Proof.
  unfold apply_change. destruct (logs_frame ls w) as (Hr&_).
  destruct cb as [err|].
  - rewrite pipeline_callback_results. cbn. by rewrite Hr.
  - cbn. by rewrite Hr.
Qed.

Lemma change_lines i s s' ls cb j :
  change i s s' ls cb →
  List.filter (is_report j) ls = [] ∧ List.filter (is_cleanup j) ls = [].
Proof. intros [c H|H|p err ls' Ho He [->| ->]]; done. Qed.

Lemma apply_change_counts i s s' ls cb w j :
  change i s s' ls cb →
  reports (apply_change i s' ls cb w) j
  = (reports w j + match cb with
                   | Some (Some _) => if bool_decide (i = j) then 1 else 0
                   | _ => 0
                   end)%nat ∧
  cleanups (apply_change i s' ls cb w) j
  = (cleanups w j + match cb with
                    | Some _ => if bool_decide (i = j) then 1 else 0
                    | None => 0
                    end)%nat.
Proof.
  intros Hc. destruct (change_lines i s s' ls cb j Hc) as [Hr Hl].
  destruct (logs_frame ls w) as (_&_&_&_&Hcon).
  assert (R : reports (with_sessions (<[i:=s']> (sessions w)) (foldl (λ w l, log l w) w ls)) j
              = reports w j).
  { unfold reports. cbn [console with_sessions]. rewrite Hcon, List.filter_app, Hr.
    by rewrite app_nil_r. }
  assert (C : cleanups (with_sessions (<[i:=s']> (sessions w)) (foldl (λ w l, log l w) w ls)) j
              = cleanups w j).
  { unfold cleanups. cbn [console with_sessions]. rewrite Hcon, List.filter_app, Hl.
    by rewrite app_nil_r. }
  unfold apply_change. destruct cb as [err|].
  - destruct (pipeline_callback_counts i err
      (with_sessions (<[i:=s']> (sessions w)) (foldl (λ w l, log l w) w ls)) j) as [-> ->].
    rewrite R, C. split; [|done]. destruct err as [f|].
    + rewrite (bool_decide_eq_true_2 (is_Some (Some f))) by eauto. by rewrite andb_true_r.
    + rewrite (bool_decide_eq_false_2 (is_Some None)) by (by intros [? ?]).
      by rewrite andb_false_r.
  - rewrite R, C. lia.
Qed.

(** ** Every reachable state is consistent *)

Lemma change_consistent i s s' ls cb w :
  sessions w !! i = Some s → change i s s' ls cb →
  consistent w → consistent (apply_change i s' ls cb w).
Proof.
  intros Hs Hc Hw j. destruct (Hw j) as [Hcj Htj].
  destruct (apply_change_frame i s' ls cb w) as (Hss&_).
  destruct (apply_change_counts i s s' ls cb w j Hc) as [Hr Hl].
  unfold counts_ok, timer_ok. rewrite Hss, Hr, Hl.
  destruct (decide (i = j)) as [->|Hne].
  - rewrite list_lookup_insert_eq by (by eapply lookup_lt_Some).
    rewrite bool_decide_eq_true_2 by done.
    unfold counts_ok in Hcj. rewrite Hs in Hcj. specialize (Htj s Hs).
    destruct Hc as [c Hd|Hd|p err ls' Ho He Hls].
    + rewrite Hd in Hcj. cbn. split; [lia|]. intros s0 [= <-] _. cbn. by apply Htj.
    + split; [|intros s0 [= <-]; cbn; by destruct (phase_of s)].
      cbn. rewrite !Nat.add_0_r. by destruct (phase_of s).
    + split; [|intros s0 [= <-]; cbn; intros ->; done].
      unfold is_open in Ho.
      assert (reports w j = 0 ∧ cleanups w j = 0)%nat as [-> ->]
        by (by destruct (phase_of s)).
      cbn. destruct p, err; cbn in He; try done; try (by destruct He).
  - rewrite list_lookup_insert_ne by done. rewrite bool_decide_eq_false_2 by done.
    split; [|done].
    assert (E : ∀ n : nat, (n + match cb with
                                 | Some (Some _) => 0
                                 | _ => 0
                                 end = n)%nat) by (intros; destruct cb as [[?|]|]; lia).
    assert (E' : ∀ n : nat, (n + match cb with
                                  | Some _ => 0
                                  | None => 0
                                  end = n)%nat) by (intros; destruct cb; lia).
    rewrite E, E'. exact Hcj.
Qed.

Lemma throw_consistent x w : consistent w → consistent (throw x w).
Proof.
  intros Hw j. destruct (Hw j) as [Hc Ht]. unfold throw. by destruct (fatal w).
Qed.

Lemma log_counts_ok l w j :
  is_report j l = false → is_cleanup j l = false → counts_ok w j → counts_ok (log l w) j.
Proof.
  intros Hr Hc Hj. unfold counts_ok, reports, cleanups. cbn.
  rewrite !List.filter_app, !length_app. cbn. rewrite Hr, Hc. cbn. rewrite !Nat.add_0_r.
  exact Hj.
Qed.

Lemma initial_consistent : consistent initial.
Proof. intros i. split; [|by intros s H]. done. Qed.

Lemma handle_consistent w e : consistent w → consistent (handle w e).
Proof.
  intros H. pose proof (handle_cases w e) as Hcases.
  destruct e as [| | |i|i c|i|i msg];
    try (destruct Hcases as [->|[->|(s&s'&ls&cb&Hs&Hc&_&->)]];
         [done|by apply throw_consistent|by eapply change_consistent]).
  - intros j. destruct (H j) as [Hc Ht]. cbn [handle]. split; [|exact Ht].
    unfold simulateOriginalBehavior. cbn [snd]. by repeat apply log_counts_ok.
  - intros j. destruct (H j) as [Hc Ht]. cbn [handle].
    unfold simulateFixedBehavior. cbn [snd]. split.
    + apply log_counts_ok; [done..|].
      unfold counts_ok in *. cbn [sessions with_sessions with_patched log] in *.
      change (reports (with_sessions _ _) j) with (reports (log LogTestingFixed w) j).
      change (cleanups (with_sessions _ _) j) with (cleanups (log LogTestingFixed w) j).
      pose proof (log_counts_ok LogTestingFixed w j eq_refl eq_refl Hc) as Hl.
      unfold counts_ok in Hl. cbn [sessions log] in Hl.
      destruct (sessions w !! j) as [s|] eqn:Hs.
      * by rewrite (lookup_app_l_Some _ _ _ _ Hs).
      * apply lookup_ge_None in Hs. rewrite lookup_app_r by done.
        destruct (j - length (sessions w))%nat as [|k]; cbn; done.
    + unfold timer_ok in *. cbn [sessions with_sessions with_patched log] in *.
      intros s Hs Hp. apply lookup_app_Some in Hs as [Hs|[_ Hs]]; [by eapply Ht|].
      destruct (j - length (sessions w))%nat as [|k]; cbn in Hs; by simplify_eq.
  - intros j. destruct (H j) as [Hc Ht]. cbn [handle].
    destruct (original_timers w) as [|n]; [done|]. split; [|exact Ht].
    unfold original_disconnect. by repeat apply log_counts_ok.
Qed.

Lemma run_consistent es : ∀ w, consistent w → consistent (run es w).
Proof.
  induction es as [|e es IH]; intros w H; cbn; [done|].
  apply IH. by apply handle_consistent.
Qed.

(** ** Phases *)

Lemma apply_change_phase_at i s' ls cb w j :
  (i < length (sessions w))%nat →
  phase_at (apply_change i s' ls cb w) j
  = if decide (i = j) then Some (phase_of s') else phase_at w j.
Proof.
  intros Hi. destruct (apply_change_frame i s' ls cb w) as (Hss&_).
  unfold phase_at. rewrite Hss. destruct (decide (i = j)) as [->|Hne].
  - by rewrite list_lookup_insert_eq.
  - by rewrite list_lookup_insert_ne.
Qed.

Lemma apply_change_written_at i s' ls cb w j :
  (i < length (sessions w))%nat →
  written_at (apply_change i s' ls cb w) j
  = if decide (i = j) then Some (written s') else written_at w j.
Proof.
  intros Hi. destruct (apply_change_frame i s' ls cb w) as (Hss&_).
  unfold written_at. rewrite Hss. destruct (decide (i = j)) as [->|Hne].
  - by rewrite list_lookup_insert_eq.
  - by rewrite list_lookup_insert_ne.
Qed.

Lemma call_fixed_sessions w :
  sessions (handle w CallFixed) = sessions w ++ [Session Draining [] true].
Proof. done. Qed.

(** A final phase is kept whatever happens; a closing pipeline stays as it
    is until its source delivers. *)
Lemma handle_phase_keep w e i p :
  phase_at w i = Some p → p ≠ Draining → (p = Closing → is_source_event i e = false) →
  phase_at (handle w e) i = Some p ∧ written_at (handle w e) i = written_at w i.
Proof.
  intros Hp Hne Hsrc. pose proof (handle_cases w e) as Hcases.
  destruct e as [| | |k|k c|k|k msg];
    try (destruct Hcases as [->|[->|(s&s'&ls&cb&Hs&Hc&Hcb&->)]];
         [done
         |unfold phase_at, written_at; by destruct (throw_frame (InvalidState k) w) as (_&->&_)
         |]).
  1: done.
  1: { unfold phase_at, written_at in *. rewrite call_fixed_sessions.
       destruct (sessions w !! i) as [s|] eqn:Hs; [|done].
       by rewrite (lookup_app_l_Some _ _ _ _ Hs). }
  1: { cbn [handle]. by destruct (original_timers w). }
  all: rewrite apply_change_phase_at, apply_change_written_at by (by eapply lookup_lt_Some);
    destruct (decide (k = i)) as [->|Hki]; [|done];
    apply phase_at_Some in Hp as (s0&Hs0&Hp0); rewrite Hs in Hs0; injection Hs0 as <-;
    unfold written_at; rewrite Hs; cbn;
    destruct Hc as [c' Hd|Hd|p' err ls' Ho He Hls];
    [congruence
    |split; [|done]; cbn; rewrite Hp0; by destruct p
    |destruct Hcb as [?|Hcb]; [done|];
     unfold is_open in Ho; rewrite Hp0 in Ho; destruct p; try done;
     by rewrite Hsrc in Hcb].
Qed.

Lemma run_phase_keep es : ∀ w i p,
  phase_at w i = Some p → p ≠ Draining →
  (p = Closing → forallb (λ e, negb (is_source_event i e)) es = true) →
  phase_at (run es w) i = Some p ∧ written_at (run es w) i = written_at w i.
Proof.
  induction es as [|e es IH]; intros w i p Hp Hne Hsrc; cbn [run foldl]; [done|].
  assert (Hsrc' : p = Closing → is_source_event i e = false ∧
                                forallb (λ e, negb (is_source_event i e)) es = true).
  { intros Hc. specialize (Hsrc Hc). cbn in Hsrc. apply andb_prop in Hsrc as [H1 H2].
    split; [by apply negb_true_iff|done]. }
  destruct (handle_phase_keep w e i p Hp Hne) as [Hp1 Hw1];
    [intros Hc; by destruct (Hsrc' Hc)|].
  destruct (IH (handle w e) i p Hp1 Hne) as [Hp2 Hw2];
    [intros Hc; by destruct (Hsrc' Hc)|].
  unfold run in *. split; [done|]. by rewrite Hw2.
Qed.

Lemma consistent_counts w i p :
  consistent w → phase_at w i = Some p →
  reports w i = match p with Errored | Aborted => 1%nat | _ => 0%nat end ∧
  cleanups w i = match p with Draining | Closing => 0%nat | _ => 1%nat end.
Proof.
  intros H Hp. destruct (H i) as [Hc _]. unfold counts_ok, phase_at in *.
  destruct (sessions w !! i) as [s|]; [|done]. cbn in Hp. simplify_eq.
  by destruct (phase_of s).
Qed.

(** The callback of a pipeline that is still open runs when the pipeline
    is through. *)
Lemma finish_open i p err w q :
  phase_at w i = Some q → q = Draining ∨ q = Closing →
  phase_at (finish i p err w) i = Some p ∧
  written_at (finish i p err w) i = written_at w i ∧
  testResults (finish i p err w)
  = TestResults (original (testResults w))
      (Stats (success (patched (testResults w))) (error (patched (testResults w)))
             (activeConnections (patched (testResults w)) - 1)
             (streamsCreated (patched (testResults w)))
             (activeStreams (patched (testResults w)) - 1)).
Proof.
  intros Hq Ho. apply phase_at_Some in Hq as (s&Hs&Hq).
  rewrite (finish_change i p err w s Hs) by (unfold is_open; rewrite Hq; by destruct Ho as [->| ->]).
  rewrite apply_change_phase_at, apply_change_written_at by (by eapply lookup_lt_Some).
  rewrite !decide_True by done. unfold written_at. rewrite Hs. cbn [phase_of written].
  repeat split; try done. unfold apply_change. by rewrite pipeline_callback_results.
Qed.

(** C6: when the source of a session that is still draining raises an
    error, the pipeline callback takes its error branch exactly once and
    runs its cleanup exactly once, whatever happens afterwards, and the
    stream counters go down by one; when the source ends normally the
    cleanup also runs exactly once, and the error branch is never taken.
    Every session of the demo has its own source and destination and is
    never superseded by another one. *)
Theorem active_source_error_reported_once
    (es1 es2 : list event) (i : nat) (msg : string) :
  let w := run es1 initial in
  phase_at w i = Some Draining →
  let we := run es2 (handle w (SourceError i msg)) in
  let wc := run es2 (handle w (SourceEnd i)) in
  (phase_at we i = Some Errored ∧ reports we i = 1%nat ∧ cleanups we i = 1%nat) ∧
  (phase_at wc i = Some Completed ∧ reports wc i = 0%nat ∧ cleanups wc i = 1%nat) ∧
  activeStreams (patched (testResults (handle w (SourceError i msg))))
  = activeStreams (patched (testResults w)) - 1.
Proof.
  intros w Hd we wc.
  assert (Hw : consistent w) by (apply run_consistent, initial_consistent).
  assert (Hfe : handle w (SourceError i msg) = finish i Errored (Some (SourceFailure msg)) w)
    by (cbn [handle]; unfold fail; by rewrite Hd).
  assert (Hfc : handle w (SourceEnd i) = finish i Completed None w)
    by (cbn [handle]; unfold close; by rewrite Hd).
  destruct (finish_open i Errored (Some (SourceFailure msg)) w Draining Hd) as (He0&_&Hre);
    [by left|].
  destruct (finish_open i Completed None w Draining Hd) as (Hc0&_&_); [by left|].
  assert (He : phase_at we i = Some Errored).
  { apply run_phase_keep; [by rewrite Hfe|done..]. }
  assert (Hc : phase_at wc i = Some Completed).
  { apply run_phase_keep; [by rewrite Hfc|done..]. }
  assert (Hwe : consistent we) by (by apply run_consistent, handle_consistent).
  assert (Hwc : consistent wc) by (by apply run_consistent, handle_consistent).
  destruct (consistent_counts _ _ _ Hwe He). destruct (consistent_counts _ _ _ Hwc Hc).
  repeat split; try done.
  by rewrite Hfe, Hre.
Qed.

Lemma active_source_error_reported_once_witness :
  let w := run [CallFixed; SourceChunk 0 "data chunk 0"] initial in
  let we := run [CallFixed; SourceError 0 "late"] (handle w (SourceError 0 "boom")) in
  let wc := run [CallFixed; SourceError 0 "late"] (handle w (SourceEnd 0)) in
  (phase_at we 0 = Some Errored ∧ reports we 0 = 1%nat ∧ cleanups we 0 = 1%nat) ∧
  (phase_at wc 0 = Some Completed ∧ reports wc 0 = 0%nat ∧ cleanups wc 0 = 1%nat) ∧
  activeStreams (patched (testResults (handle w (SourceError 0 "boom"))))
  = activeStreams (patched (testResults w)) - 1.
Proof.
  apply (active_source_error_reported_once
           [CallFixed; SourceChunk 0 "data chunk 0"] [CallFixed; SourceError 0 "late"] 0 "boom").
  reflexivity.
Defined.

(** ** Client disconnect *)

Lemma draining_session w i :
  consistent w → phase_at w i = Some Draining →
  ∃ s, sessions w !! i = Some s ∧ phase_of s = Draining ∧ disconnect_pending s = true.
Proof.
  intros Hw Hd. destruct (Hw i) as [_ Ht]. apply phase_at_Some in Hd as (s&Hs&Hp).
  exists s. repeat split; try done. by apply (Ht s Hs).
Qed.

Lemma fixed_disconnect_draining w i s :
  sessions w !! i = Some s → phase_of s = Draining → disconnect_pending s = true →
  fixed_disconnect i w
  = apply_change i (Session Closing (written s) false) [LogFixedDisconnected i] None w.
Proof. intros Hs Hp Hd. unfold fixed_disconnect, apply_change. by rewrite Hs, Hd, Hp. Qed.

Lemma apply_change_results i s' ls w :
  testResults (apply_change i s' ls None w) = testResults w.
Proof. unfold apply_change. cbn. by destruct (logs_frame ls w) as (->&_). Qed.

(** What the destruction of [mockRes] does to a draining pipeline, and
    what the next chunk of its source does then. *)
Lemma disconnect_then_chunk w i c :
  consistent w → phase_at w i = Some Draining →
  let wa := handle w (FixedDisconnect i) in
  let wb := handle wa (SourceChunk i c) in
  (phase_at wa i = Some Closing ∧ written_at wa i = written_at w i ∧
   testResults wa = testResults w ∧ console wa = console w ++ [LogFixedDisconnected i]) ∧
  (phase_at wb i = Some Aborted ∧ written_at wb i = written_at w i ∧
   testResults wb
   = TestResults (original (testResults w))
       (Stats (success (patched (testResults w))) (error (patched (testResults w)))
              (activeConnections (patched (testResults w)) - 1)
              (streamsCreated (patched (testResults w)))
              (activeStreams (patched (testResults w)) - 1))).
Proof.
  intros Hw Hd wa wb. destruct (draining_session w i Hw Hd) as (s&Hs&Hp&Ht).
  assert (Ha : wa = apply_change i (Session Closing (written s) false)
                      [LogFixedDisconnected i] None w)
    by (by apply fixed_disconnect_draining).
  assert (Hpa : phase_at wa i = Some Closing).
  { rewrite Ha, apply_change_phase_at by (by eapply lookup_lt_Some). by rewrite decide_True. }
  assert (Hwa : written_at wa i = written_at w i).
  { rewrite Ha, apply_change_written_at by (by eapply lookup_lt_Some).
    rewrite decide_True by done. unfold written_at. by rewrite Hs. }
  assert (Hra : testResults wa = testResults w) by (by rewrite Ha, apply_change_results).
  split.
  - repeat split; try done. rewrite Ha. unfold apply_change. cbn. done.
  - assert (Hb : wb = finish i Aborted (Some PrematureClose) (log (LogCancelled i) wa))
      by (unfold wb; cbn [handle]; unfold enqueue; by rewrite Hpa).
    destruct (finish_open i Aborted (Some PrematureClose) (log (LogCancelled i) wa) Closing)
      as (H1&H2&H3); [exact Hpa|by right|].
    rewrite Hb, H1, H2, H3. cbn [testResults log]. rewrite Hra.
    repeat split; try done.
Qed.




(** ** The two entries do not touch each other *)

Lemma handle_original_frame w e :
  is_original_event e = true →
  patched (testResults (handle w e)) = patched (testResults w) ∧
  sessions (handle w e) = sessions w.
Proof.
  destruct e; try done; intros _; cbn [handle].
  by destruct (original_timers w).
Qed.

Lemma handle_patched_frame w e :
  is_original_event e = false →
  original (testResults (handle w e)) = original (testResults w) ∧
  original_timers (handle w e) = original_timers w.
Proof.
  intros He. pose proof (handle_cases w e) as Hcases.
  destruct e as [| | |i|i c|i|i msg]; try done;
    destruct Hcases as [->|[->|(s&s'&ls&cb&Hs&Hc&_&->)]]; try done.
  all: try (by destruct (throw_frame (InvalidState i) w) as (->&_&->&_)).
  all: by destruct (apply_change_frame i s' ls cb w) as (_&->&->&_).
Qed.

(** ** The leak of the original path *)

Lemma handle_original_stats w e :
  streamsCreated (original (testResults (handle w e)))
  = streamsCreated (original (testResults w)) + (if is_call_original e then 1 else 0) ∧
  activeStreams (original (testResults (handle w e)))
  = activeStreams (original (testResults w)) + (if is_call_original e then 1 else 0).
Proof.
  destruct (is_original_event e) eqn:He.
  - destruct e; try discriminate He; cbn [handle is_call_original].
    + cbn. lia.
    + destruct (original_timers w); cbn; lia.
  - destruct (handle_patched_frame w e He) as [-> _]. destruct e; try done; cbn; lia.
Qed.

(** C10: every call of [simulateOriginalBehavior] increments
    [streamsCreated], [activeConnections] and [activeStreams] of the
    original entry by one; no event of the server ever lowers
    [activeStreams] of that entry; and after any run of the server both
    [activeStreams] and [streamsCreated] equal the number of calls of
    [simulateOriginalBehavior] made so far. *)
Theorem original_path_leaks_every_stream (es : list event) (w : state) (e : event) :
  (let w' := (simulateOriginalBehavior w).2 in
   streamsCreated (original (testResults w')) = streamsCreated (original (testResults w)) + 1 ∧
   activeConnections (original (testResults w')) = activeConnections (original (testResults w)) + 1 ∧
   activeStreams (original (testResults w')) = activeStreams (original (testResults w)) + 1) ∧
  activeStreams (original (testResults w)) ≤ activeStreams (original (testResults (handle w e))) ∧
  activeStreams (original (testResults (run es initial))) = Z.of_nat (calls_original es) ∧
  streamsCreated (original (testResults (run es initial))) = Z.of_nat (calls_original es).
Proof.
  split; [done|]. split.
  - destruct (handle_original_stats w e) as [_ ->]. destruct (is_call_original e); lia.
  - assert (G : ∀ es w,
        activeStreams (original (testResults (run es w)))
        = activeStreams (original (testResults w)) + Z.of_nat (calls_original es) ∧
        streamsCreated (original (testResults (run es w)))
        = streamsCreated (original (testResults w)) + Z.of_nat (calls_original es)).
    { clear. induction es as [|e es IH]; intros w; cbn [run foldl].
      - cbn. lia.
      - destruct (IH (handle w e)) as [Ha Hc]. unfold run in Ha, Hc. rewrite Ha, Hc.
        destruct (handle_original_stats w e) as [-> ->].
        unfold calls_original. cbn [List.filter]. destruct (is_call_original e); cbn [length]; lia. }
    destruct (G es initial) as [-> ->]. cbn. lia.
Qed.

End PipeFacts.

(* ===================================================================== *)
(** * The [success] field of the results                                  *)
(* ===================================================================== *)

(** C9: the [success] field of the object returned by an operation
    depends on the operation alone.  [simulateOriginalBehavior] and the
    resolver of [testBuggyBehavior] give [false], [simulateFixedBehavior]
    and the resolver of [testFixedBehavior] give [true], whatever the
    state of the counters is when the object is built.  Each test
    schedules its own resolver 300 ms after the call, and the value the
    promise is resolved with is the object that this resolver builds. *)
Theorem success_depends_on_operation_only
    (wp : Pipe.state) (wr : Replace.state) (v : Replace.variant) :
  Pipe.success (Pipe.simulateOriginalBehavior wp).1 = false ∧
  Pipe.success (Pipe.simulateFixedBehavior wp).1 = true ∧
  Replace.success (Replace.resolve_value Replace.Buggy wr) = false ∧
  Replace.success (Replace.resolve_value Replace.Fixed wr) = true ∧
  (∃ t, last (Replace.timers (Replace.testBuggyBehavior wr))
        = Some (Replace.Timer (t + 300) (Replace.Resolve Replace.Buggy))) ∧
  (∃ t, last (Replace.timers (Replace.testFixedBehavior wr))
        = Some (Replace.Timer (t + 300) (Replace.Resolve Replace.Fixed))) ∧
  Replace.resolved (Replace.run_callback (Replace.Resolve v) wr)
  = Replace.resolved wr ++ [Replace.resolve_value v wr].
Proof.
  repeat split.
  - unfold Replace.testBuggyBehavior. cbn [Replace.createFailingStream Replace.new_readable
      Replace.assign_buggy Replace.once_uncaught].
    unfold Replace.setTimeout at 1. cbn [Replace.timers Replace.with_timers].
    eexists. by rewrite last_snoc.
  - unfold Replace.testFixedBehavior. cbn [Replace.createFailingStream Replace.new_readable].
    destruct (Replace.assign_fixed _ _ _) as [body w].
    unfold Replace.setTimeout. cbn [Replace.timers Replace.with_timers].
    eexists. by rewrite last_snoc.
Qed.

(* ===================================================================== *)
(** * More about the stream replacement demo                              *)
(* ===================================================================== *)

Module ReplaceMore.
Import Replace ReplaceFacts.

Lemma lookup_snoc2_0 {A} (l : list A) a b : (l ++ [a; b]) !! length l = Some a.
Proof. by rewrite lookup_app_r, Nat.sub_diag. Qed.

Lemma lookup_snoc2_1 {A} (l : list A) a b : (l ++ [a; b]) !! S (length l) = Some b.
Proof. rewrite lookup_app_r by lia. by replace (S (length l) - length l)%nat with 1%nat by lia. Qed.

Lemma insert_snoc2_0 {A} (l : list A) a b x : <[length l := x]> (l ++ [a; b]) = l ++ [x; b].
Proof. rewrite insert_app_r_alt by lia. by rewrite Nat.sub_diag. Qed.

Lemma insert_snoc2_1 {A} (l : list A) a b x : <[S (length l) := x]> (l ++ [a; b]) = l ++ [a; x].
Proof. rewrite insert_app_r_alt by lia. by replace (S (length l) - length l)%nat with 1%nat by lia. Qed.

Section state_steps.
Context (h : list object) (r : test_results) (q : list nat) (ts : list timer) (t : nat)
  (ls : list (registration process_listener)) (nc : nat) (f : option error)
  (c : list log_line) (tr : list event) (rs : list result).

Lemma log_state (l : log_line) :
  log l (State h r q ts t ls nc f c tr rs) = State h r q ts t ls nc f (c ++ [l]) tr rs.
Proof. reflexivity. Qed.

Lemma setTimeout_state (cb : callback) (d : nat) :
  setTimeout cb d (State h r q ts t ls nc f c tr rs)
  = State h r q (ts ++ [Timer (t + d) cb]) t ls nc f c tr rs.
Proof. reflexivity. Qed.

Lemma once_uncaught_state :
  once_uncaught (State h r q ts t ls nc f c tr rs)
  = (nc, State h r q ts t (ls ++ [Registration (ErrorHandler nc) true]) (S nc) f c tr rs).
Proof. reflexivity. Qed.

Lemma createFailingStream_state (name : string) :
  createFailingStream name (State h r q ts t ls nc f c tr rs)
  = (length h,
     State (h ++ [OStream (Stream [] [] false)]) r q
       (ts ++ [Timer (t + 100) (EmitError (length h) name)]) t ls nc f c tr rs).
Proof. reflexivity. Qed.

Lemma on_close_add_state (id : nat) (s : stream) (l : close_listener) :
  h !! id = Some (OStream s) →
  on_close_add id l (State h r q ts t ls nc f c tr rs)
  = State (<[id := OStream (Stream (on_error s) (on_close s ++ [Registration l false])
                              (destroyed s))]> h) r q ts t ls nc f c tr rs.
Proof. intros H. unfold on_close_add, stream_at. cbn [heap]. by rewrite H. Qed.

Lemma once_error_state (id : nat) (s : stream) (l : error_listener) :
  h !! id = Some (OStream s) →
  once_error id l (State h r q ts t ls nc f c tr rs)
  = State (<[id := OStream (Stream (on_error s ++ [Registration l true]) (on_close s)
                              (destroyed s))]> h) r q ts t ls nc f c (tr ++ [Attach id]) rs.
Proof. intros H. unfold once_error, stream_at. cbn [heap]. by rewrite H. Qed.

Lemma destroy_state (id : nat) (oe : list (registration error_listener))
    (oc : list (registration close_listener)) :
  h !! id = Some (OStream (Stream oe oc false)) →
  destroy id (State h r q ts t ls nc f c tr rs)
  = State (<[id := OStream (Stream oe oc true)]> h) r (q ++ [id]) ts t ls nc f c
      (tr ++ [Destroy id (length oe)]) rs.
Proof. intros H. unfold destroy, stream_at. cbn [heap]. by rewrite H. Qed.

Lemma drain_ticks_none :
  drain_ticks (State h r [] ts t ls nc f c tr rs) = State h r [] ts t ls nc f c tr rs.
Proof. reflexivity. Qed.

Lemma drain_ticks_one (id : nat) :
  drain_ticks (State h r [id] ts t ls nc f c tr rs)
  = emit_close (State h r [] ts t ls nc f c tr rs) id.
Proof. reflexivity. Qed.

Lemma run_close_listener_state (v : variant) (k : nat) (b : bool) :
  run_close_listener (State h r q ts t ls nc f c tr rs) (Registration (CloseCounter v k) b)
  = State h (set_entry v (bump_destroyed (entry v r)) r) q ts t ls nc f
      (c ++ [LogDestroyed v k]) tr rs.
Proof. reflexivity. Qed.

Lemma run_error_listener_state (b : bool) :
  run_error_listener (State h r q ts t ls nc f c tr rs) (Registration ErrorNoop b)
  = State h r q ts t ls nc f (c ++ [LogErrorCaught]) tr rs.
Proof. reflexivity. Qed.

Lemma emit_close_state (id : nat) (s : stream) :
  h !! id = Some (OStream s) →
  emit_close (State h r q ts t ls nc f c tr rs) id
  = foldl run_close_listener
      (State (<[id := OStream (Stream (on_error s) (survivors (on_close s)) (destroyed s))]> h)
         r q ts t ls nc f c (tr ++ [Closed id]) rs)
      (on_close s).
Proof. intros H. unfold emit_close, stream_at. cbn [heap]. by rewrite H. Qed.

Lemma emit_error_delivered (id : nat) (l : registration error_listener)
    (oe : list (registration error_listener)) (oc : list (registration close_listener))
    (d : bool) (e : error) :
  h !! id = Some (OStream (Stream (l :: oe) oc d)) →
  emit_error id e (State h r q ts t ls nc f c tr rs)
  = foldl run_error_listener
      (State (<[id := OStream (Stream (survivors (l :: oe)) oc d)]> h)
         r q ts t ls nc f c (tr ++ [Delivered id]) rs)
      (l :: oe).
Proof. intros H. unfold emit_error, stream_at. cbn [heap]. by rewrite H. Qed.

Lemma emit_error_thrown_state (id : nat) (oc : list (registration close_listener))
    (d : bool) (e : error) :
  h !! id = Some (OStream (Stream [] oc d)) →
  emit_error id e (State h r q ts t ls nc f c tr rs)
  = uncaught e (State h r q ts t ls nc f c (tr ++ [Thrown id]) rs).
Proof. intros H. unfold emit_error, stream_at. cbn [heap]. by rewrite H. Qed.
End state_steps.

Lemma uncaught_no_listener h r q ts t nc f c tr rs (e : error) :
  uncaught e (State h r q ts t [] nc f c tr rs) = State h r q ts t [] nc (Some e) c tr rs.
Proof. reflexivity. Qed.

Lemma uncaught_single h r q ts t k nc f c tr rs (e : error) :
  uncaught e (State h r q ts t [Registration (ErrorHandler k) true] nc f c tr rs)
  = if includes (message e) "Stream 1 failed"
    then State h (set_entry Buggy (Counters (unhandledErrors (buggy r) + 1)
                                     (streamsDestroyed (buggy r)) true) r)
           q ts t [] nc f (c ++ [LogUnhandled (message e)]) tr rs
    else State h r q ts t [] nc f c tr rs.
Proof.
  unfold uncaught. cbn [listeners foldl]. unfold run_process_listener. cbn [handler].
  by destruct (includes (message e) "Stream 1 failed").
Qed.

Section two_streams.
Context (h : list object) (r : test_results) (q : list nat) (ts : list timer) (t : nat)
  (ls : list (registration process_listener)) (nc : nat) (f : option error)
  (c : list log_line) (tr : list event) (rs : list result).

Lemma two_streams_created (a b : string) :
  (let '(stream1, w) := createFailingStream a (State h r q ts t ls nc f c tr rs) in
   let '(stream2, w) := createFailingStream b w in (stream1, stream2, w))
  = (length h, S (length h),
     State (h ++ [OStream (Stream [] [] false); OStream (Stream [] [] false)]) r q
       (ts ++ [Timer (t + 100) (EmitError (length h) a);
               Timer (t + 100) (EmitError (S (length h)) b)])
       t ls nc f c tr rs).
Proof.
  rewrite createFailingStream_state, createFailingStream_state.
  by rewrite length_app, Nat.add_1_r, <- !app_assoc.
Qed.

Lemma on_close_add_first (s s' : stream) (l : close_listener) :
  on_close_add (length h) l (State (h ++ [OStream s; OStream s']) r q ts t ls nc f c tr rs)
  = State (h ++ [OStream (Stream (on_error s) (on_close s ++ [Registration l false]) (destroyed s));
                 OStream s']) r q ts t ls nc f c tr rs.
Proof.
  rewrite (on_close_add_state _ _ _ _ _ _ _ _ _ _ _ _ s) by apply lookup_snoc2_0.
  by rewrite insert_snoc2_0.
Qed.

Lemma on_close_add_second (s s' : stream) (l : close_listener) :
  on_close_add (S (length h)) l (State (h ++ [OStream s; OStream s']) r q ts t ls nc f c tr rs)
  = State (h ++ [OStream s;
                 OStream (Stream (on_error s') (on_close s' ++ [Registration l false]) (destroyed s'))])
      r q ts t ls nc f c tr rs.
Proof.
  rewrite (on_close_add_state _ _ _ _ _ _ _ _ _ _ _ _ s') by apply lookup_snoc2_1.
  by rewrite insert_snoc2_1.
Qed.

Lemma retire_first (oc : list (registration close_listener)) (s' : stream) :
  retire (length h) (State (h ++ [OStream (Stream [] oc false); OStream s']) r q ts t ls nc f c tr rs)
  = State (h ++ [OStream (Stream [Registration ErrorNoop true] oc true); OStream s']) r
      (q ++ [length h]) ts t ls nc f (c ++ [LogCleaningUp])
      (tr ++ [Attach (length h); Destroy (length h) 1]) rs.
Proof.
  unfold retire. rewrite log_state.
  rewrite (once_error_state _ _ _ _ _ _ _ _ _ _ _ _ (Stream [] oc false))
    by apply lookup_snoc2_0.
  rewrite insert_snoc2_0. cbn [on_error on_close destroyed app].
  rewrite (destroy_state _ _ _ _ _ _ _ _ _ _ _ _ [Registration ErrorNoop true] oc)
    by apply lookup_snoc2_0.
  by rewrite insert_snoc2_0, <- app_assoc.
Qed.

Lemma replace_first_by_second (oc : list (registration close_listener)) (s' : stream) :
  assign_fixed (VRef (S (length h))) (VRef (length h))
    (State (h ++ [OStream (Stream [] oc false); OStream s']) r q ts t ls nc f c tr rs)
  = (VRef (S (length h)),
     State (h ++ [OStream (Stream [Registration ErrorNoop true] oc true); OStream s']) r
       (q ++ [length h]) ts t ls nc f (c ++ [LogCleaningUp])
       (tr ++ [Attach (length h); Destroy (length h) 1]) rs).
Proof.
  unfold assign_fixed. rewrite bool_decide_eq_true_2 by (intros [=]; lia).
  rewrite retire_first.
  unfold has_pipe, is_truthy, stream_at. cbn [heap].
  by rewrite lookup_snoc2_0.
Qed.
End two_streams.

Lemma testFixedBehavior_unfold w :
  let n := length (heap w) in
  testFixedBehavior w
  = State
      (heap w ++ [OStream (Stream [Registration ErrorNoop true]
                                  [Registration (CloseCounter Fixed 1) false] true);
                  OStream (Stream [] [Registration (CloseCounter Fixed 2) false] false)])
      (set_entry Fixed fresh_counters (testResults w))
      (ticks w ++ [n])
      (timers w ++ [Timer (now w + 100) (EmitError n "1");
                    Timer (now w + 100) (EmitError (S n) "2");
                    Timer (now w + 300) (Resolve Fixed)])
      (now w) (listeners w) (next_closure w) (fatal w)
      (console w ++ [LogTesting Fixed; LogSetBody Fixed 1; LogCleaningUp; LogSetBody Fixed 2])
      (trace w ++ [Attach n; Destroy n 1])
      (resolved w).
Proof.
  destruct w as [h r q ts t ls nc f c tr rs]. cbv zeta.
  unfold testFixedBehavior.
  pose proof (two_streams_created h (set_entry Fixed fresh_counters r) q ts t ls nc f
                (c ++ [LogTesting Fixed]) tr rs "1" "2") as E.
  change (reset Fixed (log (LogTesting Fixed) (State h r q ts t ls nc f c tr rs)))
    with (State h (set_entry Fixed fresh_counters r) q ts t ls nc f (c ++ [LogTesting Fixed]) tr rs).
  destruct (createFailingStream "1" _) as [i1 w1].
  destruct (createFailingStream "2" w1) as [i2 w2].
  injection E as -> -> ->.
  rewrite on_close_add_first, on_close_add_second.
  rewrite log_state. cbn [on_error on_close destroyed app].
  rewrite replace_first_by_second, log_state, setTimeout_state.
  by rewrite <- !app_assoc.
Qed.

Lemma testBuggyBehavior_unfold w :
  let n := length (heap w) in
  testBuggyBehavior w
  = State
      (heap w ++ [OStream (Stream [] [Registration (CloseCounter Buggy 1) false] false);
                  OStream (Stream [] [Registration (CloseCounter Buggy 2) false] false)])
      (set_entry Buggy fresh_counters (testResults w))
      (ticks w)
      (timers w ++ [Timer (now w + 100) (EmitError n "1");
                    Timer (now w + 100) (EmitError (S n) "2");
                    Timer (now w + 500) (RemoveErrorHandler (next_closure w));
                    Timer (now w + 300) (Resolve Buggy)])
      (now w)
      (listeners w ++ [Registration (ErrorHandler (next_closure w)) true])
      (S (next_closure w)) (fatal w)
      (console w ++ [LogTesting Buggy; LogSetBody Buggy 1; LogSetBody Buggy 2])
      (trace w)
      (resolved w).
Proof.
  destruct w as [h r q ts t ls nc f c tr rs]. cbv zeta.
  unfold testBuggyBehavior.
  pose proof (two_streams_created h (set_entry Buggy fresh_counters r) q ts t ls nc f
                (c ++ [LogTesting Buggy]) tr rs "1" "2") as E.
  change (reset Buggy (log (LogTesting Buggy) (State h r q ts t ls nc f c tr rs)))
    with (State h (set_entry Buggy fresh_counters r) q ts t ls nc f (c ++ [LogTesting Buggy]) tr rs).
  destruct (createFailingStream "1" _) as [i1 w1].
  destruct (createFailingStream "2" w1) as [i2 w2].
  injection E as -> -> ->.
  rewrite on_close_add_first, on_close_add_second.
  unfold assign_buggy. rewrite !log_state, once_uncaught_state, !setTimeout_state.
  by rewrite <- !app_assoc.
Qed.

Lemma idle_spec w :
  idle w = true → timers w = [] ∧ ticks w = [] ∧ listeners w = [] ∧ fatal w = None.
Proof.
  unfold idle. destruct (timers w), (ticks w), (listeners w), (fatal w); done.
Qed.

(** The two streams of a test call, at the end of the heap. *)
Local Notation s1_closed obs :=
  (OStream (Stream obs [Registration (CloseCounter Fixed 1) false] true)).
Local Notation s2_plain v :=
  (OStream (Stream [] [Registration (CloseCounter v 2) false] false)).
Local Notation s1_plain v :=
  (OStream (Stream [] [Registration (CloseCounter v 1) false] false)).

Lemma fixed_step_close h r ts t nc c tr rs :
  drain_ticks (State (h ++ [s1_closed [Registration ErrorNoop true]; s2_plain Fixed])
                 r [length h] ts t [] nc None c tr rs)
  = State (h ++ [s1_closed [Registration ErrorNoop true]; s2_plain Fixed])
      (set_entry Fixed (bump_destroyed (fixed r)) r) [] ts t [] nc None
      (c ++ [LogDestroyed Fixed 1]) (tr ++ [Closed (length h)]) rs.
Proof.
  rewrite drain_ticks_one.
  erewrite emit_close_state by apply lookup_snoc2_0.
  rewrite insert_snoc2_0. cbn [on_close on_error destroyed foldl].
  by rewrite run_close_listener_state.
Qed.


Lemma fixed_step_error1 h r ts t nc c tr rs :
  drain_ticks (run_callback (EmitError (length h) "1")
    (State (h ++ [s1_closed [Registration ErrorNoop true]; s2_plain Fixed])
       r [] ts t [] nc None c tr rs))
  = State (h ++ [s1_closed []; s2_plain Fixed]) r [] ts t [] nc None
      (c ++ [LogErrorCaught]) (tr ++ [Delivered (length h)]) rs.
Proof.
  cbn [run_callback].
  erewrite emit_error_delivered by apply lookup_snoc2_0.
  rewrite insert_snoc2_0. cbn [foldl].
  by rewrite run_error_listener_state, drain_ticks_none.
Qed.

Lemma fixed_step_error2 h r ts t nc c tr rs :
  drain_ticks (run_callback (EmitError (S (length h)) "2")
    (State (h ++ [s1_closed []; s2_plain Fixed]) r [] ts t [] nc None c tr rs))
  = State (h ++ [s1_closed []; s2_plain Fixed]) r [] ts t [] nc
      (Some (Error "Stream 2 failed")) c (tr ++ [Thrown (S (length h))]) rs.
Proof.
  cbn [run_callback].
  erewrite emit_error_thrown_state by apply lookup_snoc2_1.
  by rewrite uncaught_no_listener, drain_ticks_none.
Qed.

Lemma run_timers_dead ts w e : fatal w = Some e → run_timers ts w = w.
Proof. intros H. destruct ts; [done|]. cbn. by rewrite H. Qed.

(** The timers of one test call that are due at [T], in running order,
    and those that are not. *)
Lemma ready_three t T (a b c : callback) :
  (t + 100 ≤ T)%nat →
  by_due (filter (λ u, (due u ≤ T)%nat) [Timer (t + 100) a; Timer (t + 100) b; Timer (t + 300) c])
  = Timer (t + 100) a :: Timer (t + 100) b
      :: (if decide (t + 300 ≤ T)%nat then [Timer (t + 300) c] else []).
Proof.
  intros H. rewrite !filter_cons, filter_nil. cbn [due].
  rewrite !(decide_True (P := (t + 100 ≤ T)%nat)) by done.
  destruct (decide (t + 300 ≤ T)%nat); unfold by_due; cbn [foldl insert_by_due due];
    repeat (rewrite bool_decide_eq_true_2 by lia; cbn [insert_by_due due]); done.
Qed.


(** X10: a [testFixedBehavior] call on a server at rest, followed up to
    any time from 100 ms on.  The first stream is retired, closes once
    and its error is absorbed; the second stream, which is still the
    body, has no ['error'] listener, so its error is thrown, finds no
    ['uncaughtException'] listener and ends the process.  The resolver
    set for 300 ms never runs: the promise is not resolved.  At that
    point [testResults.fixed] shows no unhandled error and one destroyed
    stream. *)
Theorem fixed_test_ends_the_process (w : state) (T : nat) :
  idle w = true → (now w + 100 ≤ T)%nat →
  let n := length (heap w) in
  let w' := run_until T (testFixedBehavior w) in
  trace w' = trace w ++ [Attach n; Destroy n 1; Closed n; Delivered n; Thrown (S n)] ∧
  fatal w' = Some (Error "Stream 2 failed") ∧
  resolved w' = resolved w ∧
  fixed (testResults w') = Counters 0 1 false.
Proof.
  intros Hi HT. apply idle_spec in Hi as (Hts&Hq&Hls&Hf).
  destruct w as [h r q ts t ls nc f c tr rs]. cbn in Hts, Hq, Hls, Hf, HT. subst.
  cbv zeta. rewrite testFixedBehavior_unfold.
  cbn [heap testResults ticks timers now listeners next_closure fatal console trace resolved app].
  unfold run_until. cbn [timers].
  rewrite ready_three by done.
  set (later := filter _ _).
  unfold with_timers.
  cbn [heap testResults ticks timers now listeners next_closure fatal console trace resolved].
  rewrite fixed_step_close.
  cbn [run_timers fatal callback_of]. rewrite fixed_step_error1.
  cbn [fatal]. rewrite fixed_step_error2.
  rewrite run_timers_dead with (e := Error "Stream 2 failed") by done.
  unfold with_now.
  cbn [heap testResults ticks timers now listeners next_closure fatal console trace resolved
       set_entry fixed buggy bump_destroyed fresh_counters unhandledErrors streamsDestroyed
       testComplete].
  rewrite <- !app_assoc. done.
Qed.

Lemma fixed_test_ends_the_process_witness :
  let w' := run_until 300 (testFixedBehavior initial) in
  trace w' = trace initial ++ [Attach 0; Destroy 0 1; Closed 0; Delivered 0; Thrown 1] ∧
  fatal w' = Some (Error "Stream 2 failed") ∧
  resolved w' = resolved initial ∧
  fixed (testResults w') = Counters 0 1 false.
Proof. apply (fixed_test_ends_the_process initial 300); [reflexivity|cbn; lia]. Defined.


Lemma buggy_step_idle h r ts t ls nc c tr rs :
  drain_ticks (State (h ++ [s1_plain Buggy; s2_plain Buggy]) r [] ts t ls nc None c tr rs)
  = State (h ++ [s1_plain Buggy; s2_plain Buggy]) r [] ts t ls nc None c tr rs.
Proof.
  apply drain_ticks_none.
Qed.

Lemma buggy_step_error1 h r ts t k nc c tr rs :
  drain_ticks (run_callback (EmitError (length h) "1")
    (State (h ++ [s1_plain Buggy; s2_plain Buggy]) r [] ts t
       [Registration (ErrorHandler k) true] nc None c tr rs))
  = State (h ++ [s1_plain Buggy; s2_plain Buggy])
      (set_entry Buggy
         (Counters (unhandledErrors (buggy r) + 1) (streamsDestroyed (buggy r)) true) r)
      [] ts t [] nc None
      (c ++ [LogUnhandled "Stream 1 failed"]) (tr ++ [Thrown (length h)]) rs.
Proof.
  cbn [run_callback].
  erewrite emit_error_thrown_state by apply lookup_snoc2_0.
  rewrite uncaught_single. cbn [message].
  change ("Stream " +:+ "1" +:+ " failed") with "Stream 1 failed".
  change (includes "Stream 1 failed" "Stream 1 failed") with true. cbv iota.
  by rewrite drain_ticks_none.
Qed.

Lemma buggy_step_error2 h r ts t nc c tr rs :
  drain_ticks (run_callback (EmitError (S (length h)) "2")
    (State (h ++ [s1_plain Buggy; s2_plain Buggy]) r [] ts t [] nc None c tr rs))
  = State (h ++ [s1_plain Buggy; s2_plain Buggy]) r [] ts t [] nc
      (Some (Error "Stream 2 failed")) c (tr ++ [Thrown (S (length h))]) rs.
Proof.
  cbn [run_callback].
  erewrite emit_error_thrown_state by apply lookup_snoc2_1.
  by rewrite uncaught_no_listener, drain_ticks_none.
Qed.

Lemma ready_four t T (a b c d : callback) :
  (t + 100 ≤ T)%nat →
  ∃ rest,
    by_due (filter (λ u, (due u ≤ T)%nat)
              [Timer (t + 100) a; Timer (t + 100) b; Timer (t + 500) c; Timer (t + 300) d])
    = Timer (t + 100) a :: Timer (t + 100) b :: rest.
Proof.
  intros H. rewrite !filter_cons, filter_nil. cbn [due].
  rewrite !(decide_True (P := (t + 100 ≤ T)%nat)) by done.
  destruct (decide (t + 500 ≤ T)%nat), (decide (t + 300 ≤ T)%nat);
    unfold by_due; cbn [foldl insert_by_due due];
    repeat (rewrite bool_decide_eq_true_2 by lia; cbn [insert_by_due due]);
    eexists; reflexivity.
Qed.

(** X11: a [testBuggyBehavior] call on a server at rest, followed up to
    any time from 100 ms on.  No stream is retired, destroyed or closed.
    The error of the displaced first stream is thrown and counted by
    [errorHandler], which is registered with [once] and is used up by
    it; the error of the second stream therefore finds no listener and
    ends the process, so the resolver set for 300 ms never runs. *)
Theorem buggy_test_ends_the_process (w : state) (T : nat) :
  idle w = true → (now w + 100 ≤ T)%nat →
  let n := length (heap w) in
  let w' := run_until T (testBuggyBehavior w) in
  trace w' = trace w ++ [Thrown n; Thrown (S n)] ∧
  buggy (testResults w') = Counters 1 0 true ∧
  fatal w' = Some (Error "Stream 2 failed") ∧
  resolved w' = resolved w ∧
  is_destroyed w' n = false ∧ is_destroyed w' (S n) = false.
Proof.
  intros Hi HT. apply idle_spec in Hi as (Hts&Hq&Hls&Hf).
  destruct w as [h r q ts t ls nc f c tr rs]. cbn in Hts, Hq, Hls, Hf, HT. subst.
  cbv zeta. rewrite testBuggyBehavior_unfold.
  cbn [heap testResults ticks timers now listeners next_closure fatal console trace resolved app].
  unfold run_until. cbn [timers].
  destruct (ready_four t T (EmitError (length h) "1") (EmitError (S (length h)) "2")
              (RemoveErrorHandler nc) (Resolve Buggy) HT) as [rest ->].
  set (later := filter _ _).
  unfold with_timers.
  cbn [heap testResults ticks timers now listeners next_closure fatal console trace resolved].
  rewrite buggy_step_idle.
  cbn [run_timers fatal callback_of]. rewrite buggy_step_error1.
  cbn [fatal]. rewrite buggy_step_error2.
  rewrite run_timers_dead with (e := Error "Stream 2 failed") by done.
  unfold is_destroyed, stream_at, with_now.
  cbn [heap testResults ticks timers now listeners next_closure fatal console trace resolved
       set_entry fixed buggy fresh_counters unhandledErrors streamsDestroyed testComplete].
  rewrite lookup_snoc2_0, lookup_snoc2_1.
  rewrite <- !app_assoc. done.
Qed.

Lemma buggy_test_ends_the_process_witness :
  let w' := run_until 300 (testBuggyBehavior initial) in
  trace w' = trace initial ++ [Thrown 0; Thrown 1] ∧
  buggy (testResults w') = Counters 1 0 true ∧
  fatal w' = Some (Error "Stream 2 failed") ∧
  resolved w' = resolved initial ∧
  is_destroyed w' 0 = false ∧ is_destroyed w' 1 = false.
Proof. apply (buggy_test_ends_the_process initial 300); [reflexivity|cbn; lia]. Defined.


(** ** One call, in any state *)

(** X8: in whatever state it is called, [testFixedBehavior] leaves
    every object that existed before as it was, creates two streams,
    and retires the first one only: the error handler is attached and
    [destroy] is called on it, with that one handler in place, and its
    close is queued.  The second stream is left without ['error']
    listener and is not destroyed.  The call resets the fixed entry of
    [testResults] and leaves the buggy entry and the process listeners
    alone. *)
Theorem fixed_call_retires_first_stream_only (w : state) :
  let n := length (heap w) in
  let w' := testFixedBehavior w in
  take n (heap w') = heap w ∧ length (heap w') = S (S n) ∧
  trace w' = trace w ++ [Attach n; Destroy n 1] ∧
  ticks w' = ticks w ++ [n] ∧
  (is_destroyed w' n = true ∧ error_observers w' n = 1%nat) ∧
  (is_destroyed w' (S n) = false ∧ error_observers w' (S n) = 0%nat) ∧
  fixed (testResults w') = fresh_counters ∧
  buggy (testResults w') = buggy (testResults w) ∧
  listeners w' = listeners w.
Proof.
  cbv zeta. rewrite testFixedBehavior_unfold.
  unfold is_destroyed, error_observers, stream_at. cbn [heap trace ticks testResults listeners].
  rewrite lookup_snoc2_0, lookup_snoc2_1, take_app_length, length_app.
  cbn. repeat split; try done. lia.
Qed.

(** X9: in whatever state it is called, [testBuggyBehavior] leaves
    every object that existed before as it was and creates two streams,
    but never attaches an ['error'] handler, never calls [destroy] and
    queues no close: both streams are left without ['error'] listener
    and not destroyed.  It installs exactly one ['uncaughtException']
    listener, registered with [once], resets the buggy entry of
    [testResults] and leaves the fixed entry alone. *)
Theorem buggy_call_cleans_up_nothing (w : state) :
  let n := length (heap w) in
  let w' := testBuggyBehavior w in
  take n (heap w') = heap w ∧ length (heap w') = S (S n) ∧
  trace w' = trace w ∧ ticks w' = ticks w ∧
  (is_destroyed w' n = false ∧ error_observers w' n = 0%nat) ∧
  (is_destroyed w' (S n) = false ∧ error_observers w' (S n) = 0%nat) ∧
  listeners w' = listeners w ++ [Registration (ErrorHandler (next_closure w)) true] ∧
  buggy (testResults w') = fresh_counters ∧
  fixed (testResults w') = fixed (testResults w).
Proof.
  cbv zeta. rewrite testBuggyBehavior_unfold.
  unfold is_destroyed, error_observers, stream_at. cbn [heap trace ticks testResults listeners].
  rewrite lookup_snoc2_0, lookup_snoc2_1, take_app_length, length_app.
  cbn. repeat split; try done. lia.
Qed.

(** ** The handler of uncaught exceptions *)

(** X12: [errorHandler] is registered with [process.once], so the first
    uncaught exception uses it up whatever its message is: the process
    survives that exception, [unhandledErrors] goes up only if the
    message contains [Stream 1 failed], and the next uncaught exception
    finds no listener and ends the process. *)
Theorem error_handler_absorbs_one_exception (w : state) (k : nat) (e e' : error) :
  listeners w = [Registration (ErrorHandler k) true] →
  let w1 := uncaught e w in
  listeners w1 = [] ∧ fatal w1 = fatal w ∧
  unhandledErrors (buggy (testResults w1))
  = unhandledErrors (buggy (testResults w))
    + (if includes (message e) "Stream 1 failed" then 1 else 0) ∧
  fixed (testResults w1) = fixed (testResults w) ∧
  fatal (uncaught e' w1) = Some e'.
Proof.
  intros Hl. destruct w as [h r q ts t ls nc f c tr rs]. cbn in Hl. subst ls. cbv zeta.
  rewrite uncaught_single.
  destruct (includes (message e) "Stream 1 failed"); cbn; repeat split; try done; lia.
Qed.

Lemma error_handler_absorbs_one_exception_witness :
  let w := testBuggyBehavior initial in
  let w1 := uncaught (Error "Stream 2 failed") w in
  listeners w1 = [] ∧ fatal w1 = fatal w ∧
  unhandledErrors (buggy (testResults w1))
  = unhandledErrors (buggy (testResults w))
    + (if includes (message (Error "Stream 2 failed")) "Stream 1 failed" then 1 else 0) ∧
  fixed (testResults w1) = fixed (testResults w) ∧
  fatal (uncaught (Error "Stream 1 failed") w1) = Some (Error "Stream 1 failed").
Proof.
  apply (error_handler_absorbs_one_exception (testBuggyBehavior initial) 0
           (Error "Stream 2 failed") (Error "Stream 1 failed")).
  reflexivity.
Defined.

End ReplaceMore.

(* ===================================================================== *)
(** * More about the pipeline demo                                        *)
(* ===================================================================== *)

Module PipeMore.
Import Pipe PipeFacts.

(** ** Invariants of the counters *)

Lemma filter_length_insert {A} (P : A → bool) (l : list A) i x y :
  l !! i = Some x →
  (length (List.filter P (<[i := y]> l)) + (if P x then 1 else 0)
   = length (List.filter P l) + (if P y then 1 else 0))%nat.
Proof.
  intros H. rewrite insert_take_drop by (by eapply lookup_lt_Some).
  rewrite <- (take_drop_middle l i x H) at 3.
  rewrite !List.filter_app, !length_app. cbn [List.filter].
  destruct (P x), (P y); cbn [length]; lia.
Qed.

Lemma change_open i s s' ls cb :
  change i s s' ls cb →
  match cb with
  | None => is_open s' = is_open s
  | Some _ => is_open s = true ∧ is_open s' = false
  end.
Proof.
  intros [c H|H|p err ls' Ho He Hls].
  - unfold is_open. cbn. by rewrite H.
  - unfold is_open. cbn. by destruct (phase_of s).
  - split; [done|]. unfold is_open. cbn. by destruct p.
Qed.

Lemma handle_tracked w e : tracked w → tracked (handle w e).
Proof.
  intros (Ha&Hn&Hc). pose proof (handle_cases w e) as Hcases.
  destruct e as [| | |i|i c|i|i msg];
    try (destruct Hcases as [->|[->|(s&s'&ls&cb&Hs&Hch&_&->)]];
         [done
         |unfold tracked, open_sessions;
          by destruct (throw_frame (InvalidState i) w) as (->&->&_)
         |]).
  1: done.
  1: { unfold tracked, open_sessions in *. cbn.
       rewrite List.filter_app, !length_app. cbn. lia. }
  1: { cbn [handle]. by destruct (original_timers w). }
  all: unfold tracked, open_sessions in *;
    destruct (apply_change_frame i s' ls cb w) as (->&_);
    rewrite apply_change_patched, length_insert;
    pose proof (filter_length_insert is_open (sessions w) i s s' Hs) as E;
    pose proof (change_open i s s' ls cb Hch) as Ho;
    destruct cb as [err|];
    [destruct Ho as [Ho1 Ho2]; rewrite Ho1, Ho2 in E; cbn; repeat split; lia
    |rewrite Ho in E; repeat split; try done; destruct (is_open s); lia].
Qed.

Lemma run_tracked es : ∀ w, tracked w → tracked (run es w).
Proof.
  induction es as [|e es IH]; intros w H; cbn; [done|].
  apply IH. by apply handle_tracked.
Qed.

Lemma initial_tracked : tracked initial.
Proof. done. Qed.

Lemma open_le_length w : (open_sessions w ≤ length (sessions w))%nat.
Proof. unfold open_sessions. apply List.filter_length_le. Qed.

(** X1: after any run of the server, [activeStreams] and
    [activeConnections] of the patched entry both equal the number of
    pipelines whose callback has not run yet (those that drain and those
    whose destination was destroyed and that wait for their source), and
    [streamsCreated] equals the number of [simulateFixedBehavior] calls
    made; so the counters are never negative and [activeStreams] never
    exceeds [streamsCreated]. *)
Theorem patched_entry_counts_open_pipelines (es : list event) :
  let w := run es initial in
  activeStreams (patched (testResults w)) = Z.of_nat (open_sessions w) ∧
  activeConnections (patched (testResults w)) = Z.of_nat (open_sessions w) ∧
  streamsCreated (patched (testResults w)) = Z.of_nat (length (sessions w)) ∧
  0 ≤ activeStreams (patched (testResults w)) ≤ streamsCreated (patched (testResults w)).
Proof.
  cbv zeta. destruct (run_tracked es initial initial_tracked) as (Ha&Hn&Hc).
  pose proof (open_le_length (run es initial)).
  repeat split; try done; lia.
Qed.

Lemma handle_original_connections w e :
  activeConnections (original (testResults w)) = Z.of_nat (original_timers w) →
  activeConnections (original (testResults (handle w e)))
  = Z.of_nat (original_timers (handle w e)).
Proof.
  intros H. destruct (is_original_event e) eqn:He.
  - destruct e; try discriminate He; cbn [handle].
    + cbn. lia.
    + destruct (original_timers w) as [|n] eqn:E; [by rewrite E|]. cbn. lia.
  - by destruct (handle_patched_frame w e He) as [-> ->].
Qed.

Lemma handle_original_timers_bound w e n :
  (original_timers w ≤ n)%nat →
  (original_timers (handle w e) ≤ n + if is_call_original e then 1 else 0)%nat.
Proof.
  intros H. destruct (is_original_event e) eqn:He.
  - destruct e; try discriminate He; cbn [handle is_call_original].
    + cbn. lia.
    + destruct (original_timers w) as [|k] eqn:E; cbn; lia.
  - destruct (handle_patched_frame w e He) as [_ ->]. destruct e; try done; cbn; lia.
Qed.

(** X2: after any run of the server, [activeConnections] of the original
    entry equals the number of [simulateOriginalBehavior] calls whose
    2000 ms timer has not fired yet; it is never negative and never
    exceeds the number of calls. *)
Theorem original_connections_count_pending_timers (es : list event) :
  let w := run es initial in
  activeConnections (original (testResults w)) = Z.of_nat (original_timers w) ∧
  (original_timers w ≤ calls_original es)%nat.
Proof.
  cbv zeta.
  assert (G : ∀ es w n,
      activeConnections (original (testResults w)) = Z.of_nat (original_timers w) →
      (original_timers w ≤ n)%nat →
      activeConnections (original (testResults (run es w))) = Z.of_nat (original_timers (run es w)) ∧
      (original_timers (run es w) ≤ n + calls_original es)%nat).
  { clear. induction es as [|e es IH]; intros w n Ha Hn; cbn [run foldl].
    - unfold calls_original. cbn. split; [done|lia].
    - destruct (IH (handle w e) (n + if is_call_original e then 1 else 0)%nat) as [H1 H2].
      + by apply handle_original_connections.
      + by apply handle_original_timers_bound.
      + split; [exact H1|]. unfold run in H2. unfold calls_original in *. cbn [List.filter].
        destruct (is_call_original e); cbn [length] in *; lia. }
  destruct (G es initial 0%nat eq_refl) as [H1 H2]; [cbn; lia|]. split; [done|]. lia.
Qed.

Lemma open_sessions_pos w i p :
  phase_at w i = Some p → p = Draining ∨ p = Closing → (1 ≤ open_sessions w)%nat.
Proof.
  intros (s&Hs&Hp)%phase_at_Some Ho. unfold open_sessions.
  assert (Hin : In s (List.filter is_open (sessions w))).
  { apply List.filter_In. split.
    - apply list_elem_of_In, list_elem_of_lookup. by exists i.
    - unfold is_open. rewrite Hp. by destruct Ho as [->| ->]. }
  destruct (List.filter is_open (sessions w)); [done|cbn; lia].
Qed.

(** X3: the disconnect timer alone releases nothing.  After
    [mockRes.destroy()] on a draining pipeline, and for as long as the
    source of that pipeline delivers nothing (whatever else happens: other
    requests, other timers, the events of other pipelines), the callback
    has not run: no line of it is printed, the pipeline is still counted,
    and [activeStreams] and [activeConnections] of the patched entry stay
    at 1 or more. *)
Theorem disconnect_alone_releases_nothing (es1 es2 : list event) (i : nat) :
  let w := run es1 initial in
  phase_at w i = Some Draining →
  forallb (λ e, negb (is_source_event i e)) es2 = true →
  let w' := run es2 (handle w (FixedDisconnect i)) in
  phase_at w' i = Some Closing ∧ reports w' i = 0%nat ∧ cleanups w' i = 0%nat ∧
  written_at w' i = written_at w i ∧
  1 ≤ activeStreams (patched (testResults w')) ∧
  1 ≤ activeConnections (patched (testResults w')).
Proof.
  intros w Hd Hes w'.
  assert (Hw : consistent w) by (apply run_consistent, initial_consistent).
  destruct (disconnect_then_chunk w i "" Hw Hd) as ((Hpa&Hwa&_)&_).
  destruct (run_phase_keep es2 (handle w (FixedDisconnect i)) i Closing Hpa) as [Hp Hwr];
    [done|by intros _|]. fold w' in Hp, Hwr.
  assert (Hc : consistent w') by (by apply run_consistent, handle_consistent).
  destruct (consistent_counts _ _ _ Hc Hp) as [Hr Hl].
  assert (Ht : tracked w').
  { apply run_tracked, handle_tracked, run_tracked, initial_tracked. }
  destruct Ht as (Ha&Hn&_).
  pose proof (open_sessions_pos w' i Closing Hp (or_intror eq_refl)).
  repeat split; try done; try congruence; lia.
Qed.

Lemma disconnect_alone_releases_nothing_witness :
  let w := run [CallFixed; CallFixed; SourceChunk 0 "data"] initial in
  let w' := run [SourceEnd 0; FixedDisconnect 0] (handle w (FixedDisconnect 1)) in
  phase_at w' 1 = Some Closing ∧ reports w' 1 = 0%nat ∧ cleanups w' 1 = 0%nat ∧
  written_at w' 1 = written_at w 1 ∧
  1 ≤ activeStreams (patched (testResults w')) ∧
  1 ≤ activeConnections (patched (testResults w')).
Proof.
  apply (disconnect_alone_releases_nothing
           [CallFixed; CallFixed; SourceChunk 0 "data"] [SourceEnd 0; FixedDisconnect 0] 1);
    reflexivity.
Defined.

(** X4: the object that [simulateFixedBehavior] returns is built before
    its pipeline has ended, so it always counts the stream just created
    as active: in any state the server can reach, the returned
    [activeStreams] and [activeConnections] are one more than the number
    of pipelines whose callback had not run before the call, hence at
    least 1, and the returned [streamsCreated] is the number of calls
    made so far including this one. *)
Theorem fixed_result_counts_its_own_stream (es : list event) :
  let w := run es initial in
  let r := (simulateFixedBehavior w).1 in
  activeStreams r = Z.of_nat (open_sessions w) + 1 ∧
  activeConnections r = Z.of_nat (open_sessions w) + 1 ∧
  streamsCreated r = Z.of_nat (length (sessions w)) + 1 ∧
  1 ≤ activeStreams r.
Proof.
  cbv zeta. destruct (run_tracked es initial initial_tracked) as (Ha&Hn&Hc).
  cbn. repeat split; lia.
Qed.

(** ** The two endpoints *)

(** X5: the request handler runs a simulation only for the exact paths
    [/test-original] and [/test-fixed]; any other path is answered with
    the demo page and changes nothing.  The two endpoints do not
    interfere: a [/test-original] request and its timer leave the patched
    entry and every pipeline as they are, and a [/test-fixed] request and
    everything that happens to its pipeline leave the original entry and
    its timers as they are. *)
Theorem endpoints_do_not_interfere (path : string) (w : state) (e : event) :
  (path ≠ "/test-original" → path ≠ "/test-fixed" → serve path w = (Html, w)) ∧
  serve "/test-original" w = (Json (simulateOriginalBehavior w).1, handle w CallOriginal) ∧
  serve "/test-fixed" w = (Json (simulateFixedBehavior w).1, handle w CallFixed) ∧
  (is_original_event e = true →
   patched (testResults (handle w e)) = patched (testResults w) ∧
   sessions (handle w e) = sessions w) ∧
  (is_original_event e = false →
   original (testResults (handle w e)) = original (testResults w) ∧
   original_timers (handle w e) = original_timers w).
Proof.
  repeat split.
  - intros H1 H2. unfold serve. by rewrite !bool_decide_eq_false_2.
  - by apply handle_original_frame.
  - by apply handle_original_frame.
  - by apply handle_patched_frame.
  - by apply handle_patched_frame.
Qed.

Lemma endpoints_do_not_interfere_witness :
  let w := run [CallFixed; CallOriginal] initial in
  serve "/test-fixed/" w = (Html, w) ∧
  (patched (testResults (handle w OriginalDisconnect)) = patched (testResults w) ∧
   sessions (handle w OriginalDisconnect) = sessions w) ∧
  (original (testResults (handle w (FixedDisconnect 0))) = original (testResults w) ∧
   original_timers (handle w (FixedDisconnect 0)) = original_timers w).
Proof.
  split; [|split].
  - apply (endpoints_do_not_interfere "/test-fixed/"
             (run [CallFixed; CallOriginal] initial) CallFixed); discriminate.
  - apply (endpoints_do_not_interfere "/"
             (run [CallFixed; CallOriginal] initial) OriginalDisconnect). reflexivity.
  - apply (endpoints_do_not_interfere "/"
             (run [CallFixed; CallOriginal] initial) (FixedDisconnect 0)). reflexivity.
Defined.

(** ** The mock source *)

Lemma mock_run_off n m : interval_set m = false → mock_run n m = ([], m).
Proof.
  intros H. induction n as [|n IH]; [done|]. cbn [mock_run].
  unfold interval_tick. rewrite H. by rewrite IH.
Qed.

Lemma mock_run_open n : ∀ c o,
  (c + n ≤ 100)%nat →
  mock_run n (Mock c true o) = (Enqueue ∘ data_chunk <$> seq c n, Mock (c + n) true o).
Proof.
  induction n as [|n IH]; intros c o H.
  - cbn. by rewrite Nat.add_0_r.
  - cbn [mock_run]. unfold interval_tick. cbn [interval_set count stream_closed].
    rewrite bool_decide_eq_true_2 by lia.
    rewrite IH by lia. cbn. by rewrite Nat.add_succ_r.
Qed.

Lemma mock_run_add a : ∀ b m,
  mock_run (a + b) m
  = ((mock_run a m).1 ++ (mock_run b (mock_run a m).2).1, (mock_run b (mock_run a m).2).2).
Proof.
  induction a as [|a IH]; intros b m.
  - cbn. by destruct (mock_run b m).
  - cbn [Nat.add mock_run]. destruct (interval_tick m) as [x m1]. rewrite IH.
    destruct (mock_run a m1) as [y m2]. cbn [fst snd].
    destruct (mock_run b m2) as [z m3]. cbn. by rewrite <- app_assoc.
Qed.

Lemma mock_run_from_start (n : nat) :
  mock_run n mock_start
  = ((Enqueue ∘ data_chunk <$> seq 0 (n `min` 100))
       ++ (if bool_decide (100 < n)%nat then [Close] else []),
     Mock (n `min` 100) (bool_decide (n ≤ 100)%nat) (bool_decide (100 < n)%nat)).
Proof.
  unfold mock_start. destruct (decide (n ≤ 100)%nat) as [Hn|Hn].
  - rewrite mock_run_open by lia. rewrite Nat.min_l by lia.
    rewrite bool_decide_eq_false_2 by lia. rewrite bool_decide_eq_true_2 by lia.
    by rewrite app_nil_r.
  - replace n with (100 + (1 + (n - 101)))%nat at 1 by lia.
    rewrite mock_run_add. rewrite mock_run_open by lia. cbn [fst snd].
    rewrite mock_run_add. cbn [fst snd].
    assert (E : mock_run 1 (Mock (0 + 100) true false) = ([Close], Mock 100 false true)) by done.
    rewrite E. cbn [fst snd]. rewrite mock_run_off by done. cbn [fst snd].
    rewrite Nat.min_r by lia. rewrite bool_decide_eq_true_2 by lia.
    rewrite bool_decide_eq_false_2 by lia. by rewrite app_nil_r.
Qed.

(** X6: the mock source enqueues exactly the 100 chunks [data chunk 0]
    to [data chunk 99], one per period and in this order, closes the
    stream in the period after the last chunk and clears its interval;
    from then on nothing more is produced, however long it runs. *)
Theorem mock_source_yields_100_chunks (n : nat) :
  mock_run n mock_start
  = ((Enqueue ∘ data_chunk <$> seq 0 (n `min` 100))
       ++ (if bool_decide (100 < n)%nat then [Close] else []),
     Mock (n `min` 100) (bool_decide (n ≤ 100)%nat) (bool_decide (100 < n)%nat)).
Proof. apply mock_run_from_start. Qed.

(** ** The process *)

Lemma live_dead es : ∀ w x, fatal w = Some x → live es w = w.
Proof.
  induction es as [|e es IH]; intros w x H; [done|]. cbn [live foldl].
  unfold step at 2. rewrite H. by apply (IH w x).
Qed.

(** What the process has done is what [run] does with the events that it
    took, which are the first events of the list. *)
Lemma live_is_a_run es : ∀ w,
  fatal w = None → ∃ es', es' `prefix_of` es ∧ live es w = run es' w.
Proof.
  induction es as [|e es IH]; intros w H.
  - by exists [].
  - cbn [live foldl]. unfold step at 2. rewrite H.
    destruct (fatal (handle w e)) as [x|] eqn:Hf.
    + exists [e]. split; [by apply prefix_cons, prefix_nil|].
      by apply (live_dead es (handle w e) x).
    + destruct (IH (handle w e) Hf) as (es'&Hp&Hl). exists (e :: es').
      split; [by apply prefix_cons|done].
Qed.

(** ** A scripted session: the mock source, the pipeline, the disconnect *)

Lemma run_chunks i cs : ∀ w s,
  sessions w !! i = Some s → phase_of s = Draining →
  run (SourceChunk i <$> cs) w
  = with_sessions (<[i := Session Draining (written s ++ cs) (disconnect_pending s)]> (sessions w)) w.
Proof.
  induction cs as [|c cs IH]; intros w s Hs Hp.
  - cbn. rewrite app_nil_r. destruct s as [p ws d]. cbn in *. subst p.
    rewrite list_insert_id by done. by destruct w.
  - cbn [fmap list_fmap run foldl handle]. unfold enqueue at 1, phase_at at 1.
    rewrite Hs. cbn [fmap option_fmap option_map]. rewrite Hp.
    unfold write at 1. rewrite Hs, Hp.
    set (s1 := Session Draining (written s ++ [c]) (disconnect_pending s)).
    set (w1 := with_sessions _ w).
    assert (H1 : sessions w1 !! i = Some s1).
    { unfold w1. cbn. apply list_lookup_insert_eq. by eapply lookup_lt_Some. }
    pose proof (IH w1 s1 H1 eq_refl) as E. unfold run in E.
    change (foldl handle w1 (list_fmap _ _ (SourceChunk i) cs))
      with (foldl handle w1 (SourceChunk i <$> cs)). rewrite E.
    unfold w1, s1. cbn. by rewrite list_insert_insert_eq, <- app_assoc.
Qed.

Lemma source_events_chunks i (ns : list nat) :
  source_event i <$> (Enqueue ∘ data_chunk <$> ns) = SourceChunk i <$> (data_chunk <$> ns).
Proof. induction ns as [|k ns IH]; [done|]. cbn. by f_equal. Qed.

(** X7: a [simulateFixedBehavior] call as the script runs it: the mock
    source delivers for [n] periods, then the disconnect timer fires
    (the timer needs 2 s, the source 10 s).  At the timer [mockRes] has
    accepted exactly the first [n] chunks, the pipeline starts to close
    and is still counted.  In the next period the interval, which nothing
    has cleared, enqueues chunk [n]: the chunk is dropped, the callback
    runs, and [activeStreams] and [activeConnections] are back where the
    call found them.  In the period after that the interval enqueues on
    the cancelled stream: [enqueue] throws, nothing catches it, and the
    process takes no further event. *)
Theorem scripted_session_ends_the_process (es : list event) (n : nat) :
  let w := run es initial in
  let i := length (sessions w) in
  let m := (mock_run n mock_start).2 in
  let w1 := handle w CallFixed in
  let w2 := run (source_event i <$> (mock_run n mock_start).1) w1 in
  let w3 := handle w2 (FixedDisconnect i) in
  let w4 := run (source_event i <$> (mock_run 1 m).1) w3 in
  let w5 := run (source_event i <$> (mock_run 1 (mock_run 1 m).2).1) w4 in
  (n + 2 ≤ 100)%nat → fatal w = None →
  (phase_at w3 i = Some Closing ∧
   written_at w3 i = Some (data_chunk <$> seq 0 n) ∧
   cleanups w3 i = 0%nat ∧
   activeStreams (patched (testResults w3)) = activeStreams (patched (testResults w)) + 1) ∧
  (phase_at w4 i = Some Aborted ∧
   written_at w4 i = Some (data_chunk <$> seq 0 n) ∧
   cleanups w4 i = 1%nat ∧
   activeStreams (patched (testResults w4)) = activeStreams (patched (testResults w)) ∧
   activeConnections (patched (testResults w4))
   = activeConnections (patched (testResults w)) ∧
   streamsCreated (patched (testResults w4))
   = streamsCreated (patched (testResults w)) + 1 ∧
   fatal w4 = None) ∧
  (fatal w5 = Some (InvalidState i) ∧ ∀ es', live es' w5 = w5).
Proof.
  intros w i m w1 w2 w3 w4 w5 Hn Hf.
  set (cs := data_chunk <$> seq 0 n).
  assert (Hm : mock_run n mock_start = (Enqueue ∘ data_chunk <$> seq 0 n, Mock n true false)).
  { rewrite mock_run_from_start, Nat.min_l by lia.
    rewrite bool_decide_eq_false_2, bool_decide_eq_true_2 by lia. by rewrite app_nil_r. }
  assert (Hm1 : mock_run 1 m = ([Enqueue (data_chunk n)], Mock (S n) true false)).
  { unfold m. rewrite Hm. cbn [snd mock_run]. unfold interval_tick. cbn [interval_set count].
    by rewrite bool_decide_eq_true_2 by lia. }
  assert (Hm2 : mock_run 1 (mock_run 1 m).2
                = ([Enqueue (data_chunk (S n))], Mock (S (S n)) true false)).
  { rewrite Hm1. cbn [snd mock_run]. unfold interval_tick. cbn [interval_set count].
    by rewrite bool_decide_eq_true_2 by lia. }
  assert (H1 : sessions w1 !! i = Some (Session Draining [] true)).
  { unfold w1, i. rewrite call_fixed_sessions. by rewrite lookup_app_r, Nat.sub_diag. }
  assert (Hc1 : consistent w1) by (apply handle_consistent, run_consistent, initial_consistent).
  assert (Hc2 : consistent w2) by (by apply run_consistent).
  assert (E2 : w2 = with_sessions (<[i := Session Draining cs true]> (sessions w1)) w1).
  { unfold w2. rewrite Hm. cbn [fst]. rewrite source_events_chunks.
    by rewrite (run_chunks i _ w1 _ H1 eq_refl). }
  assert (Hp2 : phase_at w2 i = Some Draining).
  { rewrite E2. unfold phase_at. cbn [sessions with_sessions].
    by rewrite list_lookup_insert_eq by (by eapply lookup_lt_Some). }
  assert (Hw2 : written_at w2 i = Some cs).
  { rewrite E2. unfold written_at. cbn [sessions with_sessions].
    by rewrite list_lookup_insert_eq by (by eapply lookup_lt_Some). }
  assert (Hr2 : testResults w2 = testResults w1) by (by rewrite E2).
  assert (Hf2 : fatal w2 = None) by (by rewrite E2).
  destruct (disconnect_then_chunk w2 i (data_chunk n) Hc2 Hp2)
    as ((Hp3&Hw3&Hr3&_)&(Hp4&Hw4&Hr4)).
  fold w3 in Hp3, Hw3, Hr3, Hp4, Hw4, Hr4.
  assert (E4 : w4 = handle w3 (SourceChunk i (data_chunk n))) by (unfold w4; by rewrite Hm1).
  rewrite <- E4 in Hp4, Hw4, Hr4.
  assert (Hc3 : consistent w3) by (by apply handle_consistent).
  assert (Hc4 : consistent w4) by (rewrite E4; by apply handle_consistent).
  destruct (consistent_counts _ _ _ Hc3 Hp3) as [_ Hl3].
  destruct (consistent_counts _ _ _ Hc4 Hp4) as [_ Hl4].
  assert (Hf3 : fatal w3 = None).
  { destruct (draining_session w2 i Hc2 Hp2) as (s&Hs&Hps&Hts).
    unfold w3. cbn [handle]. rewrite (fixed_disconnect_draining w2 i s Hs Hps Hts).
    by destruct (apply_change_frame i (Session Closing (written s) false)
                   [LogFixedDisconnected i] None w2) as (_&_&_&->). }
  assert (Hf4 : fatal w4 = None).
  { rewrite E4. cbn [handle]. unfold enqueue. rewrite Hp3.
    apply phase_at_Some in Hp3 as (s&Hs&Hps).
    rewrite (finish_change i Aborted (Some PrematureClose) (log (LogCancelled i) w3) s)
      by (try done; unfold is_open; by rewrite Hps).
    by destruct (apply_change_frame i (Session Aborted (written s) (disconnect_pending s)) []
                   (Some (Some PrematureClose)) (log (LogCancelled i) w3)) as (_&_&_&->). }
  assert (E5 : w5 = throw (InvalidState i) w4).
  { unfold w5. rewrite Hm2. cbn [fst fmap list_fmap source_event run foldl handle].
    unfold enqueue. by rewrite Hp4. }
  assert (Hf5 : fatal w5 = Some (InvalidState i)) by (rewrite E5; unfold throw; by rewrite Hf4).
  assert (Hr1 : patched (testResults w1)
                = Stats (success (patched (testResults w))) (error (patched (testResults w)))
                    (activeConnections (patched (testResults w)) + 1)
                    (streamsCreated (patched (testResults w)) + 1)
                    (activeStreams (patched (testResults w)) + 1)) by done.
  split; [|split].
  - rewrite Hr3, Hr2, Hr1, Hw3, Hw2. cbn. done.
  - rewrite Hr4, Hr2, Hr1, Hw4, Hw2. cbn. repeat split; try done; lia.
  - split; [done|]. intros es'. by apply (live_dead es' w5 (InvalidState i)).
Qed.

Lemma scripted_session_ends_the_process_witness :
  let w := run [] initial in
  let i := length (sessions w) in
  let m := (mock_run 20 mock_start).2 in
  let w1 := handle w CallFixed in
  let w2 := run (source_event i <$> (mock_run 20 mock_start).1) w1 in
  let w3 := handle w2 (FixedDisconnect i) in
  let w4 := run (source_event i <$> (mock_run 1 m).1) w3 in
  let w5 := run (source_event i <$> (mock_run 1 (mock_run 1 m).2).1) w4 in
  (phase_at w3 i = Some Closing ∧
   written_at w3 i = Some (data_chunk <$> seq 0 20) ∧
   cleanups w3 i = 0%nat ∧
   activeStreams (patched (testResults w3)) = activeStreams (patched (testResults w)) + 1) ∧
  (phase_at w4 i = Some Aborted ∧
   written_at w4 i = Some (data_chunk <$> seq 0 20) ∧
   cleanups w4 i = 1%nat ∧
   activeStreams (patched (testResults w4)) = activeStreams (patched (testResults w)) ∧
   activeConnections (patched (testResults w4))
   = activeConnections (patched (testResults w)) ∧
   streamsCreated (patched (testResults w4))
   = streamsCreated (patched (testResults w)) + 1 ∧
   fatal w4 = None) ∧
  (fatal w5 = Some (InvalidState i) ∧ ∀ es', live es' w5 = w5).
Proof.
  apply (scripted_session_ends_the_process [] 20); [lia|reflexivity].
Defined.

End PipeMore.

(* ===================================================================== *)
(** * Facts about the vendoring script                                    *)
(* ===================================================================== *)

Module VendorFacts.
Import Vendor.
Local Open Scope nat_scope.

Lemma strip_Some p q r : strip p q = Some r ↔ q = p ++ r.
Proof.
  revert q. induction p as [|a p IH]; intros [|b q]; cbn; try (split; congruence).
  destruct (decide (a = b)) as [->|Hne].
  - rewrite IH. split; [by intros ->|by intros [= ->]].
  - split; [done|]. intros [= -> ->]. done.
Qed.

Lemma strip_app p r : strip p (p ++ r) = Some r.
Proof. by apply strip_Some. Qed.

Lemma strip_self p : strip p p = Some [].
Proof. apply strip_Some. by rewrite app_nil_r. Qed.

Lemma strip_None p q : strip p q = None ↔ ∀ r, q ≠ p ++ r.
Proof.
  split.
  - intros H r ->. by rewrite strip_app in H.
  - intros H. destruct (strip p q) as [r|] eqn:E; [|done].
    apply strip_Some in E. by destruct (H r).
Qed.

Lemma diverge_sym p q : diverge p q = diverge q p.
Proof.
  revert q. induction p as [|a p IH]; intros [|b q]; cbn; try done.
  destruct (decide (a = b)) as [->|Hne].
  - rewrite decide_True by done. apply IH.
  - by rewrite decide_False by done.
Qed.

Lemma diverge_app p q a b : diverge p q = true → diverge (p ++ a) (q ++ b) = true.
Proof.
  revert q. induction p as [|x p IH]; intros [|y q]; cbn; try done.
  destruct (decide (x = y)); [apply IH|done].
Qed.

Lemma diverge_strip p q r : diverge p q = true → strip p (q ++ r) = None.
Proof.
  revert q. induction p as [|x p IH]; intros [|y q]; cbn; try done.
  destruct (decide (x = y)); [apply IH|done].
Qed.

Lemma diverge_ne p q r : diverge p q = true → p ++ r ≠ q.
Proof.
  intros H E. pose proof (diverge_strip q p r) as H1.
  rewrite diverge_sym in H1. specialize (H1 H). rewrite E, strip_self in H1. done.
Qed.

Lemma ancestors_snoc p n : ancestors (p ++ [n]) = ancestors p ++ [p].
Proof.
  induction p as [|a p IH]; [done|]. cbn. rewrite IH, fmap_app. done.
Qed.

Lemma strip_ancestor p a : a ∈ ancestors p → strip p a = None.
Proof.
  revert a. induction p as [|x p IH]; intros a; cbn; [by intros ?%elem_of_nil|].
  intros [->|H]%elem_of_cons; [done|].
  apply list_elem_of_fmap in H as (a' & -> & H). rewrite decide_True by done. by apply IH.
Qed.

Lemma forallb_elem_of {A} (f : A → bool) (l : list A) (x : A) :
  forallb f l = true → x ∈ l → f x = true.
Proof.
  induction l as [|y l IH]; cbn; [by intros _ ?%elem_of_nil|].
  intros [Hy Hl]%andb_prop [->|Hx]%elem_of_cons; auto.
Qed.

Lemma elem_of_keys (m : fs) (q : path) : q ∈ (map_to_list m).*1 ↔ is_Some (m !! q).
Proof.
  rewrite list_elem_of_fmap. split.
  - intros ([q' x] & -> & H%elem_of_map_to_list). by exists x.
  - intros [x H]. exists (q, x). split; [done|]. by apply elem_of_map_to_list.
Qed.

Lemma is_dir_spec (m : fs) (p : path) : is_dir m p = true ↔ m !! p = Some Dir.
Proof. unfold is_dir. destruct (m !! p) as [[]|]; split; congruence. Qed.

Lemma reachable_spec (p : path) (m : fs) :
  reachable p m = true → ∀ a, a ∈ ancestors p → m !! a = Some Dir.
Proof.
  intros H a Ha. apply is_dir_spec. by apply (forallb_elem_of _ _ _ H).
Qed.

Lemma removelast_snoc {A} (l : list A) (x : A) : removelast (l ++ [x]) = l.
Proof. apply removelast_last. Qed.

Lemma tree_under_spec (k : nat) (src : path) (m : fs) :
  tree_under k src m = true →
  (∀ r, is_Some (m !! (src ++ r)) → length r < k) ∧
  (∀ r n, is_Some (m !! (src ++ r ++ [n])) → m !! (src ++ r) = Some Dir).
Proof.
  intros H. split.
  - intros r Hr. apply elem_of_keys in Hr.
    pose proof (forallb_elem_of _ _ _ H Hr) as Hq. cbn in Hq.
    rewrite strip_app in Hq. apply andb_prop in Hq as [Hq _].
    by apply bool_decide_eq_true in Hq.
  - intros r n Hr. apply elem_of_keys in Hr.
    pose proof (forallb_elem_of _ _ _ H Hr) as Hq. cbn in Hq.
    rewrite strip_app in Hq. apply andb_prop in Hq as [_ Hq].
    destruct (r ++ [n]) as [|x l] eqn:E; [by destruct r|]. rewrite <- E in Hq.
    rewrite app_assoc, removelast_snoc in Hq. by apply is_dir_spec.
Qed.

Lemma compatible_spec (src dest : path) (m : fs) :
  compatible src dest m = true →
  ∀ r a b, m !! (src ++ r) = Some a → m !! (dest ++ r) = Some b → same_kind a b = true.
Proof.
  intros H r a b Ha Hb.
  assert (Hr : src ++ r ∈ (map_to_list m).*1) by (apply elem_of_keys; eauto).
  pose proof (forallb_elem_of _ _ _ H Hr) as Hq. cbv beta in Hq.
  by rewrite strip_app, Ha, Hb in Hq.
Qed.

(** Below a regular file or a missing entry of a tree there is nothing. *)
Lemma below_dir (src : path) (m : fs) :
  (∀ r n, is_Some (m !! (src ++ r ++ [n])) → m !! (src ++ r) = Some Dir) →
  ∀ r2 r1, r2 ≠ [] → is_Some (m !! (src ++ r1 ++ r2)) → m !! (src ++ r1) = Some Dir.
Proof.
  intros Htree r2. induction r2 as [|n r2 IH] using rev_ind; [done|].
  intros r1 _ Hs. rewrite (app_assoc r1 r2 [n]) in Hs. apply Htree in Hs.
  destruct r2 as [|x r2]; [by rewrite app_nil_r in Hs|].
  apply IH; [done|]. by rewrite Hs.
Qed.

(** ** The file system calls *)

Lemma ancestors_head (p : path) : p ≠ [] → [] ∈ ancestors p.
Proof. destruct p; [done|]. intros _. cbn. apply elem_of_cons. by left. Qed.

Lemma removelast_ancestor (p : path) : p ≠ [] → removelast p ∈ ancestors p.
Proof.
  destruct p as [|n p _] using rev_ind; [done|]. intros _.
  rewrite removelast_snoc, ancestors_snoc. apply elem_of_app. right. apply elem_of_cons. by left.
Qed.

Lemma ancestors_cons (a : string) (p x : path) :
  x ∈ ancestors p → a :: x ∈ ancestors (a :: p).
Proof.
  intros H. cbn [ancestors]. apply elem_of_cons. right. apply list_elem_of_fmap. by exists x.
Qed.

Lemma mkdir_from_fresh (rest base : path) (m : fs) :
  rest ≠ [] →
  (∀ a, a ∈ ancestors rest → a ≠ [] → m !! (base ++ a) = Some Dir) →
  m !! (base ++ rest) = None →
  mkdir_from base rest m = Done (<[base ++ rest := Dir]> m).
Proof.
  revert base. induction rest as [|n rest IH]; intros base Hne Hdirs Hnone; [done|].
  cbn [mkdir_from]. destruct rest as [|n2 rest].
  - by rewrite Hnone.
  - rewrite (Hdirs [n]); [|by apply ancestors_cons, ancestors_head|done].
    replace (base ++ n :: n2 :: rest) with ((base ++ [n]) ++ n2 :: rest)
      by (by rewrite <- app_assoc).
    apply IH; [done| |by rewrite <- app_assoc].
    intros a Ha Hane. rewrite <- app_assoc. apply Hdirs; [|done].
    by apply ancestors_cons.
Qed.

Lemma mkdirSync_fresh (dest : path) (m : fs) :
  dest ≠ [] → (∀ a, a ∈ ancestors dest → m !! a = Some Dir) → m !! dest = None →
  mkdirSync dest m = Done (<[dest := Dir]> m).
Proof.
  intros Hne Hdirs Hnone. unfold mkdirSync, is_dir.
  rewrite (Hdirs []) by by apply ancestors_head.
  apply (mkdir_from_fresh dest [] m); auto.
Qed.

Lemma copyFileSync_ok (src dest : path) (m : fs) (d : string) :
  m !! src = Some (File d) → m !! dest ≠ Some Dir → dest ≠ [] →
  (∀ a, a ∈ ancestors dest → m !! a = Some Dir) →
  copyFileSync src dest m = Done (<[dest := File d]> m).
Proof.
  intros Hs Hd Hne Hdirs. unfold copyFileSync, is_dir. rewrite Hs.
  rewrite (Hdirs (removelast dest)) by by apply removelast_ancestor.
  by destruct (m !! dest) as [[]|].
Qed.

Lemma child_of_Some (p q : path) (n : string) : child_of p q = Some n ↔ q = p ++ [n].
Proof.
  unfold child_of. destruct (strip p q) as [r|] eqn:E.
  - apply strip_Some in E as ->. destruct r as [|x [|y r]].
    + split; [done|]. by intros [=]%app_inv_head.
    + split; [by intros [= ->]|]. by intros [= ->]%app_inv_head.
    + split; [done|]. by intros [=]%app_inv_head.
  - split; [done|]. intros ->. by rewrite strip_app in E.
Qed.

Lemma NoDup_omap_inj {A B} (f : A → option B) (l : list A) :
  NoDup l → (∀ x y z, f x = Some z → f y = Some z → x = y) → NoDup (omap f l).
Proof.
  intros Hl Hinj. induction Hl as [|x l Hx Hl IH]; cbn; [constructor|].
  destruct (f x) as [z|] eqn:E; [|done]. constructor; [|done].
  intros (y & Hy & Hz)%list_elem_of_omap. by rewrite (Hinj x y z) in Hx.
Qed.

Lemma children_spec (p : path) (m : fs) (n : string) :
  n ∈ children p m ↔ is_Some (m !! (p ++ [n])).
Proof.
  unfold children. rewrite list_elem_of_omap. split.
  - intros (q & Hq%elem_of_keys & ->%child_of_Some). done.
  - intros H. exists (p ++ [n]). split; [by apply elem_of_keys|by apply child_of_Some].
Qed.

Lemma children_NoDup (p : path) (m : fs) : NoDup (children p m).
Proof.
  apply NoDup_omap_inj; [apply NoDup_fst_map_to_list|].
  intros x y z Hx%child_of_Some Hy%child_of_Some. congruence.
Qed.

Section copying.

Context (order : path → fs → list string).

(** Whatever the order, [listing] holds the names of [children], each once. *)
Lemma listing_elem (p : path) (m : fs) (n : string) :
  n ∈ listing order p m ↔ n ∈ children p m.
Proof.
  unfold listing. rewrite elem_of_app, !list_elem_of_filter, elem_of_remove_dups.
  split; [tauto|]. intros Hn.
  destruct (decide (n ∈ order p m)) as [Ho|Ho]; [by left|]. right. tauto.
Qed.

Lemma listing_NoDup (p : path) (m : fs) : NoDup (listing order p m).
Proof.
  unfold listing. apply NoDup_app. split; [|split].
  - apply NoDup_filter, NoDup_remove_dups.
  - intros n Hn. rewrite list_elem_of_filter. tauto.
  - apply NoDup_filter, children_NoDup.
Qed.

Lemma listing_spec (p : path) (m : fs) (n : string) :
  n ∈ listing order p m ↔ is_Some (m !! (p ++ [n])).
Proof. by rewrite listing_elem, children_spec. Qed.

Lemma listing_nil (p : path) (m : fs) : listing order p m = [] ↔ children p m = [].
Proof.
  split; intros H.
  - destruct (children p m) as [|n l] eqn:E; [done|].
    assert (n ∈ listing order p m) as Hn by (apply listing_elem; rewrite E; by left).
    rewrite H in Hn. by apply elem_of_nil in Hn.
  - destruct (listing order p m) as [|n l] eqn:E; [done|].
    assert (n ∈ children p m) as Hn by (apply listing_elem; rewrite E; by left).
    rewrite H in Hn. by apply elem_of_nil in Hn.
Qed.

Lemma readdirSync_spec (p : path) (m : fs) :
  m !! p = Some Dir →
  ∃ names, readdirSync order p m = Some names ∧ NoDup names ∧
           ∀ n, n ∈ names ↔ is_Some (m !! (p ++ [n])).
Proof.
  intros Hp. unfold readdirSync. rewrite Hp. exists (listing order p m).
  split; [done|]. split; [apply listing_NoDup|apply listing_spec].
Qed.

(** ** The copy *)

Lemma copyRecursive_unfold (k : nat) (src dest : path) (m : fs) :
  copyRecursive order (S k) src dest m
  = match m !! src with
    | None => Threw m
    | Some Dir =>
        match (if existsSync dest m then Done m else mkdirSync dest m) with
        | Done m1 =>
            match readdirSync order src m1 with
            | None => Threw m1
            | Some entries => foldl (copy_entry order k src dest) (Done m1) entries
            end
        | stopped => stopped
        end
    | Some (File _) => copyFileSync src dest m
    end.
Proof. reflexivity. Qed.

Lemma ready_bool (k : nat) (src dest : path) (m : fs) :
  diverge src dest = true → tree_under k src m = true → reachable dest m = true →
  compatible src dest m = true → ready k src dest m.
Proof.
  intros Hd [H1 H2]%tree_under_spec Hr Hc. repeat split; try done.
  - by apply reachable_spec.
  - by apply compatible_spec.
Qed.

Lemma diverge_nonempty (p q : path) : diverge p q = true → p ≠ [] ∧ q ≠ [].
Proof. by destruct p, q. Qed.

Lemma overlay_outside (src dest : path) (m : fs) (q : path) :
  strip dest q = None → overlay src dest m q = m !! q.
Proof. unfold overlay. by intros ->. Qed.

Lemma overlay_inside (src dest : path) (m : fs) (r : path) :
  overlay src dest m (dest ++ r)
  = match m !! (src ++ r) with Some x => Some x | None => m !! (dest ++ r) end.
Proof. unfold overlay. by rewrite strip_app. Qed.

Section loop.
Context (k : nat) (src dest : path) (m : fs).
Hypothesis IH : ∀ src' dest' m',
  ready k src' dest' m' → is_Some (m' !! src') →
  ∃ m'', copyRecursive order k src' dest' m' = Done m'' ∧ ∀ q, m'' !! q = overlay src' dest' m' q.
Hypothesis Hready : ready (S k) src dest m.

Lemma copied_src (copied : list string) (mi : fs) (r : path) :
  copied_so_far src dest m copied mi → mi !! (src ++ r) = m !! (src ++ r).
Proof.
  intros Hinv. destruct Hready as (Hdiv & _). rewrite Hinv.
  rewrite diverge_strip; [done|]. by rewrite diverge_sym.
Qed.

Lemma copied_pending (copied : list string) (mi : fs) (n : string) (r : path) :
  copied_so_far src dest m copied mi → n ∉ copied →
  mi !! (dest ++ n :: r) = m !! (dest ++ n :: r).
Proof. intros Hinv Hn. rewrite Hinv, strip_app. by rewrite decide_False. Qed.

Lemma copied_ready (copied : list string) (mi : fs) (n : string) :
  copied_so_far src dest m copied mi → n ∉ copied →
  ready k (src ++ [n]) (dest ++ [n]) mi.
Proof.
  intros Hinv Hn. destruct Hready as (Hdiv & Hdepth & Htree & Hreach & Hcompat).
  repeat split.
  - by apply diverge_app.
  - intros r Hr. rewrite <- app_assoc, (copied_src copied) in Hr by done.
    apply Hdepth in Hr. rewrite length_app in Hr. cbn in Hr. lia.
  - intros r n' Hr. rewrite <- !app_assoc in *. rewrite (copied_src copied) in * by done.
    by apply (Htree ([n] ++ r) n').
  - intros a. rewrite ancestors_snoc. intros [Ha| ->%list_elem_of_singleton]%elem_of_app.
    + rewrite Hinv, strip_ancestor by done. by apply Hreach.
    + by rewrite Hinv, strip_self.
  - intros r a b. rewrite <- !app_assoc. cbn [app].
    rewrite (copied_src copied), (copied_pending copied) by done. apply Hcompat.
Qed.

Lemma copied_step (copied : list string) (mi m' : fs) (n : string) :
  copied_so_far src dest m copied mi → n ∉ copied →
  (∀ q, m' !! q = overlay (src ++ [n]) (dest ++ [n]) mi q) →
  copied_so_far src dest m (copied ++ [n]) m'.
Proof.
  intros Hinv Hn Hm' q. rewrite Hm'. unfold overlay at 1.
  destruct (strip dest q) as [[|n' r]|] eqn:E.
  - apply strip_Some in E as ->. rewrite app_nil_r.
    replace (strip (dest ++ [n]) dest) with (@None path).
    + by rewrite Hinv, strip_self.
    + symmetry. apply strip_None. intros r E. rewrite <- app_assoc in E.
      apply (f_equal length) in E. rewrite length_app in E. cbn in E. lia.
  - apply strip_Some in E as ->. destruct (decide (n' = n)) as [->|Hne].
    + replace (dest ++ n :: r) with ((dest ++ [n]) ++ r) by by rewrite <- app_assoc.
      rewrite strip_app. rewrite <- !app_assoc. cbn [app].
      rewrite (copied_src copied), (copied_pending copied) by done.
      rewrite decide_True by (apply elem_of_app; right; by apply list_elem_of_singleton).
      by rewrite overlay_inside.
    + replace (strip (dest ++ [n]) (dest ++ n' :: r)) with (@None path).
      * rewrite Hinv, strip_app. destruct (decide (n' ∈ copied)) as [Hin|Hnin].
        -- rewrite decide_True; [done|]. apply elem_of_app. by left.
        -- rewrite decide_False; [done|].
           intros [?| ->%list_elem_of_singleton]%elem_of_app; done.
      * symmetry. apply strip_None. intros r'. rewrite <- app_assoc. cbn [app].
        intros [= -> _]%app_inv_head. done.
  - replace (strip (dest ++ [n]) q) with (@None path).
    + by rewrite Hinv, E.
    + symmetry. apply strip_None. intros r ->. by rewrite <- app_assoc, strip_app in E.
Qed.

Lemma copy_loop (todo copied : list string) (mi : fs) :
  NoDup (copied ++ todo) →
  (∀ n, n ∈ todo → is_Some (m !! (src ++ [n]))) →
  copied_so_far src dest m copied mi →
  ∃ m', foldl (copy_entry order k src dest) (Done mi) todo = Done m' ∧
        copied_so_far src dest m (copied ++ todo) m'.
Proof.
  revert copied mi. induction todo as [|n todo IHtodo]; intros copied mi Hnd Hex Hinv.
  - exists mi. by rewrite app_nil_r.
  - assert (Hn : n ∉ copied).
    { apply NoDup_app in Hnd as (_ & Hdisj & _). intros Hin. apply (Hdisj n Hin).
      apply elem_of_cons. by left. }
    destruct (IH (src ++ [n]) (dest ++ [n]) mi) as (m' & Hrun & Hm').
    { by apply (copied_ready copied). }
    { rewrite (copied_src copied) by done. apply Hex, elem_of_cons. by left. }
    cbn [foldl copy_entry]. rewrite Hrun.
    destruct (IHtodo (copied ++ [n]) m') as (m'' & Hrun' & Hm'').
    { by rewrite <- app_assoc. }
    { intros n' Hn'. apply Hex, elem_of_cons. by right. }
    { by apply (copied_step copied mi). }
    exists m''. split; [done|]. by rewrite <- app_assoc in Hm''.
Qed.
End loop.

Lemma copy_ready (k : nat) :
  ∀ src dest m, ready k src dest m → is_Some (m !! src) →
  ∃ m', copyRecursive order k src dest m = Done m' ∧ ∀ q, m' !! q = overlay src dest m q.
Proof.
  induction k as [|k IH]; intros src dest m Hready [e He].
  { destruct Hready as (_ & Hdepth & _). specialize (Hdepth []).
    rewrite app_nil_r, He in Hdepth. specialize (Hdepth (mk_is_Some _ _ eq_refl)).
    cbn in Hdepth. lia. }
  pose proof Hready as (Hdiv & Hdepth & Htree & Hreach & Hcompat).
  destruct (diverge_nonempty _ _ Hdiv) as [Hsrc Hdest].
  assert (Hne : src ≠ dest).
  { intros <-. pose proof (diverge_ne src src [] Hdiv) as H. by rewrite app_nil_r in H. }
  rewrite copyRecursive_unfold, He. destruct e as [d|].
  - (* a regular file *)
    assert (Hd : m !! dest ≠ Some Dir).
    { intros Hd. specialize (Hcompat [] (File d) Dir). rewrite !app_nil_r in Hcompat.
      by specialize (Hcompat He Hd). }
    rewrite (copyFileSync_ok src dest m d) by done.
    eexists. split; [done|]. intros q. unfold overlay.
    destruct (strip dest q) as [[|n r]|] eqn:E.
    + apply strip_Some in E as ->. by rewrite !app_nil_r, lookup_insert_eq, He.
    + apply strip_Some in E as ->.
      rewrite lookup_insert_ne.
      2:{ intros E. apply (f_equal length) in E. rewrite length_app in E. cbn in E. lia. }
      destruct (m !! (src ++ n :: r)) as [x|] eqn:Ex; [|done].
      pose proof (below_dir src m Htree (n :: r) []) as Hb.
      rewrite app_nil_r in Hb. cbn [app] in Hb. rewrite Ex, He in Hb.
      by specialize (Hb ltac:(done) (mk_is_Some _ _ eq_refl)).
    + rewrite lookup_insert_ne; [done|]. intros <-. by rewrite strip_self in E.
  - (* a directory *)
    assert (∃ m1, (if existsSync dest m then Done m else mkdirSync dest m) = Done m1 ∧
                  copied_so_far src dest m [] m1) as (m1 & -> & Hm1).
    { unfold existsSync. destruct (m !! dest) as [b|] eqn:Eb.
      - exists m. split; [done|]. intros q. destruct (strip dest q) as [[|n r]|] eqn:E; try done.
        apply strip_Some in E as ->. rewrite app_nil_r, Eb.
        specialize (Hcompat [] Dir b). rewrite !app_nil_r in Hcompat.
        specialize (Hcompat He Eb). by destruct b.
      - rewrite mkdirSync_fresh by done. eexists. split; [done|]. intros q.
        destruct (strip dest q) as [[|n r]|] eqn:E.
        + apply strip_Some in E as ->. by rewrite app_nil_r, lookup_insert_eq.
        + apply strip_Some in E as ->. rewrite lookup_insert_ne; [done|].
          intros E. apply (f_equal length) in E. rewrite length_app in E. cbn in E. lia.
        + rewrite lookup_insert_ne; [done|]. intros <-. by rewrite strip_self in E. }
    assert (Hs1 : m1 !! src = Some Dir).
    { pose proof (copied_src k src dest m Hready [] m1 [] Hm1) as H.
      by rewrite !app_nil_r, He in H. }
    destruct (readdirSync_spec src m1 Hs1) as (names & -> & Hnd & Hnames).
    destruct (copy_loop k src dest m IH Hready names [] m1) as (m' & -> & Hm'); try done.
    { intros n Hn%Hnames. by rewrite (copied_src k src dest m Hready [] m1 [n] Hm1) in Hn. }
    exists m'. split; [done|]. intros q. rewrite Hm'. cbn [app]. unfold overlay.
    destruct (strip dest q) as [[|n r]|] eqn:E; try done.
    + apply strip_Some in E as ->. by rewrite !app_nil_r, He.
    + apply strip_Some in E as ->.
      destruct (decide (n ∈ names)) as [Hin|Hnin]; [done|].
      destruct (m !! (src ++ n :: r)) as [x|] eqn:Ex; [|done].
      destruct Hnin. apply Hnames.
      rewrite (copied_src k src dest m Hready [] m1 [n] Hm1).
      destruct r as [|n2 r]; [by rewrite Ex|].
      rewrite (below_dir src m Htree (n2 :: r) [n]); [done|done|].
      cbn [app]. by rewrite Ex.
Qed.

Lemma existsSync_spec (p : path) (m : fs) : existsSync p m = true ↔ is_Some (m !! p).
Proof.
  unfold existsSync. destruct (m !! p); split; try done; by intros [? ?].
Qed.

(** X13: when [src] and [dest] lie apart, [src] exists and is a tree
    that the recursion can walk, the directories on the way to [dest]
    exist, and no regular file meets a directory, [copyRecursive]
    returns normally.  Afterwards every entry below [src] is found at the
    same place below [dest], with the same content; what [dest] had at a
    place where [src] has nothing is still there; and nothing that is not
    at or below [dest] has changed, the source included. *)
Theorem copy_overlays_source (fuel : nat) (src dest : path) (m : fs) :
  diverge src dest = true → existsSync src m = true → tree_under fuel src m = true →
  reachable dest m = true → compatible src dest m = true →
  ∃ m', copyRecursive order fuel src dest m = Done m' ∧
        (∀ r x, m !! (src ++ r) = Some x → m' !! (dest ++ r) = Some x) ∧
        (∀ r, m !! (src ++ r) = None → m' !! (dest ++ r) = m !! (dest ++ r)) ∧
        (∀ q, strip dest q = None → m' !! q = m !! q).
Proof.
  intros Hdiv Hsrc%existsSync_spec Htree Hreach Hcompat.
  destruct (copy_ready fuel src dest m (ready_bool _ _ _ _ Hdiv Htree Hreach Hcompat) Hsrc)
    as (m' & Hrun & Hm').
  exists m'. split; [done|]. repeat split.
  - intros r x Hx. by rewrite Hm', overlay_inside, Hx.
  - intros r Hr. by rewrite Hm', overlay_inside, Hr.
  - intros q Hq. by rewrite Hm', overlay_outside.
Qed.

(** X14: under the same conditions a second [copyRecursive] of the same
    source onto the same destination returns normally and leaves the
    file system exactly as the first one left it. *)
Theorem copy_again_changes_nothing (fuel : nat) (src dest : path) (m m' : fs) :
  diverge src dest = true → existsSync src m = true → tree_under fuel src m = true →
  reachable dest m = true → compatible src dest m = true →
  copyRecursive order fuel src dest m = Done m' →
  copyRecursive order fuel src dest m' = Done m'.
Proof.
  intros Hdiv Hsrc%existsSync_spec Htree Hreach Hcompat Hrun.
  pose proof (ready_bool _ _ _ _ Hdiv Htree Hreach Hcompat) as Hready.
  destruct (copy_ready fuel src dest m Hready Hsrc) as (m1 & Hrun1 & Hm').
  rewrite Hrun in Hrun1. injection Hrun1 as <-.
  assert (Hsame : ∀ r, m' !! (src ++ r) = m !! (src ++ r)).
  { intros r. rewrite Hm', overlay_outside; [done|].
    apply diverge_strip. by rewrite diverge_sym. }
  destruct Hready as (_ & Hdepth & Htr & Hanc & Hcomp).
  destruct (copy_ready fuel src dest m') as (m2 & Hrun2 & Hm2).
  { repeat split; try done.
    - intros r. rewrite Hsame. apply Hdepth.
    - intros r n. rewrite !Hsame. apply Htr.
    - intros a Ha. rewrite Hm', overlay_outside by by apply strip_ancestor. by apply Hanc.
    - intros r a b. rewrite Hsame, Hm', overlay_inside. intros ->. intros [= <-]. by destruct a. }
  { pose proof (Hsame []) as H. rewrite app_nil_r in H. by rewrite H. }
  rewrite Hrun2. f_equal. apply map_eq. intros q. rewrite Hm2. unfold overlay.
  destruct (strip dest q) as [r|] eqn:E; [|done].
  apply strip_Some in E as ->. rewrite Hsame.
  destruct (m !! (src ++ r)) as [x|] eqn:Ex; [|done].
  by rewrite Hm', overlay_inside, Ex.
Qed.

Lemma returned_Done (o : outcome) : returned o = true → o = Done (default ∅ (left_by o)).
Proof. by destruct o. Qed.

(** X18: two copies onto the same destination, as the script makes
    them: first a base tree, then a patch tree.  When both calls meet the
    conditions (the trees lie apart from [dest], and no regular file
    meets a directory between any two of the three), both return
    normally.  Afterwards each place below [dest] holds the entry of the
    patch tree if it has one there, else that of the base tree, else what
    [dest] had before; nothing outside [dest] has changed. *)
Theorem patch_overrides_base (fuel : nat) (base patch dest : path) (m : fs) :
  diverge base dest = true → existsSync base m = true → tree_under fuel base m = true →
  diverge patch dest = true → existsSync patch m = true → tree_under fuel patch m = true →
  reachable dest m = true →
  compatible base dest m = true → compatible patch dest m = true →
  compatible patch base m = true →
  ∃ m1 m2,
    copyRecursive order fuel base dest m = Done m1 ∧
    copyRecursive order fuel patch dest m1 = Done m2 ∧
    (∀ r, m2 !! (dest ++ r)
          = match m !! (patch ++ r) with
            | Some x => Some x
            | None => match m !! (base ++ r) with
                      | Some x => Some x
                      | None => m !! (dest ++ r)
                      end
            end) ∧
    (∀ q, strip dest q = None → m2 !! q = m !! q).
Proof.
  intros Hdb Hb%existsSync_spec Htb Hdp Hp%existsSync_spec Htp Hreach Hcb Hcp Hcpb.
  destruct (copy_ready fuel base dest m (ready_bool _ _ _ _ Hdb Htb Hreach Hcb) Hb)
    as (m1 & Hrun1 & Hm1).
  assert (Hsame : ∀ r, m1 !! (patch ++ r) = m !! (patch ++ r)).
  { intros r. rewrite Hm1, overlay_outside; [done|].
    apply diverge_strip. by rewrite diverge_sym. }
  destruct (ready_bool _ _ _ _ Hdp Htp Hreach Hcp) as (_ & Hdepth & Htr & Hanc & Hcomp).
  destruct (copy_ready fuel patch dest m1) as (m2 & Hrun2 & Hm2).
  { repeat split; try done.
    - intros r. rewrite Hsame. apply Hdepth.
    - intros r n. rewrite !Hsame. apply Htr.
    - intros a Ha. rewrite Hm1, overlay_outside by by apply strip_ancestor. by apply Hanc.
    - intros r a b. rewrite Hsame, Hm1, overlay_inside. intros Ha.
      destruct (m !! (base ++ r)) as [x|] eqn:Ex.
      + intros [= <-]. by apply (compatible_spec patch base m Hcpb r).
      + by apply Hcomp. }
  { pose proof (Hsame []) as H. rewrite app_nil_r in H. by rewrite H. }
  exists m1, m2. repeat split; try done.
  - intros r. by rewrite Hm2, overlay_inside, Hsame, Hm1, overlay_inside.
  - intros q Hq. by rewrite Hm2, overlay_outside, Hm1, overlay_outside.
Qed.

(** ** What a copy never does *)

Lemma same_kind_refl (x : entry) : same_kind x x = true.
Proof. by destruct x. Qed.

Lemma same_kind_trans (x y z : entry) :
  same_kind x y = true → same_kind y z = true → same_kind x z = true.
Proof. by destruct x, y, z. Qed.

Lemma preserved_refl (dest : path) (m : fs) : preserved dest m m.
Proof.
  intros q x Hx. destruct (strip dest q); [|done]. exists x. by rewrite same_kind_refl.
Qed.

Lemma preserved_trans (dest : path) (m1 m2 m3 : fs) :
  preserved dest m1 m2 → preserved dest m2 m3 → preserved dest m1 m3.
Proof.
  intros H12 H23 q x Hx. specialize (H12 q x Hx). pose proof (H23 q) as H.
  destruct (strip dest q).
  - destruct H12 as (y & Hy & Hxy). destruct (H y Hy) as (z & Hz & Hyz).
    exists z. split; [done|]. by apply (same_kind_trans x y z).
  - by apply H.
Qed.

Lemma strip_prefix_None (dest r q : path) : strip dest q = None → strip (dest ++ r) q = None.
Proof.
  intros H. apply strip_None. intros r' ->. by rewrite <- app_assoc, strip_app in H.
Qed.

Lemma preserved_below (dest r : path) (m m' : fs) :
  preserved (dest ++ r) m m' → preserved dest m m'.
Proof.
  intros H q x Hx. specialize (H q x Hx). destruct (strip dest q) eqn:E.
  - destruct (strip (dest ++ r) q); [done|]. exists x. by rewrite same_kind_refl.
  - by rewrite (strip_prefix_None dest r q E) in H.
Qed.

Lemma preserved_subseteq (dest : path) (m m' : fs) : m ⊆ m' → preserved dest m m'.
Proof.
  intros Hsub q x Hx. pose proof (lookup_weaken m m' q x Hx Hsub) as H.
  destruct (strip dest q); [|done]. exists x. by rewrite same_kind_refl.
Qed.

Lemma mkdir_from_grows (rest base : path) (m m' : fs) :
  left_by (mkdir_from base rest m) = Some m' → m ⊆ m'.
Proof.
  revert base m. induction rest as [|n rest IH]; intros base m; cbn [mkdir_from].
  - by intros [= ->].
  - destruct (m !! (base ++ [n])) as [[d|]|] eqn:E.
    + by intros [= ->].
    + apply IH.
    + intros H%IH. etrans; [|done]. by apply insert_subseteq.
Qed.

Lemma mkdirSync_grows (p : path) (m m' : fs) : left_by (mkdirSync p m) = Some m' → m ⊆ m'.
Proof.
  unfold mkdirSync. destruct (is_dir m []); [apply mkdir_from_grows|by intros [= ->]].
Qed.

Lemma copyFileSync_preserves (src dest : path) (m m' : fs) :
  left_by (copyFileSync src dest m) = Some m' → preserved dest m m'.
Proof.
  unfold copyFileSync.
  destruct (m !! src) as [[d|]|]; try (intros [= <-]; apply preserved_refl).
  destruct (m !! dest) as [[d0|]|] eqn:Ed; try (intros [= <-]; apply preserved_refl);
    destruct (is_dir m (removelast dest)); try (intros [= <-]; apply preserved_refl);
    intros [= <-] q x Hx; destruct (decide (q = dest)) as [->|Hne];
    rewrite ?strip_self, ?lookup_insert_eq, ?lookup_insert_ne by done.
  - exists (File d). split; [done|]. rewrite Ed in Hx. by injection Hx as <-.
  - destruct (strip dest q); [|done]. exists x. by rewrite same_kind_refl.
  - by rewrite Ed in Hx.
  - destruct (strip dest q); [|done]. exists x. by rewrite same_kind_refl.
Qed.

Lemma copy_preserves (fuel : nat) :
  ∀ src dest m m', left_by (copyRecursive order fuel src dest m) = Some m' → preserved dest m m'.
Proof.
  induction fuel as [|k IH]; intros src dest m m'; [done|].
  rewrite copyRecursive_unfold. destruct (m !! src) as [[d|]|] eqn:Es.
  - apply copyFileSync_preserves.
  - assert (∀ names acc m0,
              (∀ mi, left_by acc = Some mi → preserved dest m0 mi) →
              left_by (foldl (copy_entry order k src dest) acc names) = Some m' →
              preserved dest m0 m') as Hloop.
    { induction names as [|n names IHn]; intros acc m0 Hacc; cbn [foldl]; [apply Hacc|].
      apply IHn. intros mi. destruct acc as [ma|ma|]; cbn [copy_entry]; [|apply Hacc|done].
      intros H%IH. apply (preserved_trans dest m0 ma mi); [by apply Hacc|].
      by apply (preserved_below dest [n]). }
    destruct (existsSync dest m).
    + destruct (readdirSync order src m) as [names|]; [|intros [= <-]; apply preserved_refl].
      apply Hloop. intros mi [= <-]. apply preserved_refl.
    + destruct (mkdirSync dest m) as [m1|m1|] eqn:Em; [| |done].
      * assert (preserved dest m m1) as Hm1.
        { apply preserved_subseteq, (mkdirSync_grows dest). by rewrite Em. }
        destruct (readdirSync order src m1) as [names|]; [|by intros [= <-]].
        apply Hloop. by intros mi [= <-].
      * intros [= <-]. apply preserved_subseteq, (mkdirSync_grows dest). by rewrite Em.
  - intros [= <-]. apply preserved_refl.
Qed.

Lemma entries_survive_copy (fuel : nat) (src dest : path) (m m' : fs) (q : path)
    (x : entry) :
  left_by (copyRecursive order fuel src dest m) = Some m' → m !! q = Some x →
  ∃ y, m' !! q = Some y ∧ same_kind x y = true.
Proof.
  intros Hrun Hx. pose proof (copy_preserves fuel src dest m m' Hrun q x Hx) as H.
  destruct (strip dest q); [done|]. exists x. by rewrite same_kind_refl.
Qed.

(** X15: whatever the arguments and the state of the file system, and
    whether the call returns or throws, [copyRecursive] loses nothing:
    every entry that is not at or below [dest] is as it was, and every
    entry at or below [dest] is still there and still of its kind (only
    the content of a regular file can have changed). *)
Theorem copy_never_removes (fuel : nat) (src dest : path) (m m' : fs) (q : path) (x : entry) :
  left_by (copyRecursive order fuel src dest m) = Some m' → m !! q = Some x →
  (strip dest q = None → m' !! q = Some x) ∧
  (∃ y, m' !! q = Some y ∧ same_kind x y = true).
Proof.
  intros Hrun Hx. pose proof (copy_preserves fuel src dest m m' Hrun q x Hx) as H.
  destruct (strip dest q).
  - split; [done|exact H].
  - split; [done|]. exists x. by rewrite same_kind_refl.
Qed.

Lemma finished_left_by (o : outcome) :
  finished o = true → left_by o = Some (default ∅ (left_by o)).
Proof. by destruct o. Qed.

(** ** Edge cases *)

Lemma foldl_stopped (k : nat) (src dest : path) (names : list string) (o : outcome) :
  (∀ m, o ≠ Done m) → foldl (copy_entry order k src dest) o names = o.
Proof.
  intros Ho. induction names as [|n names IH]; [done|]. cbn [foldl].
  destruct o as [m| |]; [by destruct (Ho m)|done|done].
Qed.

Lemma mkdir_from_blocked (rest1 rest2 base : path) (m : fs) (d : string) :
  rest1 ≠ [] →
  (∀ a, a ∈ ancestors rest1 → a ≠ [] → m !! (base ++ a) = Some Dir) →
  m !! (base ++ rest1) = Some (File d) →
  mkdir_from base (rest1 ++ rest2) m = Threw m.
Proof.
  revert base. induction rest1 as [|n rest1 IH]; intros base Hne Hdirs Hfile; [done|].
  cbn [mkdir_from app]. destruct rest1 as [|n2 rest1].
  - by rewrite Hfile.
  - rewrite (Hdirs [n]); [|by apply ancestors_cons, ancestors_head|done].
    apply IH; [done| |by rewrite <- app_assoc].
    intros a Ha Hane. rewrite <- app_assoc. apply Hdirs; [|done]. by apply ancestors_cons.
Qed.

(** X16: [copyRecursive] of a directory onto a regular file.  The
    destination exists, so no directory is made.  If the source directory
    is empty the call returns normally and nothing has changed: the
    regular file is still there.  Otherwise the first entry cannot be
    written below a regular file and the call throws, before anything
    was changed. *)
Theorem copy_directory_onto_file (fuel : nat) (src dest : path) (m : fs) (d : string) :
  m !! src = Some Dir → m !! dest = Some (File d) →
  reachable dest m = true → children dest m = [] →
  copyRecursive order (S (S fuel)) src dest m
  = match children src m with [] => Done m | _ :: _ => Threw m end.
Proof.
  intros Hs Hd Hreach Hkids.
  rewrite copyRecursive_unfold, Hs. unfold existsSync, readdirSync. rewrite Hd, Hs.
  destruct (listing order src m) as [|n names] eqn:E.
  { apply listing_nil in E. by rewrite E. }
  assert (Hn : is_Some (m !! (src ++ [n]))).
  { apply listing_spec. rewrite E. apply elem_of_cons. by left. }
  destruct (children src m) as [|n0 names0] eqn:E0.
  { apply listing_nil in E0. by rewrite E0 in E. }
  cbn [foldl copy_entry].
  assert (Hdn : m !! (dest ++ [n]) = None).
  { destruct (m !! (dest ++ [n])) eqn:Edn; [|done].
    assert (n ∈ children dest m) as Hin by (apply children_spec; by rewrite Edn).
    rewrite Hkids in Hin. by apply elem_of_nil in Hin. }
  assert (copyRecursive order (S fuel) (src ++ [n]) (dest ++ [n]) m = Threw m) as ->.
  { rewrite copyRecursive_unfold. destruct Hn as [[d'|] Hn]; rewrite Hn.
    - unfold copyFileSync, is_dir. by rewrite Hn, Hdn, removelast_snoc, Hd.
    - unfold existsSync, mkdirSync. rewrite Hdn.
      destruct (is_dir m []) eqn:Eroot; [|done].
      destruct dest as [|a dest]; [unfold is_dir in Eroot; by rewrite Hd in Eroot|].
      rewrite (mkdir_from_blocked (a :: dest) [n] [] m d); try done.
      intros x Hx _. by apply reachable_spec with (p := a :: dest). }
  by apply foldl_stopped.
Qed.

Lemma mkdir_from_creates (rest base : path) (m m1 : fs) :
  rest ≠ [] → mkdir_from base rest m = Done m1 → m1 !! (base ++ rest) = Some Dir.
Proof.
  revert base m. induction rest as [|n rest IH]; intros base m Hne; [done|].
  cbn [mkdir_from]. destruct rest as [|n2 rest].
  - destruct (m !! (base ++ [n])) as [[d|]|] eqn:E; cbn [mkdir_from]; try done.
    + by intros [= <-].
    + intros [= <-]. by rewrite lookup_insert_eq.
  - replace (base ++ n :: n2 :: rest) with ((base ++ [n]) ++ n2 :: rest)
      by (by rewrite <- app_assoc).
    destruct (m !! (base ++ [n])) as [[d|]|]; [done|by apply IH|by apply IH].
Qed.

Lemma copy_into_itself_not_done (fuel : nat) (src : path) (x : string) (m m' : fs) :
  copyRecursive order fuel src (src ++ [x]) m ≠ Done m'.
Proof.
  revert src m m'. induction fuel as [|k IH]; intros src m m'; [done|].
  rewrite copyRecursive_unfold. destruct (m !! src) as [[d|]|] eqn:Es; [| |done].
  - unfold copyFileSync, is_dir. rewrite Es, removelast_snoc, Es.
    by destruct (m !! (src ++ [x])) as [[?|]|].
  - assert (∀ names acc,
              x ∈ names →
              (∀ mi, acc = Done mi → is_Some (mi !! (src ++ [x]))) →
              foldl (copy_entry order k src (src ++ [x])) acc names ≠ Done m') as Hloop.
    { induction names as [|n names IHn]; intros acc Hx Hacc; [by apply elem_of_nil in Hx|].
      cbn [foldl]. destruct acc as [mi|mi|]; cbn [copy_entry].
      - destruct (decide (n = x)) as [->|Hne].
        + destruct (copyRecursive order k (src ++ [x]) ((src ++ [x]) ++ [x]) mi) as [m2|m2|] eqn:E.
          * by destruct (IH (src ++ [x]) mi m2).
          * by rewrite foldl_stopped.
          * by rewrite foldl_stopped.
        + apply IHn.
          * apply elem_of_cons in Hx as [->|Hx]; done.
          * intros m2 Hm2. destruct (Hacc mi eq_refl) as [y Hy].
            assert (left_by (copyRecursive order k (src ++ [n]) ((src ++ [x]) ++ [n]) mi) = Some m2)
              as Hl by by rewrite Hm2.
            destruct (entries_survive_copy k _ _ _ _ _ _ Hl Hy) as (z & -> & _). done.
      - by rewrite foldl_stopped.
      - by rewrite foldl_stopped. }
    destruct (existsSync (src ++ [x]) m) eqn:Ex.
    + apply existsSync_spec in Ex.
      destruct (readdirSync order src m) as [names|] eqn:En; [|done].
      unfold readdirSync in En. rewrite Es in En. injection En as <-.
      apply Hloop; [by apply listing_spec|]. by intros mi [= <-].
    + destruct (mkdirSync (src ++ [x]) m) as [m1|m1|] eqn:Em; [|done|done].
      assert (m1 !! (src ++ [x]) = Some Dir) as H1.
      { unfold mkdirSync in Em. destruct (is_dir m []); [|done].
        apply (mkdir_from_creates (src ++ [x]) [] m m1); [by destruct src|done]. }
      destruct (readdirSync order src m1) as [names|] eqn:En; [|done].
      unfold readdirSync in En. destruct (m1 !! src) as [[?|]|]; try done. injection En as <-.
      apply Hloop; [apply listing_spec; by rewrite H1|]. intros mi [= <-]. by rewrite H1.
Qed.

(** X17: [copyRecursive] of a path into its own child never returns
    normally, whatever the file system holds and however far the
    recursion is followed: the destination is created inside the source,
    is listed among the entries of the source and is then copied into
    itself in turn.  The call throws or recurses without end. *)
Theorem copy_into_itself_never_returns (fuel : nat) (src : path) (x : string) (m : fs) :
  returned (copyRecursive order fuel src (src ++ [x]) m) = false.
Proof.
  destruct (copyRecursive order fuel src (src ++ [x]) m) as [m'| |] eqn:E; try done.
  by destruct (copy_into_itself_not_done fuel src x m m').
Qed.

End copying.

(** ** Examples *)

(** The order is visible in what a throw leaves behind: copying [a] onto
    [b] in [ex_clash] throws at [d]; [b/x] is still the old file when [d]
    is listed first and has been overwritten when [x] is listed first. *)
Lemma throw_leaves_what_the_order_reached :
  (left_by (copyRecursive (λ _ _, ["d"; "x"]) 3 ["a"] ["b"] ex_clash) ≫= (.!! ["b"; "x"])
   = Some (File "old")) ∧
  (left_by (copyRecursive (λ _ _, ["x"; "d"]) 3 ["a"] ["b"] ex_clash) ≫= (.!! ["b"; "x"])
   = Some (File "1")) ∧
  finished (copyRecursive (λ _ _, ["d"; "x"]) 3 ["a"] ["b"] ex_clash) = true ∧
  returned (copyRecursive (λ _ _, ["d"; "x"]) 3 ["a"] ["b"] ex_clash) = false.
Proof. vm_compute. done. Qed.

Lemma copy_overlays_source_witness :
  ∃ m', copyRecursive ex_order 3 ["a"] ["b"] ex = Done m' ∧
        (∀ r x, ex !! (["a"] ++ r) = Some x → m' !! (["b"] ++ r) = Some x) ∧
        (∀ r, ex !! (["a"] ++ r) = None → m' !! (["b"] ++ r) = ex !! (["b"] ++ r)) ∧
        (∀ q, strip ["b"] q = None → m' !! q = ex !! q).
Proof. apply (copy_overlays_source ex_order 3 ["a"] ["b"] ex); vm_compute; reflexivity. Defined.

Lemma copy_again_changes_nothing_witness :
  let m' := default ∅ (left_by (copyRecursive ex_order 3 ["a"] ["b"] ex)) in
  copyRecursive ex_order 3 ["a"] ["b"] m' = Done m'.
Proof.
  apply (copy_again_changes_nothing ex_order 3 ["a"] ["b"] ex);
    try apply returned_Done; vm_compute; reflexivity.
Defined.

Lemma patch_overrides_base_witness :
  ∃ m1 m2,
    copyRecursive ex_order 3 ["a"] ["b"] ex_patch = Done m1 ∧
    copyRecursive ex_order 3 ["p"] ["b"] m1 = Done m2 ∧
    (∀ r, m2 !! (["b"] ++ r)
          = match ex_patch !! (["p"] ++ r) with
            | Some x => Some x
            | None => match ex_patch !! (["a"] ++ r) with
                      | Some x => Some x
                      | None => ex_patch !! (["b"] ++ r)
                      end
            end) ∧
    (∀ q, strip ["b"] q = None → m2 !! q = ex_patch !! q).
Proof.
  apply (patch_overrides_base ex_order 3 ["a"] ["p"] ["b"] ex_patch); vm_compute; reflexivity.
Defined.

Lemma copy_never_removes_witness :
  let m' := default ∅ (left_by (copyRecursive ex_order 3 ["a"] ["b"] ex_clash)) in
  (strip ["b"] ["b"; "x"] = None → m' !! ["b"; "x"] = Some (File "old")) ∧
  (∃ y, m' !! ["b"; "x"] = Some y ∧ same_kind (File "old") y = true).
Proof.
  apply (copy_never_removes ex_order 3 ["a"] ["b"] ex_clash _ ["b"; "x"] (File "old"));
    try apply finished_left_by; vm_compute; reflexivity.
Defined.

Lemma copy_directory_onto_file_witness :
  copyRecursive ex_order 2 ["a"] ["b"; "z"] ex
  = match children ["a"] ex with [] => Done ex | _ :: _ => Threw ex end.
Proof.
  apply (copy_directory_onto_file ex_order 0 ["a"] ["b"; "z"] ex "keep"); vm_compute; reflexivity.
Defined.

End VendorFacts.
